(** * Replay: the step runner and the import resolver

    A shallow embedding of [src/Runner.ts]: the [Runner] class with its
    resumable [run] method, and [importSteps], the pass that splices the
    steps of external files into a flow.  The flow and step types come
    from [src/Schema.ts].  After them come [createRunner], the helpers
    of the command line in [src/CLIUtils.ts] (the status report and
    [runFiles] among them), and the abortable runner of the earlier
    [Runner.ts]. *)

From Stdlib Require Import List ZArith Bool Lia String Ascii PeanoNat Sorted.
From Stdlib Require Import PrimFloat.
Import ListNotations.

Set Implicit Arguments.

(** ** Flow model ([Schema.ts]) *)

(** A JavaScript [number]. *)
Definition number : Type := float.

(** [interface UserFlow], generic in the type of the elements of [steps]:
    the runner never looks inside a step, the resolver does. *)
Record UserFlow (S : Type) : Type := mkUserFlow {
  title : string;
  timeout : option number;
  selectorAttribute : option string;
  steps : list S
}.

(** ** The step runner *)

Section StepRunner.

(** [Step] is the payload handed to the backend, [B] the state of the
    world the backend acts on (browser, page, mocks), [Err] what a
    rejected promise carries. *)
Variables (Step B Err : Type).

(** An awaited promise of a hook: it either fulfils or rejects, and in
    both cases the backend has moved to a new state. *)
Inductive settled : Type :=
| Fulfilled (b : B)
| Rejected (e : Err) (b : B).

(** [interface RunnerExtension]: [runStep] is mandatory, the four
    lifecycle hooks are optional members. *)
Record RunnerExtension : Type := mkExtension {
  beforeAllSteps : option (UserFlow Step -> B -> settled);
  beforeEachStep : option (Step -> UserFlow Step -> B -> settled);
  runStep : Step -> UserFlow Step -> B -> settled;
  afterEachStep : option (Step -> UserFlow Step -> B -> settled);
  afterAllSteps : option (UserFlow Step -> B -> settled)
}.

(** [class Runner]: the three private fields. *)
Record Runner : Type := mkRunner {
  flow : UserFlow Step;
  extension : RunnerExtension;
  nextStep : nat
}.

(** [constructor(flow, extension)]; [#nextStep = 0]. *)
Definition new_Runner (f : UserFlow Step) (x : RunnerExtension) : Runner :=
  {| flow := f; extension := x; nextStep := 0 |}.

(** The calls the runner makes on its extension.  The index carried by
    the per-step calls is the value of [#nextStep] at the time of the
    call; it is bookkeeping of the model, the extension only receives the
    step and the flow. *)
Inductive Call : Type :=
| BeforeAllSteps
| BeforeEachStep (i : nat) (s : Step)
| RunStep (i : nat) (s : Step)
| AfterEachStep (i : nat) (s : Step)
| AfterAllSteps.

(** How an [async] body ends. *)
Inductive completion (A : Type) : Type :=
| Return (a : A)
| Throw (e : Err).
Arguments Throw {A} e.

(** The monad of [async] method bodies of the runner: the state is the
    runner object and the backend, the output is the list of calls made
    on the extension, in the order they were made. *)
Definition M (A : Type) : Type :=
  Runner * B -> completion A * (Runner * B) * list Call.

Definition ret {A} (a : A) : M A := fun w => (Return a, w, []).

(** The outcome of the rest of a body, with the calls [t1] made before it. *)
Definition preceded_by {A} (t1 : list Call)
  (o : completion A * (Runner * B) * list Call)
  : completion A * (Runner * B) * list Call :=
  match o with (res, w, t2) => (res, w, t1 ++ t2) end.

Definition bind {A C} (m : M A) (k : A -> M C) : M C := fun w =>
  match m w with
  | (Return a, w1, t1) => preceded_by t1 (k a w1)
  | (Throw e, w1, t1) => (Throw e, w1, t1)
  end.

Notation "x <- m ;; k" := (bind m (fun x => k))
  (at level 61, m at next level, right associativity).
Notation "m ;; k" := (bind m (fun _ => k))
  (at level 61, right associativity).

(** [this] inside a method. *)
Definition get_this : M Runner := fun w => (Return (fst w), w, []).

(** [this.#nextStep++] *)
Definition incr_nextStep : M unit := fun w =>
  let r := fst w in
  (Return tt,
   ({| flow := flow r; extension := extension r; nextStep := S (nextStep r) |},
    snd w),
   []).

(** [await p]: the call is made, and the body resumes only once the
    promise has settled; a rejection is thrown. *)
Definition await (c : Call) (p : B -> settled) : M unit := fun w =>
  match p (snd w) with
  | Fulfilled b => (Return tt, (fst w, b), [c])
  | Rejected e b => (Throw e, (fst w, b), [c])
  end.

(** [await ext.hook?.(args)]: nothing happens when the member is absent. *)
Definition await_opt {X} (h : option X) (c : Call) (app : X -> B -> settled)
  : M unit :=
  match h with
  | Some f => await c (app f)
  | None => ret tt
  end.

(** The [while] loop of [run].  Every iteration increments [#nextStep]
    and the test requires it below [steps.length], so
    [steps.length - #nextStep] iterations are enough ([run] passes that
    much fuel, and [run_loop_exit] shows the test is false when the loop
    is left).  Inside the loop the index is in range, so the read
    [steps[#nextStep]] always finds a step. *)
Fixpoint run_loop (fuel : nat) (stepIdx : Z) : M unit :=
  match fuel with
  | 0 => ret tt
  | S fuel' =>
      this <- get_this ;;
      if (Z.of_nat (nextStep this) <? stepIdx)%Z
         && (nextStep this <? List.length (steps (flow this)))
      then
        match nth_error (steps (flow this)) (nextStep this) with
        | Some step =>
            let i := nextStep this in
            let x := extension this in
            await_opt (beforeEachStep x) (BeforeEachStep i step)
                      (fun h => h step (flow this)) ;;
            await (RunStep i step) (runStep x step (flow this)) ;;
            await_opt (afterEachStep x) (AfterEachStep i step)
                      (fun h => h step (flow this)) ;;
            incr_nextStep ;;
            run_loop fuel' stepIdx
        | None => ret tt
        end
      else ret tt
  end.

(** [async run(stepIdx?: number): Promise<boolean>].  An omitted argument
    is [None].  The argument is only ever compared with the integer
    [#nextStep], so an integer stands for it: a fractional value acts as
    the next integer above it, [NaN] as 0, an infinity as an integer
    beyond every index.

    The flow is taken to be immutable, as the schema has it, and [run]
    is not re-entered from inside a hook: the extension changes only its
    own state [B]. *)
Definition run (stepIdx : option Z) : M bool :=
  this <- get_this ;;
  let stepIdx :=
    match stepIdx with
    | None => Z.of_nat (List.length (steps (flow this)))
    | Some i => i
    end in
  (if nextStep this =? 0
   then await_opt (beforeAllSteps (extension this)) BeforeAllSteps
                  (fun h => h (flow this))
   else ret tt) ;;
  this <- get_this ;;
  run_loop (List.length (steps (flow this)) - nextStep this) stepIdx ;;
  this <- get_this ;;
  if List.length (steps (flow this)) <=? nextStep this
  then
    await_opt (afterAllSteps (extension this)) AfterAllSteps
              (fun h => h (flow this)) ;;
    ret true
  else ret false.

End StepRunner.

Arguments BeforeAllSteps {Step}.
Arguments AfterAllSteps {Step}.
Arguments Return {Err A} a.
Arguments Throw {Err A} e.
Arguments ret {Step B Err A} a.
Arguments get_this {Step B Err}.
Arguments incr_nextStep {Step B Err}.
Arguments run_loop {Step B Err} fuel stepIdx.
Arguments run {Step B Err} stepIdx.

(** ** The calls a run is expected to make *)

Section Calls.

Context {Step B Err : Type}.
#[local] Abbreviation Runner := (Runner Step B Err).
#[local] Abbreviation Call := (Call Step).

(** The call of an optional hook, when the extension has it. *)
Definition opt_call {X} (h : option X) (c : Call) : list Call :=
  match h with
  | Some _ => [c]
  | None => []
  end.

(** The calls of one iteration of the loop, all of them succeeding. *)
Definition step_calls (r : Runner) (i : nat) (s : Step) : list Call :=
  opt_call (beforeEachStep (extension r)) (BeforeEachStep i s)
  ++ [RunStep i s]
  ++ opt_call (afterEachStep (extension r)) (AfterEachStep i s).

Definition calls_at (r : Runner) (i : nat) : list Call :=
  match nth_error (steps (flow r)) i with
  | Some s => step_calls r i s
  | None => []
  end.

(** The calls of the iterations for the [n] steps from index [c] on. *)
Definition calls_between (r : Runner) (c n : nat) : list Call :=
  flat_map (calls_at r) (seq c n).

(** The calls of the iterations for all the steps of the flow, in the
    order of [steps]. *)
Definition all_step_calls (r : Runner) : list Call :=
  flat_map (fun '(i, s) => step_calls r i s)
           (combine (seq 0 (List.length (steps (flow r)))) (steps (flow r))).

(** The first call of the iteration for step [s] at index [i]. *)
Definition first_call (r : Runner) (i : nat) (s : Step) : Call :=
  match beforeEachStep (extension r) with
  | Some _ => BeforeEachStep i s
  | None => RunStep i s
  end.

(** [beforeAllSteps], when [run] is entered with the cursor at 0. *)
Definition opening_calls (r : Runner) : list Call :=
  if nextStep r =? 0
  then opt_call (beforeAllSteps (extension r)) BeforeAllSteps
  else [].

(** Where the cursor is when the loop of [run stepIdx] is left without
    a failure. *)
Definition loop_end (r : Runner) (stepIdx : option Z) : nat :=
  let n := List.length (steps (flow r)) in
  match stepIdx with
  | None => Nat.max (nextStep r) n
  | Some i => Nat.max (nextStep r) (Z.to_nat (Z.min i (Z.of_nat n)))
  end.

(** The state the backend is left in by one call. *)
Definition state_of (s : settled B Err) : B :=
  match s with
  | Fulfilled _ b => b
  | Rejected _ b => b
  end.

(** How the promise of call [c] settles when the call is made in state
    [b]; a call of a hook the extension does not have does nothing. *)
Definition outcome (r : Runner) (c : Call) (b : B) : settled B Err :=
  let x := extension r in
  match c with
  | BeforeAllSteps =>
      match beforeAllSteps x with Some h => h (flow r) b | None => Fulfilled _ b end
  | BeforeEachStep _ s =>
      match beforeEachStep x with Some h => h s (flow r) b | None => Fulfilled _ b end
  | RunStep _ s => runStep x s (flow r) b
  | AfterEachStep _ s =>
      match afterEachStep x with Some h => h s (flow r) b | None => Fulfilled _ b end
  | AfterAllSteps =>
      match afterAllSteps x with Some h => h (flow r) b | None => Fulfilled _ b end
  end.

Definition perform (r : Runner) (c : Call) (b : B) : B :=
  state_of (outcome r c b).

(** The calls of a list made one after the other, each on the state the
    one before it left. *)
Definition replay (r : Runner) (t : list Call) (b : B) : B :=
  fold_left (fun b c => perform r c b) t b.

(** Every call of [t], made in turn from state [b], fulfils. *)
Fixpoint all_fulfilled (r : Runner) (t : list Call) (b : B) : Prop :=
  match t with
  | [] => True
  | c :: t' =>
      (exists b1, outcome r c b = Fulfilled _ b1)
      /\ all_fulfilled r t' (perform r c b)
  end.

(** The calls [t] made from state [b] account for the way a body ended:
    it returned and all of them fulfilled, or it threw [e] and the last
    of them is the one that rejected with [e]. *)
Definition accounts_for {A} (r : Runner) (b : B) (res : completion Err A)
  (t : list Call) : Prop :=
  match res with
  | Return _ => all_fulfilled r t b
  | Throw e =>
      exists t0 c b1,
        t = t0 ++ [c] /\ all_fulfilled r t0 b
        /\ outcome r c (replay r t0 b) = Rejected e b1
  end.

(** A body run on a runner with the flow and the extension of [r0]
    keeps both, leaves the backend where its calls brought it, and ends
    the way its calls account for. *)
Definition faithful {A} (r0 : Runner) (m : M Step B Err A) : Prop :=
  forall r b res r' b' t,
    flow r = flow r0 -> extension r = extension r0 ->
    m (r, b) = (res, (r', b'), t) ->
    flow r' = flow r0 /\ extension r' = extension r0
    /\ b' = replay r0 t b /\ accounts_for r0 b res t.

(** The indices of the steps [runStep] was called on, in call order. *)
Definition run_indices (t : list Call) : list nat :=
  flat_map (fun c => match c with RunStep i _ => [i] | _ => [] end) t.

Definition is_step_call (c : Call) : bool :=
  match c with
  | BeforeEachStep _ _ | RunStep _ _ | AfterEachStep _ _ => true
  | _ => false
  end.

Definition index_of (c : Call) : option nat :=
  match c with
  | BeforeEachStep i _ | RunStep i _ | AfterEachStep i _ => Some i
  | _ => None
  end.

Definition is_beforeAllSteps (c : Call) : bool :=
  match c with BeforeAllSteps => true | _ => false end.

Definition is_afterAllSteps (c : Call) : bool :=
  match c with AfterAllSteps => true | _ => false end.

(** How many calls of a list satisfy [p]. *)
Definition count (p : Call -> bool) (t : list Call) : nat :=
  List.length (filter p t).

(** 1 when the extension has the member, 0 when it does not. *)
Definition has {X} (h : option X) : nat :=
  match h with Some _ => 1 | None => 0 end.

(** An extension none of whose members ever rejects. *)
Definition never_rejects (x : RunnerExtension Step B Err) : Prop :=
  (forall h f b, beforeAllSteps x = Some h -> exists b', h f b = Fulfilled _ b')
  /\ (forall h s f b, beforeEachStep x = Some h -> exists b', h s f b = Fulfilled _ b')
  /\ (forall s f b, exists b', runStep x s f b = Fulfilled _ b')
  /\ (forall h s f b, afterEachStep x = Some h -> exists b', h s f b = Fulfilled _ b')
  /\ (forall h f b, afterAllSteps x = Some h -> exists b', h f b = Fulfilled _ b').

(** The ways one call of [run stepIdx] on runner [r] can go: what it
    returns or throws, where it leaves the cursor, and the calls it
    made. *)
Inductive run_shape (stepIdx : option Z) (r : Runner)
  : completion Err bool -> nat -> list Call -> Prop :=
| beforeAllSteps_throws e :
    nextStep r = 0 ->
    beforeAllSteps (extension r) <> None ->
    run_shape stepIdx r (Throw e) 0 [BeforeAllSteps]
| step_throws e j p q :
    nextStep r <= j < loop_end r stepIdx ->
    calls_at r j = p ++ q ->
    p <> [] ->
    run_shape stepIdx r (Throw e) j
      (opening_calls r ++ calls_between r (nextStep r) (j - nextStep r) ++ p)
| returns_false :
    loop_end r stepIdx < List.length (steps (flow r)) ->
    run_shape stepIdx r (Return false) (loop_end r stepIdx)
      (opening_calls r
       ++ calls_between r (nextStep r) (loop_end r stepIdx - nextStep r))
| returns_true :
    List.length (steps (flow r)) <= loop_end r stepIdx ->
    run_shape stepIdx r (Return true) (loop_end r stepIdx)
      (opening_calls r
       ++ calls_between r (nextStep r) (loop_end r stepIdx - nextStep r)
       ++ opt_call (afterAllSteps (extension r)) AfterAllSteps)
| afterAllSteps_throws e :
    List.length (steps (flow r)) <= loop_end r stepIdx ->
    afterAllSteps (extension r) <> None ->
    run_shape stepIdx r (Throw e) (loop_end r stepIdx)
      (opening_calls r
       ++ calls_between r (nextStep r) (loop_end r stepIdx - nextStep r)
       ++ [AfterAllSteps]).

(** A sequence of [run] calls on one runner, each entered in the state
    the one before left, whether it returned or threw.  The record of a
    call is the cursor it was entered with, how it ended, and the calls
    it made. *)
Fixpoint run_all (args : list (option Z)) (w : Runner * B)
  : list (nat * completion Err bool * list Call) * (Runner * B) :=
  match args with
  | [] => ([], w)
  | stepIdx :: rest =>
      match run stepIdx w with
      | (res, w1, t) =>
          match run_all rest w1 with
          | (records, w2) => ((nextStep (fst w), res, t) :: records, w2)
          end
      end
  end.


Definition returned (record : nat * completion Err bool * list Call) : Prop :=
  match record with
  | (_, Return _, _) => True
  | (_, Throw _, _) => False
  end.

End Calls.

(** ** The import resolver *)

(** What [JSON.parse] returns.  The members of an object are kept as an
    association list in which the first binding of a key is the one the
    object has.  A string is a sequence of characters, one [ascii] per
    code point. *)
#[local] Set Warnings "-register-all".
Inductive json : Type :=
| JNull
| JBool (b : bool)
| JNumber (n : number)
| JString (s : string)
| JArray (elements : list json)
| JObject (members : list (string * json)).

(** [o[key]] on the members of an object; [None] is [undefined]. *)
Fixpoint get (key : string) (members : list (string * json)) : option json :=
  match members with
  | [] => None
  | (k, v) :: rest => if (k =? key)%string then Some v else get key rest
  end.

(** [v[key]] for a [key] that no prototype defines: only an object can
    have it. *)
Definition member (key : string) (v : json) : option json :=
  match v with
  | JObject members => get key members
  | _ => None
  end.

(** The [type] discriminants of [type Step = UserStep | AssertionStep]. *)
Inductive StepType : Type :=
| doubleClick | click | hover | change | emulateNetworkConditions
| keyDown | keyUp | close | setViewport | scroll | navigate | customStep
| waitForElement | waitForExpression.

Definition StepType_tag (t : StepType) : string :=
  match t with
  | doubleClick => "doubleClick"
  | click => "click"
  | hover => "hover"
  | change => "change"
  | emulateNetworkConditions => "emulateNetworkConditions"
  | keyDown => "keyDown"
  | keyUp => "keyUp"
  | close => "close"
  | setViewport => "setViewport"
  | scroll => "scroll"
  | navigate => "navigate"
  | customStep => "customStep"
  | waitForElement => "waitForElement"
  | waitForExpression => "waitForExpression"
  end.

(** A [Step]: its discriminant and, opaque to the engine, its other
    members. *)
Record Step : Type := mkStep {
  type : StepType;
  payload : list (string * json)
}.

(** [interface ImportSteps]; its [type] is the literal ['import'].  [from]
    is declared ['file' | 'url']; any string is allowed here. *)
Record ImportSteps : Type := mkImportSteps {
  from : string;
  target : string
}.

(** An element of [ExtandableUserFlow.steps], of type
    [ImportSteps | Step]. *)
Inductive ExtandableStep : Type :=
| IsImport (i : ImportSteps)
| IsStep (s : Step).

Definition ExtandableUserFlow : Type := UserFlow ExtandableStep.

(** The tag the test [step.type != 'import'] reads. *)
Definition type_tag (step : ExtandableStep) : string :=
  match step with
  | IsImport _ => "import"
  | IsStep s => StepType_tag (type s)
  end.

(** The object a typed step is at run time.  The resolved flow is
    declared to hold [Step]s, but what comes out of an imported file is
    whatever [JSON.parse] produced, so the resolved steps are values. *)
Definition Step_value (s : Step) : json :=
  JObject (("type"%string, JString (StepType_tag (type s))) :: payload s).

(** A value that is an import marker: an object whose [type] is the
    string ['import'] (the test of [createRunner], on values). *)
Definition is_import_marker (v : json) : bool :=
  match member "type" v with
  | Some (JString t) => (t =? "import")%string
  | _ => false
  end.

(** A JavaScript [Error] object, as far as [`${error}`] can tell. *)
Record Error : Type := mkError {
  name : string;
  message : string
}.

(** [Error.prototype.toString]. *)
Definition toString (e : Error) : string :=
  if (name e =? "")%string then message e
  else if (message e =? "")%string then name e
  else (name e ++ ": " ++ message e)%string.

(** [new Error(message)] *)
Definition new_Error (msg : string) : Error :=
  {| name := "Error"; message := msg |}.

Definition newline : string := String (ascii_of_nat 10) EmptyString.
Definition dquote : string := String (ascii_of_nat 34) EmptyString.

(** The error thrown from the [catch] block (line 111). *)
Definition reading_Error (target : string) (error : Error) : Error :=
  new_Error ("Error reading file: " ++ target ++ newline ++ toString error).

(** The error thrown inside the [try] block when [steps] is missing
    (line 107). *)
Definition no_steps_Error (target : string) : Error :=
  new_Error ("No steps found in target: " ++ target).

(** The error thrown by the [default] case (line 118). *)
Definition unsupported_Error (from : string) : Error :=
  new_Error ("Adding steps from " ++ dquote ++ from ++ dquote
             ++ " is not supported").

Section ImportResolver.

(** The world outside the resolver.  [readFile path] is
    [await readFile(path, 'utf-8')]: the text of the file, or the error
    the promise rejects with; the files do not change while a flow is
    being resolved.  [JSON_parse] is [JSON.parse]: the value, or the
    [SyntaxError].  The wording of the [TypeError]s of the engine is left
    open: [in_message v] for ['steps' in v] on a [v] that is not an
    object, [spread_message v] for [...v] on a [v] that is not iterable
    ([None] is [undefined]). *)
Variable readFile : string -> Error + string.
Variable JSON_parse : string -> Error + json.
Variable in_message : json -> string.
Variable spread_message : option json -> string.

Definition TypeError (msg : string) : Error :=
  {| name := "TypeError"; message := msg |}.

(** ['steps' in jsonFile]: a [TypeError] on a primitive; an array has no
    member of that name. *)
Definition has_steps (jsonFile : json) : Error + bool :=
  match jsonFile with
  | JObject members =>
      inr (match get "steps" members with Some _ => true | None => false end)
  | JArray _ => inr false
  | _ => inl (TypeError (in_message jsonFile))
  end.

(** [...v] in an argument list: the elements of an array, the
    characters of a string, a [TypeError] on anything else. *)
Definition spread (v : option json) : Error + list json :=
  match v with
  | Some (JArray elements) => inr elements
  | Some (JString s) =>
      inr (map (fun c => JString (String c EmptyString)) (list_ascii_of_string s))
  | _ => inl (TypeError (spread_message v))
  end.

(** The body of the [try] block (lines 103 to 109): what it appends to
    [steps], or what it throws. *)
Definition read_steps (target : string) : Error + list json :=
  match readFile target with
  | inl error => inl error
  | inr file =>
      match JSON_parse file with
      | inl error => inl error
      | inr jsonFile =>
          match has_steps jsonFile with
          | inl error => inl error
          | inr false => inl (no_steps_Error target)
          | inr true => spread (member "steps" jsonFile)
          end
      end
  end.

(** The [for ... of] loop of [importSteps]; [steps] is the array built
    so far.  [inl] is the error thrown.  The test [step.type != 'import']
    tells the two members of the union apart ([type_tag_import] below),
    so it is a match on the constructor. *)
Fixpoint import_loop (given : list ExtandableStep) (steps : list json)
  : Error + list json :=
  match given with
  | [] => inr steps
  | IsStep s :: rest => import_loop rest (steps ++ [Step_value s])
  | IsImport i :: rest =>
      if (from i =? "file")%string then
        match read_steps (target i) with
        | inr imported => import_loop rest (steps ++ imported)
        | inl error => inl (reading_Error (target i) error)
        end
      else inl (unsupported_Error (from i))
  end.

(** [async function importSteps(givenFlow)]: [{...givenFlow, steps}]. *)
Definition importSteps (givenFlow : ExtandableUserFlow)
  : Error + UserFlow json :=
  match import_loop (steps givenFlow) [] with
  | inr resolved =>
      inr {| title := title givenFlow;
             timeout := timeout givenFlow;
             selectorAttribute := selectorAttribute givenFlow;
             steps := resolved |}
  | inl error => inl error
  end.

(** What replaces one element of the given steps when the flow
    resolves: a step stays, a marker gives way to what its file holds. *)
Definition expansion (step : ExtandableStep) : list json :=
  match step with
  | IsStep s => [Step_value s]
  | IsImport i =>
      match read_steps (target i) with
      | inr imported => imported
      | inl _ => []
      end
  end.

End ImportResolver.

(** ** Small flows and extensions, used to run the model *)

Module Examples.

Definition flow_of (names : list string) : UserFlow string :=
  {| title := "demo"; timeout := None; selectorAttribute := None;
     steps := names |}.

Definition demo : UserFlow string := flow_of ["A"; "B"; "C"]%string.
Definition single : UserFlow string := flow_of ["A"]%string.

(** The backend is a log of what was done to it. *)
Definition note (what : string) (log : list string)
  : settled (list string) string :=
  Fulfilled _ (log ++ [what]).

(** All five members, none of which ever rejects. *)
Definition logging : RunnerExtension string (list string) string :=
  {| beforeAllSteps := Some (fun _ => note "beforeAll");
     beforeEachStep := Some (fun s _ => note ("before " ++ s));
     runStep := fun s _ => note s;
     afterEachStep := Some (fun s _ => note ("after " ++ s));
     afterAllSteps := Some (fun _ => note "afterAll") |}.

(** Only the mandatory member. *)
Definition bare : RunnerExtension string (list string) string :=
  {| beforeAllSteps := None;
     beforeEachStep := None;
     runStep := fun s _ => note s;
     afterEachStep := None;
     afterAllSteps := None |}.

(** Like [logging], but the first attempt at step B rejects. *)
Definition flaky : RunnerExtension string (list string) string :=
  {| beforeAllSteps := Some (fun _ => note "beforeAll");
     beforeEachStep := Some (fun s _ => note ("before " ++ s));
     runStep := fun s _ log =>
       if (s =? "B")%string && negb (existsb (String.eqb "B failed") log)
       then Rejected "B failed"%string (log ++ ["B failed"%string])
       else note s log;
     afterEachStep := Some (fun s _ => note ("after " ++ s));
     afterAllSteps := Some (fun _ => note "afterAll") |}.

(** Like [logging], but [afterAllSteps] rejects the second time it is
    called, and only then. *)
Definition picky : RunnerExtension string (list string) string :=
  {| beforeAllSteps := Some (fun _ => note "beforeAll");
     beforeEachStep := Some (fun s _ => note ("before " ++ s));
     runStep := fun s _ => note s;
     afterEachStep := Some (fun s _ => note ("after " ++ s));
     afterAllSteps := Some (fun _ log =>
       if existsb (String.eqb "afterAll") log
          && negb (existsb (String.eqb "afterAll refused") log)
       then Rejected "afterAll refused"%string
              (log ++ ["afterAll refused"%string])
       else note "afterAll" log) |}.

(** A runner for [f] and [x] with the cursor at [n]. *)
Definition at_cursor (f : UserFlow string)
  (x : RunnerExtension string (list string) string) (n : nat)
  : Runner string (list string) string :=
  {| flow := f; extension := x; nextStep := n |}.

(** The calls for the steps of [demo], and what [logging] writes in the
    log for each. *)
Definition calls_A : list (Call string) :=
  [BeforeEachStep 0 "A"; RunStep 0 "A"; AfterEachStep 0 "A"]%string.
Definition calls_B : list (Call string) :=
  [BeforeEachStep 1 "B"; RunStep 1 "B"; AfterEachStep 1 "B"]%string.
Definition calls_C : list (Call string) :=
  [BeforeEachStep 2 "C"; RunStep 2 "C"; AfterEachStep 2 "C"]%string.

Definition log_A : list string := ["before A"; "A"; "after A"]%string.
Definition log_B : list string := ["before B"; "B"; "after B"]%string.
Definition log_C : list string := ["before C"; "C"; "after C"]%string.

End Examples.

(** ** A small file system, used to run the resolver *)

Module ImportExamples.

Definition quoted (s : string) : string := (dquote ++ s ++ dquote)%string.

(** The file [steps.json]: an object whose [steps] member holds a click
    and a hover. *)
Definition X : json := JObject [("type", JString "click")]%string.
Definition Y : json := JObject [("type", JString "hover")]%string.

Definition steps_json : string :=
  ("{" ++ quoted "steps" ++ ":[{" ++ quoted "type" ++ ":" ++ quoted "click"
   ++ "},{" ++ quoted "type" ++ ":" ++ quoted "hover" ++ "}]}")%string.

(** The file [nested.json]: its [steps] member holds one import marker
    for [steps.json]. *)
Definition nested_marker : json :=
  JObject [("type", JString "import"); ("from", JString "file");
           ("target", JString "steps.json")]%string.

Definition nested_json : string :=
  ("{" ++ quoted "steps" ++ ":[{" ++ quoted "type" ++ ":" ++ quoted "import"
   ++ "," ++ quoted "from" ++ ":" ++ quoted "file"
   ++ "," ++ quoted "target" ++ ":" ++ quoted "steps.json" ++ "}]}")%string.

(** The file [empty.json]: an object with a title and no steps. *)
Definition empty_json : string :=
  ("{" ++ quoted "title" ++ ":" ++ quoted "nothing" ++ "}")%string.

(** The file [broken.json]: not JSON. *)
Definition broken_json : string := ("{" ++ quoted "steps" ++ ":")%string.

Definition readFile (path : string) : Error + string :=
  if (path =? "steps.json")%string then inr steps_json
  else if (path =? "nested.json")%string then inr nested_json
  else if (path =? "empty.json")%string then inr empty_json
  else if (path =? "broken.json")%string then inr broken_json
  else inl {| name := "Error";
              message := "ENOENT: no such file or directory, open '"
                         ++ path ++ "'" |}.

(** [JSON.parse] on the four texts above. *)
Definition JSON_parse (text : string) : Error + json :=
  if (text =? steps_json)%string
  then inr (JObject [("steps"%string, JArray [X; Y])])
  else if (text =? nested_json)%string
  then inr (JObject [("steps"%string, JArray [nested_marker])])
  else if (text =? empty_json)%string
  then inr (JObject [("title", JString "nothing")]%string)
  else inl {| name := "SyntaxError";
              message := "Unexpected end of JSON input" |}.

Definition in_message (v : json) : string :=
  "Cannot use 'in' operator to search for 'steps'".

Definition spread_message (v : option json) : string :=
  "Spread syntax requires ...iterable[Symbol.iterator] to be a function".

Definition resolve : ExtandableUserFlow -> Error + UserFlow json :=
  importSteps readFile JSON_parse in_message spread_message.

Definition A : Step :=
  {| type := navigate; payload := [("url", JString "https://example.com")]%string |}.
Definition B : Step :=
  {| type := close; payload := [] |}.

Definition flow_of (given : list ExtandableStep) : ExtandableUserFlow :=
  {| title := "demo"; timeout := None; selectorAttribute := None;
     steps := given |}.

Definition file_marker (path : string) : ExtandableStep :=
  IsImport {| from := "file"; target := path |}.

Definition url_marker : ExtandableStep :=
  IsImport {| from := "url"; target := "https://example.com/steps.json" |}.

End ImportExamples.

(** ** Building a runner ([createRunner]) *)

(** The object a given element is at run time: a step as [Step_value]
    has it, a marker with its three members. *)
Definition given_value (step : ExtandableStep) : json :=
  match step with
  | IsStep s => Step_value s
  | IsImport i =>
      JObject [("type", JString "import"); ("from", JString (from i));
               ("target", JString (target i))]%string
  end.

(** [flow as UserFlow]: the same object, read at the other type. *)
Definition as_UserFlow (flow : ExtandableUserFlow) : UserFlow json :=
  {| title := title flow;
     timeout := timeout flow;
     selectorAttribute := selectorAttribute flow;
     steps := map given_value (steps flow) |}.

(** The steps [runStep] was called on, in call order. *)
Definition run_steps {Step : Type} (t : list (Call Step)) : list Step :=
  flat_map (fun c => match c with RunStep _ s => [s] | _ => [] end) t.

Section CreateRunner.

Variable readFile : string -> Error + string.
Variable JSON_parse : string -> Error + json.
Variable in_message : json -> string.
Variable spread_message : option json -> string.

(** [B] and [Err] are the backend state and the rejections of the
    extension, as for the runner.  [launch] stands for the block that
    provides an extension when none is given (import puppeteer, launch a
    browser, open a page, wrap both): the extension, or what that block
    throws. *)
Variables (B Err : Type).
Variable launch : Error + RunnerExtension json B Err.

(** [async function createRunner(flow, extension?)]; an omitted
    extension is [None]. *)
Definition createRunner (flow : ExtandableUserFlow)
  (extension : option (RunnerExtension json B Err))
  : Error + Runner json B Err :=
  match (match extension with
         | Some x => inr x
         | None => launch
         end) with
  | inl error => inl error
  | inr x =>
      if existsb (fun step => (type_tag step =? "import")%string) (steps flow)
      then
        match importSteps readFile JSON_parse in_message spread_message flow with
        | inr resolved => inr (new_Runner resolved x)
        | inl error => inl error
        end
      else inr (new_Runner (as_UserFlow flow) x)
  end.

End CreateRunner.

(** ** Command-line helpers ([CLIUtils.ts]) *)

Module CLIUtils.

(** *** [getHeadlessEnvVar] *)

(** [String.prototype.toLowerCase], on strings of code points below 256
    (one [ascii] each): the letters A to Z and the capital letters of
    Latin-1 (192 to 222 but for the multiplication sign, 215) move up
    by 32, nothing else changes. *)
Definition lower (c : ascii) : ascii :=
  let n := nat_of_ascii c in
  if ((65 <=? n) && (n <=? 90))
     || ((192 <=? n) && (n <=? 222) && negb (n =? 215))
  then ascii_of_nat (n + 32)
  else c.

Fixpoint toLowerCase (s : string) : string :=
  match s with
  | EmptyString => EmptyString
  | String c rest => String (lower c) (toLowerCase rest)
  end.

(** What [getHeadlessEnvVar] returns: [boolean | 'chrome']. *)
Inductive Headless : Type :=
| Plain (b : bool)
| Chrome.

(** [function getHeadlessEnvVar(headless?: string)]; an omitted argument
    is [None].  [!headless] holds for it and for the empty string. *)
Definition getHeadlessEnvVar (headless : option string) : Error + Headless :=
  match headless with
  | None => inr (Plain true)
  | Some value =>
      if (value =? "")%string then inr (Plain true)
      else
        let lowered := toLowerCase value in
        if (lowered =? "1")%string || (lowered =? "true")%string
        then inr (Plain true)
        else if (lowered =? "chrome")%string
        then inr Chrome
        else if (lowered =? "0")%string || (lowered =? "false")%string
        then inr (Plain false)
        else inl (new_Error "PUPPETEER_HEADLESS: unrecognized value")
  end.

(** *** [getJSONFilesFromFolder] and [getRecordingPaths] *)

(** One call of [console.error]: the text and, when there is one, the
    error passed after it. *)
Record ConsoleError : Type := mkConsoleError {
  text : string;
  argument : option Error
}.

Section RecordingPaths.

(** The file system and the [path] module.  [lstatSync path] is
    [lstatSync(path).isDirectory()], or the error [lstatSync] throws;
    [readdirSync path] is the names in the folder, or the error thrown;
    [extname] and [join] are the functions of [path].  The file system
    does not change during a call. *)
Variable lstatSync : string -> Error + bool.
Variable readdirSync : string -> Error + list string.
Variable extname : string -> string.
Variable join : string -> string -> string.

(** [function getJSONFilesFromFolder(path)]; nothing catches what
    [readdirSync] throws. *)
Definition getJSONFilesFromFolder (path : string) : Error + list string :=
  match readdirSync path with
  | inl error => inl error
  | inr files =>
      inr (map (fun file => join path file)
             (filter (fun file => (extname file =? ".json")%string) files))
  end.

(** The [for ... of] loop of [getRecordingPaths]: [recordingPaths] is
    the array built so far, [console] what has been written so far. *)
Fixpoint getRecordingPaths_loop (paths : list string) (log : bool)
  (recordingPaths : list string) (console : list ConsoleError)
  : (Error + list string) * list ConsoleError :=
  match paths with
  | [] => (inr recordingPaths, console)
  | path :: rest =>
      match lstatSync path with
      | inl err =>
          getRecordingPaths_loop rest log recordingPaths
            (if log
             then console
                  ++ [{| text := "Couldn't find file/folder: " ++ path;
                         argument := Some err |}]
             else console)
      | inr true =>
          match getJSONFilesFromFolder path with
          | inl error => (inl error, console)
          | inr filesInFolder =>
              getRecordingPaths_loop rest log
                (recordingPaths ++ filesInFolder)
                (if (List.length filesInFolder =? 0) && log
                 then console
                      ++ [{| text := "There is no recordings in: " ++ path;
                             argument := None |}]
                 else console)
          end
      | inr false =>
          getRecordingPaths_loop rest log (recordingPaths ++ [path]) console
      end
  end.

(** [function getRecordingPaths(paths, log = true)]: the paths, or the
    error thrown, and what was written with [console.error]. *)
Definition getRecordingPaths (paths : list string) (log : option bool)
  : (Error + list string) * list ConsoleError :=
  getRecordingPaths_loop paths
    (match log with Some l => l | None => true end) [] [].

End RecordingPaths.

(** *** [StatusReport] *)

(** [Result.success]: [null] while the file waits, [undefined] while it
    runs, a boolean once it is done. *)
Inductive Success : Type :=
| Pending
| Running
| Finished (ok : bool).

(** [type Result].  A [Date] is the number [getTime()] gives. *)
Record Result : Type := mkResult {
  startedAt : Z;
  file : string;
  finishedAt : Z;
  success : Success;
  title : string
}.

(** An entry of [errors].  Of the error only [stack] is read; [None] is
    [undefined].  The error is taken to be an object, so that reading
    its [stack] does not throw. *)
Record Failure : Type := mkFailure {
  stack : option string;
  failed_file : string
}.

(** [class StatusReport]: its fields, but for the two constants
    [#resultTextColor] and [#logUpdate].  A row of the table is the list
    of its cells; the table is an array, [None] being a hole. *)
Record StatusReport : Type := mkStatusReport {
  errors : list Failure;
  table : list (option (list string));
  results_ : option (list Result);
  errorString : string;
  log : bool
}.

(** What is written to the terminal. *)
Inductive Output : Type :=
| LogUpdate (shown : string)
| StdoutWrite (written : string).

(** The world outside: how many times the clock has been read, and
    what has been written. *)
Record World : Type := mkWorld {
  reads : nat;
  written : list Output
}.

(** [a[i] = v] on an array: an index past the end leaves holes. *)
Definition array_set {A} (i : nat) (v : A) (a : list (option A))
  : list (option A) :=
  if i <? List.length a
  then firstn i a ++ Some v :: skipn (S i) a
  else a ++ repeat None (i - List.length a) ++ [Some v].

Section StatusReport.

(** [now n] is what the [n]-th evaluation of [new Date()] gives.  The
    three colours are [colors.white.bgYellow], [.bgGreen] and [.bgRed];
    [error_heading] is [colors.bgRed.white('Error running file:')];
    [relative] is [relative(process.cwd(), file)]; [number_toString] is
    how a template literal prints a number; [table_toString] is the
    [toString] of the table. *)
Variable now : nat -> Z.
Variables bgYellow bgGreen bgRed : string -> string.
Variable error_heading : string.
Variable relative : string -> string.
Variable number_toString : Z -> string.
Variable table_toString : list (option (list string)) -> string.

(** [new Date()] *)
Definition new_Date (w : World) : Z * World :=
  (now (reads w), {| reads := S (reads w); written := written w |}).

Definition write (o : Output) (w : World) : World :=
  {| reads := reads w; written := written w ++ [o] |}.

(** The row the setter builds for one result.  The two times are
    integers, so their difference is never [NaN] and [|| 0] only turns
    0 into 0. *)
Definition row_of (result : Result) : list string :=
  let duration :=
    let d := (finishedAt result - startedAt result)%Z in
    if (d =? 0)%Z then 0%Z else d in
  let status :=
    match success result with
    | Pending => bgYellow " Pending "
    | Running => bgYellow " Running "
    | Finished true => bgGreen " Success "
    | Finished false => bgRed " Failure "
    end in
  [title result; status; relative (file result);
   (number_toString (if (0 <=? duration)%Z then duration else 0%Z)
    ++ "ms")%string].

(** [set results(results)] *)
Definition set_results (this : StatusReport) (results : list Result)
  : StatusReport :=
  {| errors := errors this;
     table :=
       fold_left (fun tbl '(index, result) => array_set index (row_of result) tbl)
         (combine (seq 0 (List.length results)) results) (table this);
     results_ := Some results;
     errorString := errorString this;
     log := log this |}.

(** [get results()] *)
Definition get_results (this : StatusReport) : list Result :=
  match results_ this with
  | Some results => results
  | None => []
  end.

(** [files.map(file => ({ title: '', startedAt: new Date(),
    finishedAt: new Date(), file, success: null }))] *)
Fixpoint initial_results (files : list string) (w : World)
  : list Result * World :=
  match files with
  | [] => ([], w)
  | f :: rest =>
      let (started, w1) := new_Date w in
      let (finished, w2) := new_Date w1 in
      let (results, w3) := initial_results rest w2 in
      ({| startedAt := started; file := f; finishedAt := finished;
          success := Pending; title := "" |} :: results, w3)
  end.

(** [constructor(files, log = false)] *)
Definition new_StatusReport (files : list string) (log : option bool)
  (w : World) : StatusReport * World :=
  let this :=
    {| errors := []; table := []; results_ := None; errorString := "";
       log := match log with Some l => l | None => false end |} in
  let (results, w1) := initial_results files w in
  (set_results this results, w1).

(** The text [#drawTable] adds for one entry of [errors]. *)
Definition error_text (f : Failure) : string :=
  (error_heading ++ " " ++ failed_file f ++ newline
   ++ match stack f with Some s => s | None => "undefined" end
   ++ newline ++ newline)%string.

(** [#drawTable()] *)
Definition drawTable (this : StatusReport) (w : World)
  : StatusReport * World :=
  let this1 :=
    match errors this with
    | [] => this
    | errorObjects =>
        {| errors := [];
           table := table this;
           results_ := results_ this;
           errorString :=
             fold_left (fun text f => (text ++ error_text f)%string)
               errorObjects (errorString this);
           log := log this |}
    end in
  let w1 := write (LogUpdate (table_toString (table this1))) w in
  if forallb (fun result => match success result with
                            | Finished _ => true
                            | _ => false
                            end) (get_results this1)
  then (this1, write (StdoutWrite (errorString this1)) w1)
  else (this1, w1).

(** The argument [{ index, key, value }] of [update], [key] and [value]
    together: the member to set and what to set it to.  The value has
    the type of the member, as in every call of [update] in this file;
    [value: any] allows others, and with one of them (a number for
    [startedAt], say) the setter throws after it has stored the results,
    which this type leaves out. *)
Inductive Change : Type :=
| set_startedAt (value : Z)
| set_file (value : string)
| set_finishedAt (value : Z)
| set_success (value : Success)
| set_title (value : string).

(** [{ ...result, [key]: value }] *)
Definition with_change (result : Result) (edit : Change) : Result :=
  match edit with
  | set_startedAt v =>
      {| startedAt := v; file := file result; finishedAt := finishedAt result;
         success := success result; title := title result |}
  | set_file v =>
      {| startedAt := startedAt result; file := v;
         finishedAt := finishedAt result;
         success := success result; title := title result |}
  | set_finishedAt v =>
      {| startedAt := startedAt result; file := file result; finishedAt := v;
         success := success result; title := title result |}
  | set_success v =>
      {| startedAt := startedAt result; file := file result;
         finishedAt := finishedAt result;
         success := v; title := title result |}
  | set_title v =>
      {| startedAt := startedAt result; file := file result;
         finishedAt := finishedAt result;
         success := success result; title := v |}
  end.

Definition is_file (edit : Change) : bool :=
  match edit with set_file _ => true | _ => false end.

(** [this.results[index]], [undefined] being [None]. *)
Definition at_index {A} (l : list A) (index : Z) : option A :=
  if (index <? 0)%Z then None else nth_error l (Z.to_nat index).

(** [async update({ index, key, value })], for an integer [index].  The
    object literal is evaluated member by member: the result, the
    edit, for the key [file] a new [startedAt] and
    [success: undefined], and last [finishedAt: new Date()].  The clock
    is read whether or not [index] is the index of a result. *)
Definition update (this : StatusReport) (index : Z) (edit : Change)
  (w : World) : StatusReport * World :=
  let result := at_index (get_results this) index in
  let changed := option_map (fun r => with_change r edit) result in
  let (restarted, w1) :=
    if is_file edit
    then
      let (started, w1) := new_Date w in
      (option_map (fun r => {| startedAt := started; file := file r;
                               finishedAt := finishedAt r;
                               success := Running; title := title r |})
                  changed, w1)
    else (changed, w) in
  let (finished, w2) := new_Date w1 in
  let modifiedResult :=
    option_map (fun r => {| startedAt := startedAt r; file := file r;
                            finishedAt := finished;
                            success := success r; title := title r |})
               restarted in
  let this1 :=
    set_results this
      (map (fun '(i, result) =>
              if negb (index =? Z.of_nat i)%Z then result
              else match modifiedResult with
                   | Some modified => modified
                   | None => result
                   end)
         (combine (seq 0 (List.length (get_results this))) (get_results this))) in
  if log this1 then drawTable this1 w2 else (this1, w2).

(** [statusReport.errors.push({ error, file })], as [runFiles] does. *)
Definition push_error (this : StatusReport) (f : Failure) : StatusReport :=
  {| errors := errors this ++ [f];
     table := table this;
     results_ := results_ this;
     errorString := errorString this;
     log := log this |}.

(** What is done to a report after it is built. *)
Inductive Action : Type :=
| do_update (index : Z) (edit : Change)
| do_push_error (f : Failure).

Fixpoint perform_all (actions : list Action) (this : StatusReport) (w : World)
  : StatusReport * World :=
  match actions with
  | [] => (this, w)
  | do_update index edit :: rest =>
      let (this1, w1) := update this index edit w in
      perform_all rest this1 w1
  | do_push_error f :: rest => perform_all rest (push_error this f) w
  end.

(** *** [runFiles] *)

(** The argument [opts]. *)
Record Options : Type := mkOptions {
  opts_log : bool;
  opts_headless : Headless;
  opts_extension : option string
}.

(** The default value of [opts]. *)
Definition default_opts : Options :=
  {| opts_log := false; opts_headless := Plain true; opts_extension := None |}.

(** [Value] is what a promise of the outside world rejects with and
    what its code throws; of such a value only [stack] is ever read. *)
Variable Value : Type.
Variable stack_of : Value -> option string.

(** How the [try] block goes for one file.  It reads and parses the
    file, stores and reports the title of the recording, launches a
    browser and assigns it to [browser], then opens a page, builds the
    extension, creates the runner and runs it.  So it throws before the
    title is known, or with the title known and no browser assigned, or
    after a browser has been assigned, or it does not throw. *)
Inductive Attempt : Type :=
| unreadable (error : Value)
| unlaunched (recording_title : string) (error : Value)
| failed (recording_title : string) (error : Value)
| passed (recording_title : string).

(** The outside world: the dynamic import of the extension module
    ([None] when it fulfils), the [try] block for the file at an index,
    and [browser.close()] in the [finally] block of that iteration
    ([None] when it fulfils). *)
Variable import_extension : string -> option Value.
Variable attempt : Options -> nat -> string -> Attempt.
Variable close : nat -> option Value.

(** The variables of [runFiles] that outlive an iteration: whether
    [browser] has been assigned, [results], and the report, with the
    world. *)
Record Batch : Type := mkBatch {
  browser : bool;
  results : list Result;
  statusReport : StatusReport;
  world : World
}.

(** The [catch] block. *)
Definition catch (index : nat) (f : string) (result : Result) (error : Value)
  (report : StatusReport) (w : World) : Result * (StatusReport * World) :=
  ({| startedAt := startedAt result; file := file result;
      finishedAt := finishedAt result; success := Finished false;
      title := title result |},
   update (push_error report {| stack := stack_of error; failed_file := f |})
     (Z.of_nat index) (set_success (Finished false)) w).

(** [result.title = recording.title; statusReport.update({ index, key:
    'title', value: result.title })] *)
Definition titled (index : nat) (t : string) (result : Result)
  (report : StatusReport) (w : World) : Result * (StatusReport * World) :=
  ({| startedAt := startedAt result; file := file result;
      finishedAt := finishedAt result; success := success result;
      title := t |},
   update report (Z.of_nat index) (set_title t) w).

(** One iteration of the loop over [files.entries()].  [update] is not
    awaited, but its body has no [await], so it is done when the call
    returns.  The iteration gives [Some v] when [browser.close()]
    rejects with [v], which ends [runFiles]. *)
Definition runFiles_iteration (opts : Options) (index : nat) (f : string)
  (s : Batch) : option Value * Batch :=
  let (started, w1) := new_Date (world s) in
  let (finished, w2) := new_Date w1 in
  let result :=
    {| startedAt := started; file := f; finishedAt := finished;
       success := Finished true; title := "" |} in
  let (report1, w3) := update (statusReport s) (Z.of_nat index) (set_file f) w2 in
  let '((result1, (report2, w4)), launched) :=
    match attempt opts index f with
    | unreadable error =>
        (catch index f result error report1 w3, false)
    | unlaunched t error =>
        let '(result, (report, w)) := titled index t result report1 w3 in
        (catch index f result error report w, false)
    | failed t error =>
        let '(result, (report, w)) := titled index t result report1 w3 in
        (catch index f result error report w, true)
    | passed t =>
        let '(result, (report, w)) := titled index t result report1 w3 in
        ((result, update report (Z.of_nat index) (set_success (Finished true)) w),
         true)
    end in
  let (finished1, w5) := new_Date w4 in
  let s1 :=
    {| browser := browser s || launched;
       results :=
         results s
         ++ [{| startedAt := startedAt result1; file := file result1;
                finishedAt := finished1; success := success result1;
                title := title result1 |}];
       statusReport := report2;
       world := w5 |} in
  (if browser s1 then close index else None, s1).

Fixpoint runFiles_loop (opts : Options) (index : nat) (files : list string)
  (s : Batch) : option Value * Batch :=
  match files with
  | [] => (None, s)
  | f :: rest =>
      match runFiles_iteration opts index f s with
      | (Some v, s1) => (Some v, s1)
      | (None, s1) => runFiles_loop opts (S index) rest s1
      end
  end.

(** [async runFiles(files, opts)]: it is rejected with a value of the
    outside world or with the error of its last line, or fulfilled. *)
Definition runFiles (files : list string) (opts : option Options) (w : World)
  : (Value + Error + unit) * Batch :=
  let opts := match opts with Some o => o | None => default_opts end in
  let (report, w1) := new_StatusReport files (Some (opts_log opts)) w in
  let s := {| browser := false; results := []; statusReport := report;
              world := w1 |} in
  match
    match opts_extension opts with
    | Some (String _ _ as path) => import_extension path
    | _ => None
    end
  with
  | Some v => (inl (inl v), s)
  | None =>
      match runFiles_loop opts 0 files s with
      | (Some v, s1) => (inl (inl v), s1)
      | (None, s1) =>
          if forallb (fun result => match success result with
                                    | Finished true => true
                                    | _ => false
                                    end) (results s1)
          then (inr tt, s1)
          else (inl (inr (new_Error "Some recordings have failed to run.")), s1)
      end
  end.

(** What an attempt leaves to report. *)
Definition is_passed (a : Attempt) : bool :=
  match a with passed _ => true | _ => false end.

Definition launched (a : Attempt) : bool :=
  match a with failed _ _ | passed _ => true | _ => false end.

Definition title_of (a : Attempt) : string :=
  match a with
  | unreadable _ => ""
  | unlaunched t _ | failed t _ | passed t => t
  end.

Definition failure_of (f : string) (a : Attempt) : list Failure :=
  match a with
  | unreadable e | unlaunched _ e | failed _ e =>
      [{| stack := stack_of e; failed_file := f |}]
  | passed _ => []
  end.

(** What a result shows of a file: its path, the title and the status. *)
Definition shown (r : Result) : string * string * Success :=
  (file r, title r, success r).

Definition outcome_of (opts : Options) (index : nat) (f : string)
  : string * string * Success :=
  (f, title_of (attempt opts index f),
   Finished (is_passed (attempt opts index f))).

(** The files of a list with their indices, counted from [index]. *)
Definition entries_from (index : nat) (files : list string)
  : list (nat * string) :=
  combine (seq index (List.length files)) files.

(** The entries pushed to [errors] for the files that fail. *)
Definition failures (opts : Options) (index : nat) (files : list string)
  : list Failure :=
  flat_map (fun '(i, f) => failure_of f (attempt opts i f))
    (entries_from index files).

(** A report built for [files] and then acted on. *)
Definition report_after (files : list string) (log : option bool)
  (actions : list Action) (w : World) : StatusReport * World :=
  let (this, w1) := new_StatusReport files log w in
  perform_all actions this w1.

(** The entries pushed to [errors], in order, and their text. *)
Definition pushed (actions : list Action) : list Failure :=
  flat_map (fun a => match a with
                     | do_push_error f => [f]
                     | do_update _ _ => []
                     end) actions.

Definition error_texts (l : list Failure) : string :=
  fold_right (fun f text => (error_text f ++ text)%string) ""%string l.

(** [createStatusReport(results)]: the table is built by [push], one
    row per result.  A result counts as a success only if [success] is
    [true], and the duration is printed as it is. *)
Definition createStatusReport (results : list Result)
  : list (option (list string)) :=
  fold_left
    (fun table result =>
       let duration :=
         let d := (finishedAt result - startedAt result)%Z in
         if (d =? 0)%Z then 0%Z else d in
       let status :=
         match success result with
         | Finished true => bgGreen " Success "
         | _ => bgRed " Failure "
         end in
       table ++ [Some [title result; status; relative (file result);
                       (number_toString duration ++ "ms")%string]])
    results [].

End StatusReport.

Arguments passed {Value} recording_title.

End CLIUtils.

(** ** The abortable runner

    [src/unnamed/part_000] holds an earlier [Runner.ts]: its [Runner]
    keeps no cursor, every [run] starts at the first step, and [abort]
    stops a run between two steps. *)

Module Abortable.

Section AbortableRunner.

Variables (Step B Err : Type).

#[local] Abbreviation Call := (Call Step).
#[local] Abbreviation settled := (settled B Err).
#[local] Abbreviation completion := (completion Err).
#[local] Abbreviation with_cursor := (@new_Runner Step B Err).
#[local] Abbreviation StepRunner := (Runner Step B Err).

(** [class Runner]: the three private fields. *)
Record Runner : Type := mkRunner {
  flow : UserFlow Step;
  extension : RunnerExtension Step B Err;
  aborted : bool
}.

(** [constructor(flow, extension)]; [#aborted = false]. *)
Definition new_Runner (f : UserFlow Step) (x : RunnerExtension Step B Err)
  : Runner :=
  {| flow := f; extension := x; aborted := false |}.

(** [abort()] *)
Definition abort (r : Runner) : Runner :=
  {| flow := flow r; extension := extension r; aborted := true |}.

(** While [run] waits at an [await], whoever holds the runner may call
    [abort]: [aborting c b] tells whether that happens at the [await]
    of the call [c], reached in the state [b] of the backend. *)
Variable aborting : Call -> B -> bool.

(** The monad of the [async] body of [run]: as [M], over this runner. *)
Definition M (A : Type) : Type :=
  Runner * B -> completion A * (Runner * B) * list Call.

Definition ret {A} (a : A) : M A := fun w => (Return a, w, []).

Definition bind {A C} (m : M A) (k : A -> M C) : M C := fun w =>
  match m w with
  | (Return a, w1, t1) =>
      match k a w1 with (res, w2, t2) => (res, w2, t1 ++ t2) end
  | (Throw e, w1, t1) => (Throw e, w1, t1)
  end.

Notation "x <- m ;; k" := (bind m (fun x => k))
  (at level 61, m at next level, right associativity).
Notation "m ;; k" := (bind m (fun _ => k))
  (at level 61, right associativity).

(** [this] inside a method. *)
Definition get_this : M Runner := fun w => (Return (fst w), w, []).

(** [this.#aborted = false] *)
Definition reset_aborted : M unit := fun w =>
  (Return tt,
   ({| flow := flow (fst w); extension := extension (fst w); aborted := false |},
    snd w),
   []).

(** The runner when the body resumes after the [await] of [c], reached
    in state [b]. *)
Definition pending (c : Call) (b : B) (this : Runner) : Runner :=
  if aborting c b then abort this else this.

(** [await p]: the call is made, [abort] may be called while it is
    pending, and the body resumes once the promise has settled; a
    rejection is thrown. *)
Definition await (c : Call) (p : B -> settled) : M unit := fun w =>
  match p (snd w) with
  | Fulfilled _ b => (Return tt, (pending c (snd w) (fst w), b), [c])
  | Rejected e b => (Throw e, (pending c (snd w) (fst w), b), [c])
  end.

(** [await ext.hook?.(args)]: when the member is absent no call is made
    and the backend stays as it is, but the body still waits for a
    turn, during which [abort] may be called; [c] names that point. *)
Definition await_opt {X} (h : option X) (c : Call) (app : X -> B -> settled)
  : M unit :=
  match h with
  | Some f => await c (app f)
  | None => fun w => (Return tt, (pending c (snd w) (fst w), snd w), [])
  end.

(** The [while] loop of [run], from the value of [nextStepIndex]; it
    gives the value the variable has when the loop is left.  Every
    iteration increments the variable and the test requires it below
    [steps.length], so [steps.length] iterations are enough. *)
Fixpoint run_loop (fuel : nat) (nextStepIndex : nat) : M nat :=
  match fuel with
  | 0 => ret nextStepIndex
  | S fuel' =>
      this <- get_this ;;
      if (nextStepIndex <? List.length (steps (flow this)))
         && negb (aborted this)
      then
        match nth_error (steps (flow this)) nextStepIndex with
        | Some nextStep =>
            let x := extension this in
            await_opt (beforeEachStep x) (BeforeEachStep nextStepIndex nextStep)
                      (fun h => h nextStep (flow this)) ;;
            await (RunStep nextStepIndex nextStep)
                  (runStep x nextStep (flow this)) ;;
            await_opt (afterEachStep x) (AfterEachStep nextStepIndex nextStep)
                      (fun h => h nextStep (flow this)) ;;
            run_loop fuel' (S nextStepIndex)
        | None => ret nextStepIndex
        end
      else ret nextStepIndex
  end.

(** [async run(): Promise<boolean>] *)
Definition run : M bool :=
  reset_aborted ;;
  this <- get_this ;;
  await_opt (beforeAllSteps (extension this)) BeforeAllSteps
            (fun h => h (flow this)) ;;
  nextStepIndex <- run_loop (List.length (steps (flow this))) 0 ;;
  await_opt (afterAllSteps (extension this)) AfterAllSteps
            (fun h => h (flow this)) ;;
  ret (List.length (steps (flow this)) <=? nextStepIndex).

(** The runner of [src/Runner.ts] on the same flow and extension: the
    calls of an iteration of the loop are the same for both. *)
Definition resumable (r : Runner) : StepRunner := with_cursor (flow r) (extension r).

(** The calls of the iterations for the [n] steps from index [c] on,
    all of them succeeding. *)
Definition iterations (r : Runner) (c n : nat) : list Call :=
  calls_between (resumable r) c n.

End AbortableRunner.

Arguments new_Runner {Step B Err} f x.
Arguments abort {Step B Err} r.
Arguments pending {Step B Err} aborting c b this.
Arguments run_loop {Step B Err} aborting fuel nextStepIndex.
Arguments run {Step B Err} aborting.
Arguments resumable {Step B Err} r.
Arguments iterations {Step B Err} r c n.

End Abortable.

(** ** More files, a backend for resolved flows *)

Module OddFiles.

Import ImportExamples.

(** The file [text.json]: its [steps] member is a string.  The file
    [flag.json]: its [steps] member is [true]. *)
Definition text_json : string :=
  ("{" ++ quoted "steps" ++ ":" ++ quoted "ab" ++ "}")%string.

Definition flag_json : string :=
  ("{" ++ quoted "steps" ++ ":true}")%string.

Definition readFile (path : string) : Error + string :=
  if (path =? "text.json")%string then inr text_json
  else if (path =? "flag.json")%string then inr flag_json
  else inl {| name := "Error";
              message := "ENOENT: no such file or directory, open '"
                         ++ path ++ "'" |}.

Definition JSON_parse (text : string) : Error + json :=
  if (text =? text_json)%string
  then inr (JObject [("steps", JString "ab")]%string)
  else if (text =? flag_json)%string
  then inr (JObject [("steps"%string, JBool true)])
  else inl {| name := "SyntaxError";
              message := "Unexpected end of JSON input" |}.

(** A backend that counts the steps it has run, with no hook. *)
Definition counting : RunnerExtension json nat string :=
  {| beforeAllSteps := None;
     beforeEachStep := None;
     runStep := fun _ _ n => Fulfilled _ (S n);
     afterEachStep := None;
     afterAllSteps := None |}.

(** No browser can be launched. *)
Definition launch : Error + RunnerExtension json nat string :=
  inl (new_Error "Could not find Chromium").

(** A flow with a step, an import of [steps.json] and another step, and
    the flow it resolves to. *)
Definition given : ExtandableUserFlow :=
  flow_of [IsStep A; file_marker "steps.json"; IsStep B].

Definition resolved : UserFlow json :=
  {| title := "demo"; timeout := None; selectorAttribute := None;
     steps := [Step_value A; X; Y; Step_value B] |}.

End OddFiles.

(** ** A small folder, a clock and a batch of recordings *)

Module CLIExamples.

Import CLIUtils.

(** The folder [recordings] holds [a.json] and [notes.txt]; [one.json]
    is a file; nothing else exists. *)
Definition enoent (path : string) : Error :=
  new_Error ("ENOENT: no such file or directory, lstat '" ++ path ++ "'").

Definition lstatSync (path : string) : Error + bool :=
  if (path =? "recordings")%string then inr true
  else if (path =? "one.json")%string then inr false
  else inl (enoent path).

Definition readdirSync (path : string) : Error + list string :=
  if (path =? "recordings")%string then inr ["a.json"; "notes.txt"]%string
  else inl (new_Error ("ENOTDIR: not a directory, scandir '" ++ path ++ "'")).

Definition extname (f : string) : string :=
  if (f =? "a.json")%string || (f =? "one.json")%string then ".json"%string
  else if (f =? "notes.txt")%string then ".txt"%string
  else EmptyString.

Definition join (folder f : string) : string := (folder ++ "/" ++ f)%string.

(** A clock that advances by one at every reading, colours that mark
    the text, and a table printed row by row. *)
Definition now (n : nat) : Z := Z.of_nat n.

Definition bgYellow (s : string) : string := ("[yellow]" ++ s)%string.
Definition bgGreen (s : string) : string := ("[green]" ++ s)%string.
Definition bgRed (s : string) : string := ("[red]" ++ s)%string.
Definition error_heading : string := bgRed "Error running file:"%string.
Definition relative (path : string) : string := path.

(** Durations below ten are printed as they are. *)
Definition number_toString (n : Z) : string :=
  if (0 <=? n)%Z && (n <? 10)%Z
  then String (ascii_of_nat (48 + Z.to_nat n)) EmptyString
  else "many"%string.

Definition table_toString (table : list (option (list string))) : string :=
  String.concat newline
    (map (fun row => match row with
                     | Some cells => String.concat " | "%string cells
                     | None => EmptyString
                     end) table).

Definition start : World := {| reads := 0; written := [] |}.

(** A report for one file, and its only result. *)
Definition one_report : StatusReport :=
  fst (new_StatusReport now bgYellow bgGreen bgRed relative number_toString
         ["a.json"%string] None start).

Definition one_result : Result :=
  {| startedAt := 0; file := "a.json"; finishedAt := 1; success := Pending;
     title := EmptyString |}.

(** A batch in which [good.json] passes and every other file cannot be
    read; values thrown are strings, their own stack. *)
Definition stack_of (v : string) : option string := Some v.

Definition import_extension (path : string) : option string := None.

Definition attempt (opts : Options) (index : nat) (f : string) : Attempt string :=
  if (f =? "good.json")%string then passed "Good"%string
  else unreadable ("ENOENT: " ++ f)%string.

Definition close_ok (index : nat) : option string := None.

(** The first [close] rejects. *)
Definition close_crashes (index : nat) : option string :=
  if index =? 0 then Some "Target closed"%string else None.

Definition quiet : Options :=
  {| opts_log := false; opts_headless := Plain true; opts_extension := None |}.

End CLIExamples.

(** ** Calls of [abort] *)

Module AbortableExamples.

(** Nobody aborts; [abort] is called while step B runs. *)
Definition never (c : Call string) (b : list string) : bool := false.

Definition during_B (c : Call string) (b : list string) : bool :=
  match c with
  | RunStep 1 _ => true
  | _ => false
  end.

End AbortableExamples.

(** * Properties of the step runner *)

Unset Implicit Arguments.

Section RunnerFacts.

Context {Step B Err : Type}.
#[local] Abbreviation Runner := (Runner Step B Err).
#[local] Abbreviation Call := (Call Step).

Implicit Types (r : Runner) (b : B) (t : list Call) (stepIdx : option Z).

(** *** The monad *)

Lemma preceded_by_nil {A} (o : completion Err A * (Runner * B) * list Call) :
  preceded_by [] o = o.
Proof. now destruct o as [[? ?] ?]. Qed.

Lemma preceded_by_app {A} t1 t2
  (o : completion Err A * (Runner * B) * list Call) :
  preceded_by t1 (preceded_by t2 o) = preceded_by (t1 ++ t2) o.
Proof. destruct o as [[? ?] ?]. cbn. now rewrite app_assoc. Qed.

Lemma bind_get_this {C} (k : Runner -> M Step B Err C) w :
  bind get_this k w = k (fst w) w.
Proof. unfold bind, get_this. apply preceded_by_nil. Qed.

Lemma bind_ret {A C} (a : A) (k : A -> M Step B Err C) w :
  bind (ret a) k w = k a w.
Proof. unfold bind, ret. apply preceded_by_nil. Qed.

Lemma bind_incr {C} (k : unit -> M Step B Err C) r b :
  bind incr_nextStep k (r, b)
  = k tt ({| flow := flow r; extension := extension r;
             nextStep := S (nextStep r) |}, b).
Proof. unfold bind, incr_nextStep. apply preceded_by_nil. Qed.

Lemma bind_await_Fulfilled {C} c (p : B -> settled B Err)
  (k : unit -> M Step B Err C) r b b1 :
  p b = Fulfilled _ b1 ->
  bind (await c p) k (r, b) = preceded_by [c] (k tt (r, b1)).
Proof. intros H. unfold bind, await. cbn. now rewrite H. Qed.

Lemma bind_await_Rejected {C} c (p : B -> settled B Err)
  (k : unit -> M Step B Err C) r b e b1 :
  p b = Rejected e b1 ->
  bind (await c p) k (r, b) = (Throw e, (r, b1), [c]).
Proof. intros H. unfold bind, await. cbn. now rewrite H. Qed.

(** *** Lists of calls *)

Lemma calls_between_S r c n :
  calls_between r c (S n) = calls_at r c ++ calls_between r (S c) n.
Proof. reflexivity. Qed.

Lemma replay_app r t1 t2 b :
  replay r (t1 ++ t2) b = replay r t2 (replay r t1 b).
Proof. apply fold_left_app. Qed.


Lemma calls_at_same r r' i :
  flow r' = flow r -> extension r' = extension r -> calls_at r' i = calls_at r i.
Proof. intros Hf Hx. unfold calls_at, step_calls. now rewrite Hf, Hx. Qed.

Lemma perform_same r r' c b :
  flow r' = flow r -> extension r' = extension r -> perform r' c b = perform r c b.
Proof. intros Hf Hx. unfold perform, outcome. now rewrite Hf, Hx. Qed.

Lemma replay_same r r' t b :
  flow r' = flow r -> extension r' = extension r -> replay r' t b = replay r t b.
Proof.
  intros Hf Hx. revert b. induction t as [|c t IH]; intros b; cbn.
  - reflexivity.
  - rewrite (perform_same r r' c b Hf Hx). apply IH.
Qed.

#[local] Ltac settle_calls :=
  unfold step_calls, opt_call, replay, perform, outcome, state_of; cbn;
  repeat match goal with
         | H : _ = _ |- _ => rewrite H; cbn
         end;
  try reflexivity; try discriminate.

(** One iteration of the loop followed by [k]: either one of its calls
    rejects, after a non-empty part of the calls of the step, or all the
    calls of the step are made, the cursor moves and [k] runs. *)
Lemma iteration_then (k : M Step B Err unit) r b step :
  let body :=
    bind (await_opt (beforeEachStep (extension r))
            (BeforeEachStep (nextStep r) step) (fun h => h step (flow r)))
      (fun _ => bind (await (RunStep (nextStep r) step)
                        (runStep (extension r) step (flow r)))
      (fun _ => bind (await_opt (afterEachStep (extension r))
                        (AfterEachStep (nextStep r) step) (fun h => h step (flow r)))
      (fun _ => bind incr_nextStep (fun _ => k)))) in
  (exists e p q,
      step_calls r (nextStep r) step = p ++ q /\ p <> []
      /\ body (r, b) = (Throw e, (r, replay r p b), p))
  \/ body (r, b) =
       preceded_by (step_calls r (nextStep r) step)
         (k ({| flow := flow r; extension := extension r;
                nextStep := S (nextStep r) |},
             replay r (step_calls r (nextStep r) step) b)).
Proof.
  intros body. subst body. unfold await_opt.
  destruct (beforeEachStep (extension r)) as [hb|] eqn:Hb.
  - destruct (hb step (flow r) b) as [b1|e b1] eqn:E1.
    + rewrite (bind_await_Fulfilled _ _ _ _ _ _ E1).
      destruct (runStep (extension r) step (flow r) b1) as [b2|e b2] eqn:E2.
      * rewrite (bind_await_Fulfilled _ _ _ _ _ _ E2).
        destruct (afterEachStep (extension r)) as [ha|] eqn:Ha.
        -- destruct (ha step (flow r) b2) as [b3|e b3] eqn:E3.
           ++ rewrite (bind_await_Fulfilled _ _ _ _ _ _ E3), bind_incr.
              right. rewrite !preceded_by_app. settle_calls.
           ++ rewrite (bind_await_Rejected _ _ _ _ _ _ _ E3).
              left. eexists e, _, []. rewrite app_nil_r.
              repeat split; settle_calls.
        -- rewrite bind_ret, bind_incr.
           right. rewrite !preceded_by_app. settle_calls.
      * rewrite (bind_await_Rejected _ _ _ _ _ _ _ E2).
        left. exists e, [BeforeEachStep (nextStep r) step; RunStep (nextStep r) step].
        eexists. repeat split; settle_calls.
    + rewrite (bind_await_Rejected _ _ _ _ _ _ _ E1).
      left. exists e, [BeforeEachStep (nextStep r) step].
      eexists. repeat split; settle_calls.
  - rewrite bind_ret.
    destruct (runStep (extension r) step (flow r) b) as [b2|e b2] eqn:E2.
    + rewrite (bind_await_Fulfilled _ _ _ _ _ _ E2).
      destruct (afterEachStep (extension r)) as [ha|] eqn:Ha.
      * destruct (ha step (flow r) b2) as [b3|e b3] eqn:E3.
        -- rewrite (bind_await_Fulfilled _ _ _ _ _ _ E3), bind_incr.
           right. rewrite !preceded_by_app. settle_calls.
        -- rewrite (bind_await_Rejected _ _ _ _ _ _ _ E3).
           left. eexists e, _, []. rewrite app_nil_r.
           repeat split; settle_calls.
      * rewrite bind_ret, bind_incr.
        right. settle_calls.
    + rewrite (bind_await_Rejected _ _ _ _ _ _ _ E2).
      left. exists e, [RunStep (nextStep r) step].
      eexists. repeat split; settle_calls.
Qed.


Lemma loop_end_le r stepIdx : nextStep r <= loop_end r stepIdx.
Proof. unfold loop_end. destruct stepIdx; lia. Qed.

(** The loop: it changes neither the flow nor the extension; when it is
    left normally the cursor is at [loop_end] and the calls of every
    step in between were made; when it throws, the cursor is on the step
    whose call rejected. *)
Lemma run_loop_spec fuel idx r b :
  List.length (steps (flow r)) - nextStep r <= fuel ->
  forall res r' b' t, run_loop fuel idx (r, b) = (res, (r', b'), t) ->
    flow r' = flow r /\ extension r' = extension r /\ b' = replay r t b /\
    match res with
    | Return _ =>
        nextStep r' = loop_end r (Some idx)
        /\ t = calls_between r (nextStep r) (loop_end r (Some idx) - nextStep r)
    | Throw _ =>
        exists p q,
          nextStep r <= nextStep r' < loop_end r (Some idx)
          /\ calls_at r (nextStep r') = p ++ q /\ p <> []
          /\ t = calls_between r (nextStep r) (nextStep r' - nextStep r) ++ p
    end.
Proof.
  revert r b. induction fuel as [|fuel IH]; intros r b Hfuel res r' b' t Hrun.
  - cbn in Hrun. injection Hrun as <- <- <- <-.
    unfold loop_end; cbv zeta. replace (Nat.max _ _ - _) with 0 by lia.
    repeat split; try reflexivity. lia.
  - cbn [run_loop] in Hrun. rewrite bind_get_this in Hrun. cbn [fst] in Hrun.
    destruct ((Z.of_nat (nextStep r) <? idx)%Z
              && (nextStep r <? List.length (steps (flow r)))) eqn:Htest.
    + apply andb_true_iff in Htest as [Hidx Hlen].
      apply Z.ltb_lt in Hidx. apply Nat.ltb_lt in Hlen.
      destruct (nth_error (steps (flow r)) (nextStep r)) as [step|] eqn:Hnth.
      2:{ apply nth_error_None in Hnth. lia. }
      assert (Hat : calls_at r (nextStep r) = step_calls r (nextStep r) step)
        by (unfold calls_at; now rewrite Hnth).
      destruct (iteration_then (run_loop fuel idx) r b step)
        as [(e & p & q & Hpq & Hp & Hbody) | Hbody];
        cbv zeta in Hbody; rewrite Hbody in Hrun; clear Hbody.
      * injection Hrun as <- <- <- <-.
        repeat split; try reflexivity.
        exists p, q. rewrite Nat.sub_diag, Hat.
        split; [unfold loop_end; cbv zeta; lia|]. auto.
      * set (r1 := {| flow := flow r; extension := extension r;
                      nextStep := S (nextStep r) |}) in *.
        set (b1 := replay r (step_calls r (nextStep r) step) b) in *.
        destruct (run_loop fuel idx (r1, b1)) as [[res1 [r2 b2]] t1] eqn:Hrest.
        cbn in Hrun. injection Hrun as <- <- <- <-.
        apply IH in Hrest; [|unfold r1; cbn [flow nextStep]; lia].
        destruct Hrest as (Hf & Hx & Hb & Hres).
        unfold r1 in Hf, Hx, Hb, Hres; cbn [flow extension nextStep] in Hf, Hx, Hb, Hres.
        fold r1 in Hb, Hres.
        assert (Hend : loop_end r1 (Some idx) = loop_end r (Some idx))
          by (unfold loop_end, r1; cbn [flow nextStep]; lia).
        assert (Hn1 : nextStep r1 = S (nextStep r)) by reflexivity.
        assert (Hcb : forall n, calls_between r1 (S (nextStep r)) n
                                = calls_between r (S (nextStep r)) n).
        { intros n. unfold calls_between. apply flat_map_ext.
          intros i. now apply calls_at_same. }
        repeat split; auto.
        -- rewrite replay_app. rewrite Hb. now apply replay_same.
        -- destruct res1 as [[]|e].
           ++ destruct Hres as [Hn Ht]. rewrite Hend in *.
              split; [assumption|]. rewrite Ht, Hcb, <- Hat.
              replace (loop_end r (Some idx) - nextStep r)
                with (S (loop_end r (Some idx) - S (nextStep r)))
                by (unfold loop_end; cbv zeta; lia).
              reflexivity.
           ++ destruct Hres as (p & q & Hj & Hpq & Hp & Ht).
              rewrite Hend in Hj.
              exists p, q.
              split; [lia|]. split; [exact Hpq|]. split; [exact Hp|].
              rewrite Ht, Hcb, <- Hat, app_assoc.
              replace (nextStep r2 - nextStep r)
                with (S (nextStep r2 - S (nextStep r))) by lia.
              reflexivity.
    + rewrite bind_ret in Hrun || idtac. cbn in Hrun.
      injection Hrun as <- <- <- <-.
      apply andb_false_iff in Htest.
      assert (Hend : loop_end r (Some idx) = nextStep r).
      { unfold loop_end; cbv zeta. destruct Htest as [H|H].
        - apply Z.ltb_ge in H. lia.
        - apply Nat.ltb_ge in H. lia. }
      rewrite Hend, Nat.sub_diag. repeat split; reflexivity.
Qed.


Lemma loop_end_omitted r :
  loop_end r (Some (Z.of_nat (List.length (steps (flow r))))) = loop_end r None.
Proof. unfold loop_end; cbv zeta. lia. Qed.

(** The part of [run] after [beforeAllSteps]. *)
Lemma run_rest_spec idx r b res r' b' t :
  bind get_this (fun this =>
    bind (run_loop (List.length (steps (flow this)) - nextStep this) idx)
      (fun _ => bind get_this (fun this =>
         if List.length (steps (flow this)) <=? nextStep this
         then bind (await_opt (afterAllSteps (extension this)) AfterAllSteps
                      (fun h => h (flow this)))
                (fun _ => ret true)
         else ret false))) (r, b)
  = (res, (r', b'), t) ->
  flow r' = flow r /\ extension r' = extension r /\ b' = replay r t b /\
  let c := nextStep r in
  let e := loop_end r (Some idx) in
  let n := List.length (steps (flow r)) in
  match res with
  | Return v =>
      nextStep r' = e
      /\ v = (n <=? e)
      /\ t = calls_between r c (e - c)
             ++ (if n <=? e
                 then opt_call (afterAllSteps (extension r)) AfterAllSteps
                 else [])
  | Throw _ =>
      (exists p q,
          c <= nextStep r' < e
          /\ calls_at r (nextStep r') = p ++ q /\ p <> []
          /\ t = calls_between r c (nextStep r' - c) ++ p)
      \/ (nextStep r' = e /\ n <= e
          /\ afterAllSteps (extension r) <> None
          /\ t = calls_between r c (e - c) ++ [AfterAllSteps])
  end.
Proof.
  rewrite bind_get_this. cbn [fst]. unfold bind at 1.
  destruct (run_loop _ idx (r, b)) as [[res1 [r1 b1]] t1] eqn:Hloop.
  apply run_loop_spec in Hloop; [|lia].
  destruct Hloop as (Hf & Hx & Hb & Hres).
  destruct res1 as [[]|e1].
  - destruct Hres as [Hn Ht]. rewrite bind_get_this. cbn [fst].
    rewrite Hf, Hx, Hn.
    destruct (List.length (steps (flow r)) <=? loop_end r (Some idx)) eqn:Hdone.
    + unfold await_opt.
      destruct (afterAllSteps (extension r)) as [h|] eqn:Hh.
      * destruct (h (flow r) b1) as [b2|e2 b2] eqn:E.
        -- rewrite (bind_await_Fulfilled _ _ _ _ _ _ E).
           cbn [preceded_by ret]. intros H; injection H as <- <- <- <-.
           rewrite replay_app, <- Hb.
           repeat split; auto; try (now rewrite Ht).
           cbn. unfold perform, outcome. now rewrite Hh, E.
        -- rewrite (bind_await_Rejected _ _ _ _ _ _ _ E).
           cbn [preceded_by]. intros H; injection H as <- <- <- <-.
           rewrite replay_app, <- Hb.
           repeat split; auto.
           ++ cbn. unfold perform, outcome. now rewrite Hh, E.
           ++ right. apply Nat.leb_le in Hdone.
              repeat split; auto; try discriminate. now rewrite Ht.
      * rewrite bind_ret. cbn [preceded_by ret].
        intros H; injection H as <- <- <- <-.
        rewrite !app_nil_r. repeat split; auto.
    + cbn [preceded_by ret]. intros H; injection H as <- <- <- <-.
      rewrite !app_nil_r. repeat split; auto.
  - intros H; injection H as <- <- <- <-.
    repeat split; auto.
Qed.

(** What one call of [run] does, from any state of the runner. *)
Lemma run_spec stepIdx r b res r' b' t :
  run stepIdx (r, b) = (res, (r', b'), t) ->
  flow r' = flow r /\ extension r' = extension r /\ b' = replay r t b
  /\ run_shape stepIdx r res (nextStep r') t.
Proof.
  unfold run. rewrite bind_get_this. cbn [fst].
  set (idx := match stepIdx with
              | Some i => i
              | None => Z.of_nat (List.length (steps (flow r)))
              end).
  assert (Hend : loop_end r (Some idx) = loop_end r stepIdx).
  { unfold idx. destruct stepIdx; [reflexivity | apply loop_end_omitted]. }
  assert (Hrest : forall b0 t0 res r' b' t,
    bind get_this (fun this =>
      bind (run_loop (List.length (steps (flow this)) - nextStep this) idx)
        (fun _ => bind get_this (fun this =>
           if List.length (steps (flow this)) <=? nextStep this
           then bind (await_opt (afterAllSteps (extension this)) AfterAllSteps
                        (fun h => h (flow this)))
                  (fun _ => ret true)
           else ret false))) (r, b0)
    = (res, (r', b'), t) ->
    t0 = opening_calls r ->
    flow r' = flow r /\ extension r' = extension r /\ b' = replay r t b0
    /\ run_shape stepIdx r res (nextStep r') (t0 ++ t)).
  { intros b0 t0 res0 r0 b0' t1 H ->. apply run_rest_spec in H.
    destruct H as (Hf & Hx & Hb & Hres). cbv zeta in Hres.
    rewrite Hend in Hres. repeat split; auto.
    destruct res0 as [v|e].
    - destruct Hres as (Hn & Hv & Ht). rewrite Hn, Hv, Ht.
      destruct (List.length (steps (flow r)) <=? loop_end r stepIdx) eqn:Hdone.
      + apply returns_true. now apply Nat.leb_le.
      + rewrite app_nil_r. apply returns_false. now apply Nat.leb_gt.
    - destruct Hres as [(p & q & Hj & Hpq & Hp & Ht) | (Hn & Hdone & Hh & Ht)].
      + rewrite Ht. now apply step_throws with (q := q).
      + rewrite Hn, Ht. now apply afterAllSteps_throws. }
  unfold opening_calls in Hrest.
  destruct (nextStep r =? 0) eqn:Hzero.
  - unfold await_opt.
    destruct (beforeAllSteps (extension r)) as [h|] eqn:Hh.
    + destruct (h (flow r) b) as [b1|e1 b1] eqn:E.
      * rewrite (bind_await_Fulfilled _ _ _ _ _ _ E).
        destruct (bind get_this _ (r, b1)) as [[res1 [r1 b2]] t1] eqn:Hk.
        cbn. intros H; injection H as <- <- <- <-.
        apply Hrest with (t0 := [BeforeAllSteps]) in Hk; [|reflexivity].
        destruct Hk as (Hf & Hx & Hb & Hshape).
        repeat split; auto.
        change (replay r (BeforeAllSteps :: t1) b)
          with (replay r t1 (perform r BeforeAllSteps b)).
        unfold perform, outcome. rewrite Hh, E. exact Hb.
      * rewrite (bind_await_Rejected _ _ _ _ _ _ _ E).
        intros H; injection H as <- <- <- <-.
        repeat split; auto.
        -- cbn. unfold perform, outcome. now rewrite Hh, E.
        -- apply Nat.eqb_eq in Hzero. rewrite Hzero.
           apply beforeAllSteps_throws; [assumption|]. now rewrite Hh.
    + rewrite bind_ret. intros H.
      apply Hrest with (t0 := []) in H; [|reflexivity]. exact H.
  - rewrite bind_ret. intros H.
    apply Hrest with (t0 := []) in H; [|reflexivity]. exact H.
Qed.


(** *** Every call is awaited, and a rejection is what makes [run] throw *)

Lemma all_fulfilled_app r t1 t2 b :
  all_fulfilled r (t1 ++ t2) b
  <-> all_fulfilled r t1 b /\ all_fulfilled r t2 (replay r t1 b).
Proof.
  revert b. induction t1 as [|c t1 IH]; intros b; cbn.
  - tauto.
  - rewrite IH. unfold replay. tauto.
Qed.

Lemma faithful_ret {A} r0 (a : A) : faithful r0 (ret a).
Proof.
  intros r b res r' b' t Hf Hx H. unfold ret in H.
  injection H as <- <- <- <-. cbn. auto.
Qed.

Lemma faithful_incr r0 : faithful r0 incr_nextStep.
Proof.
  intros r b res r' b' t Hf Hx H. unfold incr_nextStep in H.
  injection H as <- <- <- <-. cbn. auto.
Qed.

Lemma faithful_await r0 c p :
  (forall b, p b = outcome r0 c b) -> faithful r0 (await c p).
Proof.
  intros Hp r b res r' b' t Hf Hx H. unfold await in H. cbn [fst snd] in H.
  destruct (p b) as [b1|e b1] eqn:E; injection H as <- <- <- <-;
    rewrite Hp in E; (repeat split; auto); cbn; unfold perform;
    rewrite ?E; auto.
  - eauto.
  - exists [], c, b1. cbn. auto.
Qed.

Lemma faithful_await_opt {X} r0 (h : option X) c app :
  (forall f b, h = Some f -> app f b = outcome r0 c b) ->
  faithful r0 (await_opt h c app).
Proof.
  intros Hp. unfold await_opt. destruct h as [f|].
  - apply faithful_await. intros b. now apply Hp.
  - apply faithful_ret.
Qed.

Lemma faithful_bind {A C} r0 (m : M Step B Err A) (k : A -> M Step B Err C) :
  faithful r0 m -> (forall a, faithful r0 (k a)) -> faithful r0 (bind m k).
Proof.
  intros Hm Hk r b res r' b' t Hf Hx H. unfold bind in H.
  destruct (m (r, b)) as [[res1 [r1 b1]] t1] eqn:E1.
  apply Hm in E1; auto. destruct E1 as (Hf1 & Hx1 & Hb1 & Hacc1).
  destruct res1 as [a|e].
  - destruct (k a (r1, b1)) as [[res2 [r2 b2]] t2] eqn:E2.
    cbn in H. injection H as <- <- <- <-.
    apply Hk in E2; auto. destruct E2 as (Hf2 & Hx2 & Hb2 & Hacc2).
    cbn in Hacc1. subst b1.
    repeat split; auto.
    + now rewrite replay_app.
    + destruct res2 as [v|e]; cbn in Hacc2 |- *.
      * apply all_fulfilled_app. auto.
      * destruct Hacc2 as (t0 & c & b3 & -> & Hall & Hout).
        exists (t1 ++ t0), c, b3. rewrite app_assoc, replay_app.
        repeat split; auto. apply all_fulfilled_app. auto.
  - injection H as <- <- <- <-. auto.
Qed.

Lemma faithful_this {C} r0 (k : Runner -> M Step B Err C) :
  (forall this, flow this = flow r0 -> extension this = extension r0 ->
                faithful r0 (k this)) ->
  faithful r0 (bind get_this k).
Proof.
  intros Hk r b res r' b' t Hf Hx H. rewrite bind_get_this in H.
  cbn [fst] in H. now apply (Hk r Hf Hx r b).
Qed.

Lemma faithful_run_loop r0 fuel idx : faithful r0 (run_loop fuel idx).
Proof.
  induction fuel as [|fuel IH]; cbn [run_loop].
  - apply faithful_ret.
  - apply faithful_this. intros this Hf Hx.
    destruct (_ && _); [|apply faithful_ret].
    destruct (nth_error _ _) as [step|]; [|apply faithful_ret].
    cbv zeta. rewrite Hf, Hx.
    repeat (apply faithful_bind; [|intros _]);
      try apply faithful_incr; try apply IH;
      try (apply faithful_await_opt; intros f b E);
      try (apply faithful_await; intros b);
      unfold outcome; rewrite ?E; reflexivity.
Qed.

(** [run] keeps the flow and the extension, leaves the backend in the
    state its calls brought it to, one after the other, and throws
    exactly the rejection of the last call it made. *)
Lemma run_faithful stepIdx r b res r' b' t :
  run stepIdx (r, b) = (res, (r', b'), t) ->
  accounts_for r b res t.
Proof.
  intros H.
  assert (Hrun : faithful r (run stepIdx)).
  { unfold run. apply faithful_this. intros this Hf Hx. cbv zeta.
    rewrite Hf, Hx.
    apply faithful_bind.
    { destruct (nextStep this =? 0); [|apply faithful_ret].
      apply faithful_await_opt. intros f b0 E. unfold outcome. now rewrite E. }
    intros _. apply faithful_this. intros this1 Hf1 Hx1. rewrite Hf1.
    apply faithful_bind; [apply faithful_run_loop|].
    intros _. apply faithful_this. intros this2 Hf2 Hx2. rewrite Hf2, Hx2.
    destruct (_ <=? _); [|apply faithful_ret].
    apply faithful_bind; [|intros _; apply faithful_ret].
    apply faithful_await_opt. intros f b0 E. unfold outcome. now rewrite E. }
  now apply (Hrun r b res r' b' t eq_refl eq_refl).
Qed.


(** *** The loop is left only when its test is false *)

Lemma run_loop_exit fuel idx r b v r' b' t :
  List.length (steps (flow r)) - nextStep r <= fuel ->
  run_loop fuel idx (r, b) = (Return v, (r', b'), t) ->
  (Z.of_nat (nextStep r') <? idx)%Z
  && (nextStep r' <? List.length (steps (flow r'))) = false.
Proof.
  intros Hfuel H. apply run_loop_spec in H; [|assumption].
  destruct H as (Hf & _ & _ & Hn & _). rewrite Hf, Hn.
  apply andb_false_iff. unfold loop_end; cbv zeta.
  destruct (Z.ltb_spec (Z.of_nat (Nat.max (nextStep r)
             (Z.to_nat (Z.min idx (Z.of_nat (List.length (steps (flow r)))))))) idx);
    [right; apply Nat.ltb_ge; lia | now left].
Qed.

(** *** What the traces contain *)

Lemma run_indices_app t1 t2 :
  run_indices (t1 ++ t2) = run_indices t1 ++ run_indices t2.
Proof. apply flat_map_app. Qed.

Lemma run_indices_opt_call {X} (h : option X) (c : Call) :
  is_step_call c = false -> run_indices (opt_call h c) = [].
Proof. destruct h, c; cbn; intros; congruence. Qed.

Lemma run_indices_opening r : run_indices (opening_calls r) = [].
Proof.
  unfold opening_calls. destruct (nextStep r =? 0); [|reflexivity].
  now apply run_indices_opt_call.
Qed.

Lemma run_indices_step_calls r i s : run_indices (step_calls r i s) = [i].
Proof.
  unfold step_calls, opt_call.
  destruct (beforeEachStep _), (afterEachStep _); reflexivity.
Qed.

Lemma calls_at_step r i :
  i < List.length (steps (flow r)) ->
  exists s, nth_error (steps (flow r)) i = Some s
            /\ calls_at r i = step_calls r i s.
Proof.
  intros Hi. unfold calls_at.
  destruct (nth_error (steps (flow r)) i) as [s|] eqn:E.
  - now exists s.
  - apply nth_error_None in E. lia.
Qed.

Lemma run_indices_calls_between r c n :
  c + n <= List.length (steps (flow r)) ->
  run_indices (calls_between r c n) = seq c n.
Proof.
  revert c. induction n as [|n IH]; intros c Hn; [reflexivity|].
  rewrite calls_between_S, run_indices_app, IH by lia.
  destruct (calls_at_step r c) as (s & _ & ->); [lia|].
  now rewrite run_indices_step_calls.
Qed.

Lemma filter_step_calls r i s :
  filter is_step_call (step_calls r i s) = step_calls r i s.
Proof.
  unfold step_calls, opt_call.
  destruct (beforeEachStep _), (afterEachStep _); reflexivity.
Qed.

Lemma filter_calls_between r c n :
  filter is_step_call (calls_between r c n) = calls_between r c n.
Proof.
  revert c. induction n as [|n IH]; intros c; [reflexivity|].
  rewrite calls_between_S, filter_app, IH. f_equal.
  unfold calls_at. destruct (nth_error _ _); [apply filter_step_calls | reflexivity].
Qed.

Lemma filter_opt_call {X} (h : option X) (c : Call) :
  is_step_call c = false -> filter is_step_call (opt_call h c) = [].
Proof. intros Hc. destruct h; cbn; [now rewrite Hc | reflexivity]. Qed.

Lemma filter_opening r : filter is_step_call (opening_calls r) = [].
Proof.
  unfold opening_calls. destruct (nextStep r =? 0); [|reflexivity].
  now apply filter_opt_call.
Qed.

Lemma all_step_calls_between_from r pre l c :
  steps (flow r) = pre ++ l -> c = List.length pre ->
  calls_between r c (List.length l)
  = flat_map (fun '(i, s) => step_calls r i s) (combine (seq c (List.length l)) l).
Proof.
  revert pre c. induction l as [|s l IH]; intros pre c Hsteps ->; [reflexivity|].
  cbn [List.length seq combine flat_map]. rewrite calls_between_S.
  rewrite <- (IH (pre ++ [s])).
  - f_equal. unfold calls_at. rewrite Hsteps, nth_error_app2, Nat.sub_diag by lia.
    reflexivity.
  - now rewrite <- app_assoc.
  - rewrite length_app. cbn. lia.
Qed.

Lemma all_step_calls_between r :
  calls_between r 0 (List.length (steps (flow r))) = all_step_calls r.
Proof. now apply (all_step_calls_between_from r []). Qed.

(** *** Calls of [run] that return *)

Lemma run_Return stepIdx r b v r' b' t :
  run stepIdx (r, b) = (Return v, (r', b'), t) ->
  let c := nextStep r in
  let e := loop_end r stepIdx in
  let n := List.length (steps (flow r)) in
  nextStep r' = e /\ v = (n <=? e)
  /\ t = opening_calls r ++ calls_between r c (e - c)
         ++ (if v then opt_call (afterAllSteps (extension r)) AfterAllSteps
             else []).
Proof.
  intros H. apply run_spec in H. destruct H as (_ & _ & _ & Hshape).
  inversion Hshape; subst; cbv zeta.
  - repeat split; auto.
    + symmetry. apply Nat.leb_gt. assumption.
    + now rewrite app_nil_r.
  - repeat split; auto. symmetry. now apply Nat.leb_le.
Qed.

Lemma never_rejects_outcome r c b e b1 :
  never_rejects (extension r) -> outcome r c b <> Rejected e b1.
Proof.
  intros (H1 & H2 & H3 & H4 & H5) E. unfold outcome in E.
  destruct c as [|i s|i s|i s|]; cbv zeta in E.
  - destruct (beforeAllSteps _) as [h|] eqn:Hh; [|discriminate].
    destruct (H1 h (flow r) b eq_refl). congruence.
  - destruct (beforeEachStep _) as [h|] eqn:Hh; [|discriminate].
    destruct (H2 h s (flow r) b eq_refl). congruence.
  - destruct (H3 s (flow r) b). congruence.
  - destruct (afterEachStep _) as [h|] eqn:Hh; [|discriminate].
    destruct (H4 h s (flow r) b eq_refl). congruence.
  - destruct (afterAllSteps _) as [h|] eqn:Hh; [|discriminate].
    destruct (H5 h (flow r) b eq_refl). congruence.
Qed.

Lemma never_rejects_Return stepIdx r b res r' b' t :
  never_rejects (extension r) ->
  run stepIdx (r, b) = (res, (r', b'), t) ->
  exists v, res = Return v.
Proof.
  intros Hx H. apply run_faithful in H. destruct res as [v|e]; [now exists v|].
  destruct H as (t0 & c & b1 & _ & _ & Hout).
  now apply never_rejects_outcome in Hout.
Qed.


(** *** A whole flow in one call *)

(** C1.  On a freshly constructed runner, [run()] with the argument
    omitted returns [true] when no call on the extension rejects, and
    whenever it returns, it returns [true] and has called [runStep]
    exactly once per step, in the order of [steps], with [beforeEachStep]
    before it and [afterEachStep] after it when the extension has them
    (and [beforeAllSteps] first, [afterAllSteps] last).  Each call is made
    on the state the previous one left: the backend ends in the state
    obtained by replaying the calls one after the other, and [run] throws
    only the rejection of the last call it made. *)
Theorem run_fresh_runs_every_step
  (f : UserFlow Step) (x : RunnerExtension Step B Err) b res r' b' t :
  run None (new_Runner f x, b) = (res, (r', b'), t) ->
  let r := new_Runner f x in
  (never_rejects x -> res = Return true)
  /\ (forall v, res = Return v ->
        v = true
        /\ t = opt_call (beforeAllSteps x) BeforeAllSteps
               ++ all_step_calls r
               ++ opt_call (afterAllSteps x) AfterAllSteps
        /\ run_indices t = seq 0 (List.length (steps f))
        /\ nextStep r' = List.length (steps f))
  /\ (forall v, res = Return v ->
        (v = true <-> filter is_step_call t = all_step_calls r))
  /\ b' = replay r t b
  /\ accounts_for r b res t.
Proof.
  intros H r.
  assert (Hend : loop_end r None = List.length (steps f))
    by (unfold loop_end; cbn; lia).
  assert (Hret : forall v, res = Return v ->
        v = true
        /\ t = opt_call (beforeAllSteps x) BeforeAllSteps
               ++ all_step_calls r
               ++ opt_call (afterAllSteps x) AfterAllSteps
        /\ run_indices t = seq 0 (List.length (steps f))
        /\ nextStep r' = List.length (steps f)).
  { intros v ->. apply run_Return in H. fold r in H. cbv zeta in H.
    rewrite Hend in H. destruct H as (Hn & Hv & Ht).
    change (nextStep r) with 0 in Ht. change (flow r) with f in Hv.
    rewrite Nat.leb_refl in Hv. subst v.
    rewrite Nat.sub_0_r in Ht.
    change (steps f) with (steps (flow r)) in Ht.
    rewrite all_step_calls_between in Ht.
    repeat split; auto.
    rewrite Ht, !run_indices_app, run_indices_opening.
    rewrite run_indices_opt_call by reflexivity.
    rewrite app_nil_r. cbn [app].
    rewrite <- all_step_calls_between.
    now apply run_indices_calls_between. }
  split; [|split; [exact Hret|split]].
  - intros Hx. destruct (never_rejects_Return None r b res r' b' t Hx H) as [v ->].
    destruct (Hret v eq_refl) as [-> _]. reflexivity.
  - intros v Hv. destruct (Hret v Hv) as (-> & Ht & _).
    split; [intros _|reflexivity].
    rewrite Ht, !filter_app, !filter_opt_call by reflexivity.
    rewrite app_nil_r. cbn [app].
    rewrite <- all_step_calls_between. apply filter_calls_between.
  - split.
    + now destruct (run_spec None r b res r' b' t H) as (_ & _ & Hb & _).
    + now apply (run_faithful None r b res r' b' t).
Qed.



(** *** The hooks around the whole flow *)

Lemma count_app p t1 t2 : count p (t1 ++ t2) = count p t1 + count p t2.
Proof. unfold count. now rewrite filter_app, length_app. Qed.

Lemma count_none p t :
  (forall c, In c t -> p c = false) -> count p t = 0.
Proof.
  unfold count. induction t as [|c t IH]; intros H; [reflexivity|].
  cbn. rewrite (H c) by now left. apply IH. intros c' Hc'. apply H. now right.
Qed.

Lemma in_step_calls r i s c :
  In c (step_calls r i s) -> is_step_call c = true /\ index_of c = Some i.
Proof.
  unfold step_calls, opt_call.
  destruct (beforeEachStep _), (afterEachStep _); cbn;
    intros H; repeat (destruct H as [<-|H]; [now split|]); contradiction.
Qed.

Lemma in_calls_at r j c :
  In c (calls_at r j) -> is_step_call c = true /\ index_of c = Some j.
Proof.
  unfold calls_at. destruct (nth_error _ _); [apply in_step_calls | contradiction].
Qed.

Lemma in_calls_between r c0 n c :
  In c (calls_between r c0 n) ->
  is_step_call c = true /\ exists i, index_of c = Some i /\ c0 <= i < c0 + n.
Proof.
  unfold calls_between. intros H. apply in_flat_map in H.
  destruct H as (i & Hi & Hc). apply in_seq in Hi.
  apply in_calls_at in Hc. destruct Hc as [Hs Hidx].
  split; [assumption|]. now exists i.
Qed.

Lemma count_calls_between p r c0 n :
  (forall c, is_step_call c = true -> p c = false) ->
  count p (calls_between r c0 n) = 0.
Proof.
  intros Hp. apply count_none. intros c Hc. apply Hp.
  now apply in_calls_between in Hc.
Qed.

Lemma count_part_of_step p r j t q :
  (forall c, is_step_call c = true -> p c = false) ->
  calls_at r j = t ++ q -> count p t = 0.
Proof.
  intros Hp Hpq. apply count_none. intros c Hc. apply Hp.
  apply (in_calls_at r j). rewrite Hpq. apply in_or_app. now left.
Qed.

Lemma beforeAll_not_step (c : Call) :
  is_step_call c = true -> is_beforeAllSteps c = false.
Proof. now destruct c. Qed.

Lemma afterAll_not_step (c : Call) :
  is_step_call c = true -> is_afterAllSteps c = false.
Proof. now destruct c. Qed.

Lemma count_beforeAll_opening r :
  count is_beforeAllSteps (opening_calls r)
  = if nextStep r =? 0 then has (beforeAllSteps (extension r)) else 0.
Proof.
  unfold opening_calls. destruct (nextStep r =? 0); [|reflexivity].
  now destruct (beforeAllSteps _).
Qed.

Lemma count_afterAll_opening r : count is_afterAllSteps (opening_calls r) = 0.
Proof.
  unfold opening_calls. destruct (nextStep r =? 0); [|reflexivity].
  now destruct (beforeAllSteps _).
Qed.

(** One call of [run], from any state: [beforeAllSteps] is called when
    and only when the cursor is 0 on entry; [afterAllSteps] is called
    once when the call returns [true], never when it returns [false]; the
    cursor does not move back. *)
Lemma run_flow_hooks stepIdx r b res r' b' t :
  run stepIdx (r, b) = (res, (r', b'), t) ->
  count is_beforeAllSteps t
  = (if nextStep r =? 0 then has (beforeAllSteps (extension r)) else 0)
  /\ count is_afterAllSteps t <= 1
  /\ (res = Return true ->
      count is_afterAllSteps t = has (afterAllSteps (extension r)))
  /\ (res = Return false -> count is_afterAllSteps t = 0)
  /\ nextStep r <= nextStep r'.
Proof.
  intros H. apply run_spec in H. destruct H as (_ & _ & _ & Hshape).
  pose proof (loop_end_le r stepIdx) as Hle.
  inversion Hshape; subst; rewrite ?count_app, ?count_beforeAll_opening,
    ?count_afterAll_opening,
    ?(count_calls_between is_beforeAllSteps) by apply beforeAll_not_step;
    rewrite ?(count_calls_between is_afterAllSteps) by apply afterAll_not_step.
  - match goal with H : nextStep r = 0 |- _ => rewrite H end.
    destruct (beforeAllSteps (extension r)); [|congruence].
    cbn. repeat split; auto; discriminate.
  - rewrite (count_part_of_step is_beforeAllSteps r (nextStep r') p q),
      (count_part_of_step is_afterAllSteps r (nextStep r') p q);
      auto using beforeAll_not_step, afterAll_not_step.
    repeat split; try lia; discriminate.
  - cbn. repeat split; try lia; discriminate.
  - destruct (afterAllSteps (extension r)); cbn;
      repeat split; try lia; discriminate.
  - cbn. repeat split; try lia; discriminate.
Qed.

Lemma run_all_cons stepIdx args (w : Runner * B) :
  run_all (stepIdx :: args) w
  = match run stepIdx w with
    | (res, w1, t) =>
        match run_all args w1 with
        | (records, w2) => ((nextStep (fst w), res, t) :: records, w2)
        end
    end.
Proof. reflexivity. Qed.

Lemma run_all_keeps args r b records r' b' :
  run_all args (r, b) = (records, (r', b')) ->
  flow r' = flow r /\ extension r' = extension r /\ nextStep r <= nextStep r'.
Proof.
  revert r b records. induction args as [|stepIdx args IH]; intros r b records H.
  - injection H as <- <- <-. auto.
  - rewrite run_all_cons in H.
    destruct (run stepIdx (r, b)) as [[res [r1 b1]] t] eqn:Hrun.
    destruct (run_all args (r1, b1)) as [records1 [r2 b2]] eqn:Hrest.
    injection H as <- <- <-.
    apply IH in Hrest. destruct Hrest as (Hf & Hx & Hle).
    destruct (run_spec _ _ _ _ _ _ _ Hrun) as (Hf1 & Hx1 & _ & _).
    apply run_flow_hooks in Hrun. destruct Hrun as (_ & _ & _ & _ & Hle1).
    repeat split; try congruence. lia.
Qed.



(** *** Calls that find nothing to do *)

Lemma loop_end_complete r stepIdx :
  List.length (steps (flow r)) <= nextStep r -> loop_end r stepIdx = nextStep r.
Proof. unfold loop_end; cbv zeta. destruct stepIdx; lia. Qed.

Lemma loop_end_upTo r upTo :
  (upTo <= Z.of_nat (nextStep r))%Z -> loop_end r (Some upTo) = nextStep r.
Proof. unfold loop_end; cbv zeta. lia. Qed.

Lemma loop_end_bound r stepIdx j :
  nextStep r <= j < loop_end r stepIdx -> j < List.length (steps (flow r)).
Proof. unfold loop_end; cbv zeta. destruct stepIdx; lia. Qed.

Lemma opening_calls_positive r : 0 < nextStep r -> opening_calls r = [].
Proof.
  intros H. unfold opening_calls.
  destruct (Nat.eqb_spec (nextStep r) 0); [lia | reflexivity].
Qed.

(** A call of [run] that leaves the loop at once: the cursor does not
    move and only the hooks around the whole flow can be called. *)
Lemma run_nothing_to_do stepIdx r b res r' b' t :
  loop_end r stepIdx = nextStep r ->
  run stepIdx (r, b) = (res, (r', b'), t) ->
  let n := List.length (steps (flow r)) in
  nextStep r' = nextStep r
  /\ filter is_step_call t = []
  /\ ((res = Return false /\ nextStep r < n /\ t = opening_calls r)
      \/ (res = Return true /\ n <= nextStep r
          /\ t = opening_calls r
                 ++ opt_call (afterAllSteps (extension r)) AfterAllSteps)
      \/ (exists e, res = Throw e /\ n <= nextStep r
                    /\ afterAllSteps (extension r) <> None
                    /\ t = opening_calls r ++ [AfterAllSteps])
      \/ (exists e, res = Throw e /\ nextStep r = 0
                    /\ beforeAllSteps (extension r) <> None
                    /\ t = [BeforeAllSteps])).
Proof.
  intros Hend H. apply run_spec in H. destruct H as (_ & _ & _ & Hshape).
  cbv zeta.
  inversion Hshape; subst; rewrite ?Hend, ?Nat.sub_diag in *;
    cbn [calls_between seq flat_map app] in *;
    rewrite ?app_nil_r, ?filter_app, ?filter_opening;
    try lia; (split; [congruence|]); (split; [|]).
  - reflexivity.
  - right. right. right. exists e. auto.
  - reflexivity.
  - left. auto.
  - now apply filter_opt_call.
  - right. left. auto.
  - reflexivity.
  - right. right. left. exists e. auto.
Qed.

(** Once a call of a sequence has returned [true], the runner is
    complete and stays so, whatever the calls after it do. *)
Lemma run_all_complete args r0 b0 records r b :
  run_all args (r0, b0) = (records, (r, b)) ->
  Exists (fun record => snd (fst record) = Return true) records ->
  List.length (steps (flow r)) <= nextStep r.
Proof.
  revert r0 b0 records. induction args as [|stepIdx args IH];
    intros r0 b0 records H Hdone.
  - injection H as <- <- <-. inversion Hdone.
  - rewrite run_all_cons in H.
    destruct (run stepIdx (r0, b0)) as [[res [r1 b1]] t] eqn:Hrun.
    destruct (run_all args (r1, b1)) as [records1 [r2 b2]] eqn:Hrest.
    injection H as <- <- <-.
    inversion Hdone as [record l Hhead|record l Htail]; subst.
    + cbn [fst snd] in Hhead. subst res.
      destruct (run_spec _ _ _ _ _ _ _ Hrun) as (Hf & _ & _ & _).
      apply run_Return in Hrun. cbv zeta in Hrun. destruct Hrun as (Hn & Hv & _).
      symmetry in Hv. apply Nat.leb_le in Hv.
      destruct (run_all_keeps _ _ _ _ _ _ Hrest) as (Hf2 & _ & Hle).
      rewrite Hf2, Hf. lia.
    + exact (IH _ _ _ Hrest Htail).
Qed.

(** C4, amended.  Once a call of [run] has returned [true], every
    further call, whatever the calls in between did, and whether they
    returned or threw, leaves the cursor where it is and calls neither
    [runStep] nor a per-step hook; it calls [afterAllSteps] again when
    the extension has it (after [beforeAllSteps], when the flow has no
    step) and returns [true] unless that hook rejects.  The backend is
    left untouched exactly when the call made no call at all. *)
Theorem run_again_after_completion
  args r0 b0 records r b stepIdx res r' b' t :
  run_all args (r0, b0) = (records, (r, b)) ->
  Exists (fun record => snd (fst record) = Return true) records ->
  run stepIdx (r, b) = (res, (r', b'), t) ->
  nextStep r' = nextStep r
  /\ filter is_step_call t = []
  /\ ((res = Return true
       /\ t = opening_calls r
              ++ opt_call (afterAllSteps (extension r)) AfterAllSteps)
      \/ (exists e, res = Throw e
                    /\ afterAllSteps (extension r) <> None
                    /\ t = opening_calls r ++ [AfterAllSteps])
      \/ (exists e, res = Throw e /\ steps (flow r) = []
                    /\ beforeAllSteps (extension r) <> None
                    /\ t = [BeforeAllSteps]))
  /\ (steps (flow r) <> [] -> opening_calls r = [])
  /\ (t = [] -> b' = b).
Proof.
  intros Hall Hreturned H.
  pose proof (run_all_complete _ _ _ _ _ _ Hall Hreturned) as Hdone.
  destruct (run_spec _ _ _ _ _ _ _ H) as (_ & _ & Hb & _).
  apply run_nothing_to_do in H; [|now apply loop_end_complete].
  cbv zeta in H. destruct H as (Hn & Hfilter & Hcases).
  split; [assumption|]. split; [assumption|]. split; [|split].
  - destruct Hcases as [(_ & Hlt & _) | [(Hres & _ & Ht)
      | [(e & Hres & _ & Hh & Ht) | (e & Hres & Hz & Hh & Ht)]]].
    + lia.
    + now left.
    + right. left. now exists e.
    + right. right. exists e. repeat split; auto.
      apply length_zero_iff_nil. lia.
  - intros Hsteps. apply opening_calls_positive.
    destruct (steps (flow r)); [congruence | cbn in Hdone; lia].
  - intros ->. exact Hb.
Qed.

(** C9, amended.  A call [run(upTo)] with [upTo] at most the cursor
    leaves the cursor where it is and calls neither [runStep] nor a
    per-step hook.  On a runner that is not complete it calls
    [beforeAllSteps] when the cursor is 0 and the extension has it, and
    nothing else, and returns [false] unless that hook rejects; with the
    cursor past 0, or without that hook, it makes no call at all and the
    backend is untouched.  On a complete runner it returns [true] when it
    returns. *)
Theorem run_upTo_not_beyond_cursor upTo r b res r' b' t :
  (upTo <= Z.of_nat (nextStep r))%Z ->
  run (Some upTo) (r, b) = (res, (r', b'), t) ->
  let n := List.length (steps (flow r)) in
  nextStep r' = nextStep r
  /\ filter is_step_call t = []
  /\ (nextStep r < n ->
        ((res = Return false /\ t = opening_calls r)
         \/ (exists e, res = Throw e /\ nextStep r = 0 /\ t = [BeforeAllSteps]))
        /\ (0 < nextStep r \/ beforeAllSteps (extension r) = None ->
            res = Return false /\ t = [] /\ b' = b))
  /\ (n <= nextStep r -> forall v, res = Return v -> v = true).
Proof.
  intros Hup H. cbv zeta.
  destruct (run_spec _ _ _ _ _ _ _ H) as (_ & _ & Hb & _).
  apply run_nothing_to_do in H; [|now apply loop_end_upTo].
  cbv zeta in H. destruct H as (Hn & Hfilter & Hcases).
  split; [assumption|]. split; [assumption|]. split.
  - intros Hlt.
    destruct Hcases as [(Hres & _ & Ht) | [(_ & Hge & _)
      | [(e & _ & Hge & _) | (e & Hres & Hz & Hh & Ht)]]]; try lia.
    + split; [now left|]. intros Hnone.
      assert (Hopen : opening_calls r = []).
      { destruct Hnone as [Hpos|Hnone]; [now apply opening_calls_positive|].
        unfold opening_calls. rewrite Hnone. now destruct (nextStep r =? 0). }
      rewrite Hopen in Ht. subst t. auto.
    + split; [right; now exists e|].
      intros [Hpos|Hnone]; [lia | congruence].
  - intros Hge v ->.
    destruct Hcases as [(_ & Hlt & _) | [(Hres & _) | [(e & Hres & _)
      | (e & Hres & _)]]]; try lia; congruence.
Qed.


(** *** Failures *)

Lemma all_fulfilled_at r t0 c rest b :
  all_fulfilled r (t0 ++ c :: rest) b ->
  exists b1, outcome r c (replay r t0 b) = Fulfilled _ b1.
Proof. intros H. apply all_fulfilled_app in H. cbn in H. tauto. Qed.

(** A call that rejects is the last call made, and what it rejects with
    is thrown. *)
Lemma rejection_is_thrown {A} r b (res : completion Err A) t t0 c rest e b1 :
  accounts_for r b res t ->
  t = t0 ++ c :: rest ->
  outcome r c (replay r t0 b) = Rejected e b1 ->
  res = Throw e /\ rest = [].
Proof.
  intros Hacc -> Hout. destruct res as [v|e']; cbn in Hacc.
  - apply all_fulfilled_at in Hacc. destruct Hacc as [b2 Hb2]. congruence.
  - destruct Hacc as (t1 & c1 & b2 & Ht & Hall & Hout1).
    destruct rest as [|c2 rest].
    + apply app_inj_tail in Ht. destruct Ht as [<- <-].
      split; [congruence | reflexivity].
    + exfalso. destruct (exists_last (l := c2 :: rest)) as (rest' & c3 & Hlast);
        [discriminate|].
      rewrite Hlast in Ht.
      change (t0 ++ c :: rest' ++ [c3]) with (t0 ++ (c :: rest') ++ [c3]) in Ht.
      rewrite app_assoc in Ht. apply app_inj_tail in Ht. destruct Ht as [<- _].
      apply all_fulfilled_at in Hall. destruct Hall as [b3 Hb3]. congruence.
Qed.

Lemma in_opening r c : In c (opening_calls r) -> c = BeforeAllSteps.
Proof.
  unfold opening_calls, opt_call.
  destruct (nextStep r =? 0); [|contradiction].
  destruct (beforeAllSteps _); [|contradiction].
  now intros [<-|[]].
Qed.

Lemma step_calls_first r i s :
  exists rest, step_calls r i s = first_call r i s :: rest.
Proof.
  unfold step_calls, first_call, opt_call.
  destruct (beforeEachStep _); eexists; reflexivity.
Qed.

(** In the calls of one step, nothing before [runStep] is
    [afterEachStep]. *)
Lemma no_afterEachStep_up_to_runStep r j t0 i s q :
  calls_at r j = (t0 ++ [RunStep i s]) ++ q ->
  forall i' s', ~ In (AfterEachStep i' s') (t0 ++ [RunStep i s]).
Proof.
  unfold calls_at. destruct (nth_error _ _) as [s0|];
    [|now destruct t0].
  unfold step_calls, opt_call.
  destruct (beforeEachStep _), (afterEachStep _); cbn;
    destruct t0 as [|c1 [|c2 [|c3 t0]]]; cbn; intros H i' s' Hin;
    try discriminate H; inversion H; subst;
    repeat match goal with
           | H : _ \/ _ |- _ => destruct H
           | H : False |- _ => contradiction
           | H : _ = AfterEachStep _ _ |- _ => discriminate H
           | H : [] = (_ ++ _ :: _) ++ _ |- _ => now destruct t0
           | H : [] = _ ++ _ :: _ |- _ => now destruct t0
           end.
Qed.

Lemma afterAllSteps_last_index (c : Call) i t0 t1 :
  t1 ++ [AfterAllSteps] = t0 ++ [c] -> index_of c = Some i -> False.
Proof.
  intros H Hc. apply app_inj_tail in H. destruct H as [_ <-]. discriminate.
Qed.

(** What a call of [run] that throws on a call for step [i] leaves
    behind. *)
Lemma run_shape_throw_at_step stepIdx r e j t t0 c i :
  run_shape stepIdx r (Throw e) j t ->
  t = t0 ++ [c] ->
  index_of c = Some i ->
  j = i /\ nextStep r <= i < List.length (steps (flow r))
  /\ ~ In AfterAllSteps t
  /\ ((exists s, c = RunStep i s) -> forall s', ~ In (AfterEachStep i s') t).
Proof.
  intros Hshape Ht Hc.
  inversion Hshape as [e0 Hz Hh | e0 j0 p q Hj Hpq Hp | | | e0 Hdone Hh];
    subst;
    match goal with H : _ = t0 ++ [c] |- _ => rename H into Heq end.
  - destruct t0 as [|? [|? ?]]; try discriminate.
    injection Heq as <-. discriminate.
  - destruct (exists_last Hp) as (p0 & c' & ->).
    rewrite !app_assoc in Heq. apply app_inj_tail in Heq.
    destruct Heq as [<- <-].
    assert (Hin : In c' (calls_at r j)).
    { rewrite Hpq. apply in_or_app. left. apply in_or_app. right. now left. }
    apply in_calls_at in Hin. destruct Hin as [_ Hidx].
    assert (j = i) by congruence. subst j.
    split; [reflexivity|]. split; [split; [lia|]; eapply loop_end_bound; eauto|].
    split.
    + rewrite <- ?app_assoc. intros Hin.
      apply in_app_or in Hin. destruct Hin as [Hin|Hin].
      { apply in_opening in Hin. discriminate. }
      apply in_app_or in Hin. destruct Hin as [Hin|Hin].
      { apply in_calls_between in Hin. destruct Hin as [Hin _]. discriminate. }
      assert (Hin' : In AfterAllSteps (calls_at r i))
        by (rewrite Hpq; apply in_or_app; now left).
      apply in_calls_at in Hin'. destruct Hin' as [Hin' _]. discriminate.
    + intros [s ->] s' Hin. rewrite <- ?app_assoc in Hin.
      apply in_app_or in Hin. destruct Hin as [Hin|Hin].
      { apply in_opening in Hin. discriminate. }
      apply in_app_or in Hin. destruct Hin as [Hin|Hin].
      { apply in_calls_between in Hin.
        destruct Hin as (_ & i' & Hi' & Hrange). cbn in Hi'.
        injection Hi' as <-. lia. }
      revert Hin. now apply (no_afterEachStep_up_to_runStep r i p0 i s q).
  - exfalso. rewrite !app_assoc in Heq.
    now apply (afterAllSteps_last_index c i) in Heq.
Qed.


(** A call of [run()] entered with the cursor on step [s]: its first
    call after [beforeAllSteps] is the first call for [s]. *)
Lemma run_resumes_at r b res r' b' t s :
  nth_error (steps (flow r)) (nextStep r) = Some s ->
  run None (r, b) = (res, (r', b'), t) ->
  (exists rest, t = opening_calls r ++ first_call r (nextStep r) s :: rest)
  \/ (nextStep r = 0 /\ exists e, res = Throw e /\ t = [BeforeAllSteps]).
Proof.
  intros Hnth H.
  assert (Hlt : nextStep r < List.length (steps (flow r)))
    by (apply nth_error_Some; congruence).
  assert (Hend : loop_end r None = List.length (steps (flow r)))
    by (unfold loop_end; cbv zeta; lia).
  assert (Hat : exists rest, calls_at r (nextStep r)
                             = first_call r (nextStep r) s :: rest).
  { unfold calls_at. rewrite Hnth. apply step_calls_first. }
  destruct Hat as [tl Hat].
  assert (Hbetween : forall n, 0 < n -> exists rest,
            calls_between r (nextStep r) n
            = first_call r (nextStep r) s :: rest).
  { intros [|n] Hn; [lia|]. rewrite calls_between_S, Hat. cbn. eauto. }
  apply run_spec in H. destruct H as (_ & _ & _ & Hshape).
  inversion Hshape as [e0 Hz Hh | e0 j0 p q Hj Hpq Hp | | | e0 Hdone Hh];
    subst; rewrite ?Hend in *.
  - right. split; [assumption|]. now exists e0.
  - left. destruct (Nat.eq_dec (nextStep r') (nextStep r)) as [Heq|Hne].
    + rewrite Heq, Nat.sub_diag in *. cbn [calls_between seq flat_map app].
      rewrite Hat in Hpq. destruct p as [|c p]; [congruence|].
      injection Hpq as <- _. eauto.
    + destruct (Hbetween (nextStep r' - nextStep r)) as [rest ->]; [lia|].
      cbn. eauto.
  - lia.
  - left. destruct (Hbetween (List.length (steps (flow r)) - nextStep r))
      as [rest ->]; [lia|]. cbn. eauto.
  - left. destruct (Hbetween (List.length (steps (flow r)) - nextStep r))
      as [rest ->]; [lia|]. cbn. eauto.
Qed.

(** C5.  When a call made for the step at index [i] (a per-step hook or
    [runStep]) rejects with [e]: [run] throws [e] and makes no further
    call; the cursor is left at [i]; [afterAllSteps] is not called; when
    the rejected call is [runStep], [afterEachStep] is not called for
    step [i]; and the next [run()] starts again with the first call for
    step [i] (after [beforeAllSteps], which it calls again first when
    [i] is 0 and which may itself reject). *)
Theorem failing_step_is_attempted_again
  stepIdx r b res r' b' t t0 c rest i e b1 :
  run stepIdx (r, b) = (res, (r', b'), t) ->
  t = t0 ++ c :: rest ->
  index_of c = Some i ->
  outcome r c (replay r t0 b) = Rejected e b1 ->
  res = Throw e /\ rest = []
  /\ nextStep r' = i
  /\ ~ In AfterAllSteps t
  /\ ((exists s, c = RunStep i s) -> forall s', ~ In (AfterEachStep i s') t)
  /\ exists s,
       nth_error (steps (flow r)) i = Some s
       /\ forall res2 r2 b2 t2,
            run None (r', b') = (res2, (r2, b2), t2) ->
            (exists rest2,
                t2 = opening_calls r' ++ first_call r i s :: rest2)
            \/ (i = 0 /\ exists e2, res2 = Throw e2 /\ t2 = [BeforeAllSteps]).
Proof.
  intros H Ht Hc Hout.
  destruct (rejection_is_thrown r b res t t0 c rest e b1
              (run_faithful _ _ _ _ _ _ _ H) Ht Hout) as [-> ->].
  destruct (run_spec _ _ _ _ _ _ _ H) as (Hf & Hx & _ & Hshape).
  destruct (run_shape_throw_at_step _ _ _ _ _ _ _ _ Hshape Ht Hc)
    as (Hi & Hrange & Hafter & Heach).
  repeat (split; [assumption || reflexivity|]).
  destruct (nth_error (steps (flow r)) i) as [s|] eqn:Hnth.
  2:{ apply nth_error_None in Hnth. lia. }
  exists s. split; [reflexivity|].
  intros res2 r2 b2 t2 H2.
  assert (Hfirst : first_call r' (nextStep r') s = first_call r i s)
    by (unfold first_call; now rewrite Hx, Hi).
  apply run_resumes_at with (s := s) in H2.
  - rewrite Hfirst, Hi in H2. exact H2.
  - now rewrite Hf, Hi.
Qed.

(** C10.  Whenever [run] is entered with the cursor at 0 and the
    extension has [beforeAllSteps], that hook is the first call made,
    whatever calls of [run] came before.  The cursor is still 0 after a
    call [run(upTo)] with [upTo <= 0], after a call on a flow without
    steps, and after a call that threw on a call for the step at
    index 0. *)
Theorem beforeAllSteps_while_cursor_is_0 stepIdx r b res r' b' t h :
  nextStep r = 0 ->
  beforeAllSteps (extension r) = Some h ->
  run stepIdx (r, b) = (res, (r', b'), t) ->
  (exists rest, t = BeforeAllSteps :: rest)
  /\ (forall upTo, stepIdx = Some upTo -> (upTo <= 0)%Z -> nextStep r' = 0)
  /\ (steps (flow r) = [] -> nextStep r' = 0)
  /\ (forall t0 c, t = t0 ++ [c] -> index_of c = Some 0 ->
      (exists e, res = Throw e) -> nextStep r' = 0).
Proof.
  intros Hz Hh H.
  assert (Hopen : opening_calls r = [BeforeAllSteps])
    by (unfold opening_calls; now rewrite Hz, Hh).
  destruct (run_spec _ _ _ _ _ _ _ H) as (_ & _ & _ & Hshape).
  split; [|split; [|split]].
  - inversion Hshape; subst; rewrite ?Hopen; cbn; eauto.
  - intros upTo -> Hup.
    apply run_nothing_to_do in H; [|apply loop_end_upTo; lia].
    cbv zeta in H. destruct H as (Hn & _). congruence.
  - intros Hnil.
    apply run_nothing_to_do in H.
    + cbv zeta in H. destruct H as (Hn & _). congruence.
    + apply loop_end_complete. rewrite Hnil. cbn. lia.
  - intros t0 c Ht Hc [e ->].
    now destruct (run_shape_throw_at_step _ _ _ _ _ _ _ _ Hshape Ht Hc).
Qed.


(** *** Resuming *)

Lemma count_occ_seq a n i :
  a <= i < a + n -> count_occ Nat.eq_dec (seq a n) i = 1.
Proof.
  intros Hi. apply NoDup_count_occ'; [apply seq_NoDup | now apply in_seq].
Qed.

(** *** The steps handed to [runStep] *)

Lemma run_steps_app (t1 t2 : list Call) :
  run_steps (t1 ++ t2) = run_steps t1 ++ run_steps t2.
Proof. apply flat_map_app. Qed.

Lemma run_steps_opt_call {X} (h : option X) (c : Call) :
  is_step_call c = false -> run_steps (opt_call h c) = [].
Proof. destruct h, c; cbn; intros; congruence. Qed.

Lemma run_steps_step_calls (r : Runner) i s :
  run_steps (step_calls r i s) = [s].
Proof.
  unfold step_calls, opt_call.
  destruct (beforeEachStep _), (afterEachStep _); reflexivity.
Qed.

Lemma run_steps_opening r : run_steps (opening_calls r) = [].
Proof.
  unfold opening_calls. destruct (nextStep r =? 0); [|reflexivity].
  now apply run_steps_opt_call.
Qed.

Lemma skipn_nth_error {A} (l : list A) :
  forall c a, nth_error l c = Some a -> skipn c l = a :: skipn (S c) l.
Proof.
  induction l as [|x l IH]; intros [|c] a H; try discriminate.
  - now injection H as ->.
  - cbn in H. apply IH in H. exact H.
Qed.

(** The iterations for the [m] indices from [c] on hand to [runStep]
    the steps at these indices, in order; an index past the end has no
    iteration. *)
Lemma run_steps_calls_between r c m :
  run_steps (calls_between r c m) = firstn m (skipn c (steps (flow r))).
Proof.
  revert c. induction m as [|m IH]; intros c; [reflexivity|].
  rewrite calls_between_S, run_steps_app, IH. unfold calls_at.
  destruct (nth_error (steps (flow r)) c) as [s|] eqn:E.
  - rewrite run_steps_step_calls, (skipn_nth_error _ _ _ E). reflexivity.
  - apply nth_error_None in E.
    rewrite !skipn_all2 by lia. now rewrite !firstn_nil.
Qed.

(** A call of [runStep] labelled [i] is handed the step at index [i]. *)
Lemma in_calls_between_step r c m i s :
  In (RunStep i s) (calls_between r c m) ->
  nth_error (steps (flow r)) i = Some s.
Proof.
  unfold calls_between. intros H. apply in_flat_map in H.
  destruct H as (j & _ & Hin). unfold calls_at in Hin.
  destruct (nth_error (steps (flow r)) j) as [s'|] eqn:E; [|contradiction].
  unfold step_calls, opt_call in Hin.
  destruct (beforeEachStep _), (afterEachStep _); cbn in Hin;
    repeat (destruct Hin as [Hin|Hin]; [try discriminate|]);
    try contradiction; injection Hin as <- <-; exact E.
Qed.

(** What a call of [run] that returns has handed to [runStep]. *)
Lemma run_Return_steps stepIdx r b v r' b' t :
  run stepIdx (r, b) = (Return v, (r', b'), t) ->
  flow r' = flow r
  /\ nextStep r' = loop_end r stepIdx
  /\ nextStep r <= nextStep r'
  /\ run_steps t
     = firstn (nextStep r' - nextStep r) (skipn (nextStep r) (steps (flow r)))
  /\ run_indices t = seq (nextStep r) (nextStep r' - nextStep r)
  /\ (forall i s, In (RunStep i s) t -> nth_error (steps (flow r)) i = Some s).
Proof.
  intros H. destruct (run_spec _ _ _ _ _ _ _ H) as (Hf & _ & _ & _).
  apply run_Return in H. cbv zeta in H. destruct H as (Hn & _ & Ht).
  assert (Hle : nextStep r <= loop_end r stepIdx).
  { unfold loop_end; cbv zeta. destruct stepIdx; lia. }
  assert (Hend : loop_end r stepIdx <= List.length (steps (flow r))
                 \/ loop_end r stepIdx = nextStep r).
  { unfold loop_end; cbv zeta. destruct stepIdx; lia. }
  rewrite Hn. split; [exact Hf|]. split; [reflexivity|]. split; [exact Hle|].
  split; [|split].
  - rewrite Ht, !run_steps_app, run_steps_opening, run_steps_calls_between.
    destruct v; [rewrite run_steps_opt_call by reflexivity|];
      cbn [app run_steps flat_map]; now rewrite app_nil_r.
  - rewrite Ht, !run_indices_app, run_indices_opening.
    assert (Hbetween : run_indices
              (calls_between r (nextStep r) (loop_end r stepIdx - nextStep r))
            = seq (nextStep r) (loop_end r stepIdx - nextStep r)).
    { destruct Hend as [Hend| ->].
      - apply run_indices_calls_between. lia.
      - now rewrite Nat.sub_diag. }
    rewrite Hbetween.
    destruct v; [rewrite run_indices_opt_call by reflexivity|];
      cbn [app run_indices flat_map]; now rewrite app_nil_r.
  - intros i s Hin. rewrite Ht in Hin.
    apply in_app_or in Hin. destruct Hin as [Hin|Hin].
    { unfold opening_calls in Hin. destruct (nextStep r =? 0); [|contradiction].
      destruct (beforeAllSteps _); cbn in Hin;
        [destruct Hin as [Hin|[]]; discriminate | contradiction]. }
    apply in_app_or in Hin. destruct Hin as [Hin|Hin].
    { exact (in_calls_between_step _ _ _ _ _ Hin). }
    destruct v; [|contradiction].
    destruct (afterAllSteps _); cbn in Hin;
      [destruct Hin as [Hin|[]]; discriminate | contradiction].
Qed.

(** C6, amended.  [run(k)] followed by [run()], both returning, on a
    runner in any state, with the cursor at [c] and [N] steps.  When
    [c] is at most [k], as on a fresh runner, the first call hands to
    [runStep] the steps at the indices [c, k), the second the steps at
    the indices [k, N), each once and in the order of [steps]: every
    step with index in [k, N) is executed exactly once across the two
    calls, and by the second.  Whatever [c] is, the two calls together
    execute exactly the steps from the cursor on, each [runStep] gets
    the step at the index of its iteration, the second call executes
    no step with index below [k], and the cursor only moves forward. *)
Theorem run_upTo_then_run_executes_each_step_once
  r b k v1 r1 b1 t1 v2 r2 b2 t2 :
  run (Some (Z.of_nat k)) (r, b) = (Return v1, (r1, b1), t1) ->
  run None (r1, b1) = (Return v2, (r2, b2), t2) ->
  let n := List.length (steps (flow r)) in
  let c := nextStep r in
  (c <= k ->
     run_steps t1 = firstn (k - c) (skipn c (steps (flow r)))
     /\ run_steps t2 = skipn k (steps (flow r))
     /\ (forall i, k <= i < n ->
           count_occ Nat.eq_dec (run_indices (t1 ++ t2)) i = 1
           /\ ~ In i (run_indices t1)))
  /\ run_steps (t1 ++ t2) = skipn c (steps (flow r))
  /\ run_indices (t1 ++ t2) = seq c (n - c)
  /\ (forall i s, In (RunStep i s) (t1 ++ t2) ->
        nth_error (steps (flow r)) i = Some s)
  /\ Forall (fun i => k <= i) (run_indices t2)
  /\ run_steps t2 = skipn (nextStep r1) (steps (flow r))
  /\ Nat.min k n <= nextStep r1
  /\ c <= nextStep r1 <= nextStep r2.
Proof.
  intros H1 H2. cbv zeta.
  apply run_Return_steps in H1. destruct H1 as (Hf1 & He1 & Hc1 & Hs1 & Hi1 & Hl1).
  apply run_Return_steps in H2. rewrite Hf1 in H2.
  destruct H2 as (_ & He2 & Hc2 & Hs2 & Hi2 & Hl2).
  set (all := steps (flow r)) in *. set (c := nextStep r) in *.
  assert (Ee1 : nextStep r1 = Nat.max c (Nat.min k (List.length all))).
  { rewrite He1. unfold loop_end; cbv zeta. fold all c. lia. }
  assert (Ee2 : nextStep r2 = Nat.max (nextStep r1) (List.length all)).
  { rewrite He2. unfold loop_end; cbv zeta. now rewrite Hf1. }
  assert (Hs2' : run_steps t2 = skipn (nextStep r1) all).
  { rewrite Hs2. apply firstn_all2. rewrite length_skipn. lia. }
  assert (Hboth : run_steps (t1 ++ t2) = skipn c all).
  { rewrite run_steps_app, Hs1, Hs2'.
    replace (nextStep r1) with ((nextStep r1 - c) + c) at 2 by lia.
    rewrite <- skipn_skipn. apply firstn_skipn. }
  assert (Hindices : run_indices (t1 ++ t2) = seq c (List.length all - c)).
  { rewrite run_indices_app, Hi1, Hi2.
    destruct (Nat.le_gt_cases (nextStep r1) (List.length all)) as [Hin|Hout].
    - replace (List.length all - c)
        with ((nextStep r1 - c) + (nextStep r2 - nextStep r1)) by lia.
      rewrite seq_app. repeat f_equal. lia.
    - replace (nextStep r2 - nextStep r1) with 0 by lia.
      replace (nextStep r1 - c) with 0 by lia.
      replace (List.length all - c) with 0 by lia. reflexivity. }
  split; [|split; [exact Hboth|split; [exact Hindices|split; [|split; [|split;
    [exact Hs2'|split; [lia|lia]]]]]]].
  - intros Hck. split; [|split].
    + rewrite Hs1.
      destruct (Nat.le_gt_cases k (List.length all)) as [Hin|Hout].
      * now replace (nextStep r1) with k by lia.
      * rewrite !firstn_all2; [reflexivity| |]; rewrite length_skipn; lia.
    + rewrite Hs2'.
      destruct (Nat.le_gt_cases k (List.length all)) as [Hin|Hout].
      * now replace (nextStep r1) with k by lia.
      * rewrite !skipn_all2; [reflexivity| |]; lia.
    + intros i Hi. split.
      * rewrite Hindices. apply count_occ_seq. lia.
      * rewrite Hi1. intros Hin. apply in_seq in Hin. lia.
  - intros i s Hin. apply in_app_or in Hin. destruct Hin as [Hin|Hin].
    + exact (Hl1 i s Hin).
    + exact (Hl2 i s Hin).
  - rewrite Hi2. apply Forall_forall. intros i Hi. apply in_seq in Hi. lia.
Qed.

End RunnerFacts.

(** * Properties of the import resolver *)

Section ImportFacts.

Variable readFile : string -> Error + string.
Variable JSON_parse : string -> Error + json.
Variable in_message : json -> string.
Variable spread_message : option json -> string.

#[local] Abbreviation read_steps :=
  (read_steps readFile JSON_parse in_message spread_message).
#[local] Abbreviation import_loop :=
  (import_loop readFile JSON_parse in_message spread_message).
#[local] Abbreviation importSteps :=
  (importSteps readFile JSON_parse in_message spread_message).
#[local] Abbreviation expansion :=
  (expansion readFile JSON_parse in_message spread_message).


(** No [Step] has the tag of an import marker: the test
    [step.type != 'import'] separates the two members of the union. *)
Lemma StepType_tag_not_import t : (StepType_tag t =? "import")%string = false.
Proof. destruct t; reflexivity. Qed.

Lemma type_tag_import step :
  (type_tag step =? "import")%string = true <-> exists i, step = IsImport i.
Proof.
  destruct step as [i|s]; cbn.
  - split; [eauto | reflexivity].
  - rewrite StepType_tag_not_import. split; [discriminate | intros [i Hi]; discriminate].
Qed.

Lemma Step_value_not_marker s : is_import_marker (Step_value s) = false.
Proof. unfold is_import_marker, Step_value. cbn. apply StepType_tag_not_import. Qed.

Lemma import_loop_app before rest acc :
  import_loop (before ++ rest) acc
  = match import_loop before acc with
    | inr resolved => import_loop rest resolved
    | inl error => inl error
    end.
Proof.
  revert acc. induction before as [|[i|s] before IH]; intros acc; cbn.
  - reflexivity.
  - destruct (from i =? "file")%string; [|reflexivity].
    destruct (read_steps (target i)); [reflexivity | apply IH].
  - apply IH.
Qed.

Lemma import_loop_Steps l acc :
  import_loop (map IsStep l) acc = inr (acc ++ map Step_value l).
Proof.
  revert acc. induction l as [|s l IH]; intros acc; cbn.
  - now rewrite app_nil_r.
  - rewrite IH, <- app_assoc. reflexivity.
Qed.

(** A flow that resolves: every given element is replaced by its
    expansion, in place. *)
Lemma import_loop_resolved given acc resolved :
  import_loop given acc = inr resolved ->
  resolved = acc ++ flat_map expansion given.
Proof.
  revert acc. induction given as [|[i|s] given IH]; intros acc; cbn.
  - intros H. injection H as <-. now rewrite app_nil_r.
  - destruct (from i =? "file")%string; [|discriminate].
    destruct (read_steps (target i)) as [error|imported]; [discriminate|].
    intros H. apply IH in H. now rewrite H, app_assoc.
  - intros H. apply IH in H. now rewrite H, <- app_assoc.
Qed.

(** C3, amended.  The steps of a resolved flow are the given steps with
    every marker replaced, in place, by what its file holds; what comes
    from a file is appended as it is and not scanned again.  So no marker
    of the given flow is left, and the resolved flow has no import
    marker at all as soon as no imported array holds one. *)
Theorem importSteps_replaces_given_markers givenFlow resolvedFlow :
  importSteps givenFlow = inr resolvedFlow ->
  steps resolvedFlow = flat_map expansion (steps givenFlow)
  /\ ((forall i imported,
         In (IsImport i) (steps givenFlow) ->
         read_steps (target i) = inr imported ->
         Forall (fun v => is_import_marker v = false) imported) ->
      Forall (fun v => is_import_marker v = false) (steps resolvedFlow)).
Proof.
  unfold importSteps.
  destruct (import_loop (steps givenFlow) []) as [error|resolved] eqn:Hloop;
    [discriminate|].
  intros H. injection H as <-. cbn [steps].
  apply import_loop_resolved in Hloop. cbn [app] in Hloop. subst resolved.
  split; [reflexivity|].
  intros Himported. apply Forall_flat_map, Forall_forall.
  intros [i|s] Hin; cbn.
  - destruct (read_steps (target i)) as [error|imported] eqn:Hread;
      [constructor | now apply (Himported i)].
  - constructor; [apply Step_value_not_marker | constructor].
Qed.

(** C7.  A flow whose steps are ordinary steps, one marker for a file,
    and ordinary steps again, where the file parses to a value whose
    [steps] member is an array: the resolved steps are the steps before,
    the elements of the array in their order, and the steps after; the
    rest of the flow is unchanged. *)
Theorem importSteps_splices_file
  givenFlow before path after file jsonFile imported :
  steps givenFlow
  = map IsStep before
    ++ IsImport {| from := "file"; target := path |} :: map IsStep after ->
  readFile path = inr file ->
  JSON_parse file = inr jsonFile ->
  member "steps" jsonFile = Some (JArray imported) ->
  importSteps givenFlow
  = inr {| title := title givenFlow;
           timeout := timeout givenFlow;
           selectorAttribute := selectorAttribute givenFlow;
           steps := map Step_value before ++ imported ++ map Step_value after |}.
Proof.
  intros Hsteps Hread Hparse Hmember.
  assert (Hfile : read_steps path = inr imported).
  { unfold read_steps. rewrite Hread, Hparse.
    destruct jsonFile; try discriminate.
    cbn in Hmember |- *. now rewrite Hmember. }
  unfold importSteps. rewrite Hsteps, import_loop_app, import_loop_Steps.
  cbn. rewrite Hfile, import_loop_Steps, <- app_assoc. reflexivity.
Qed.


Lemma reading_Error_not_unsupported target error from :
  reading_Error target error <> unsupported_Error from.
Proof. unfold reading_Error, unsupported_Error, new_Error. cbn. congruence. Qed.

(** What the [try] block throws on a file that cannot be read, cannot
    be parsed, or has no [steps] member. *)
Lemma read_steps_fails path :
  (forall error, readFile path = inl error -> read_steps path = inl error)
  /\ (forall file error,
        readFile path = inr file -> JSON_parse file = inl error ->
        read_steps path = inl error)
  /\ (forall file jsonFile,
        readFile path = inr file -> JSON_parse file = inr jsonFile ->
        member "steps" jsonFile = None ->
        exists error,
          read_steps path = inl error
          /\ (error = no_steps_Error path
              \/ error = TypeError (in_message jsonFile))).
Proof.
  unfold read_steps. repeat split.
  - now intros error ->.
  - now intros file error -> ->.
  - intros file jsonFile -> -> Hmember.
    destruct jsonFile; cbn in Hmember |- *; rewrite ?Hmember; eauto.
Qed.

(** C8.  A marker is never skipped: a flow holding a marker whose
    source is not ['file'], or whose file does not yield steps, does not
    resolve.  When everything before the marker resolves, the error is
    the marker's own: for a source other than ['file'], the error of the
    [default] case, which names the source; for a file that cannot be
    read, cannot be parsed, or parses to a value without a [steps]
    member, the error of the [catch] block, whose message names the
    target and ends with the text of the underlying error.  The two
    errors are never equal. *)
Theorem importSteps_fails_on_bad_marker givenFlow before i after :
  steps givenFlow = before ++ IsImport i :: after ->
  ((from i <> "file"%string \/ exists error, read_steps (target i) = inl error) ->
   exists error, importSteps givenFlow = inl error)
  /\ (forall resolved, import_loop before [] = inr resolved ->
      (from i <> "file"%string ->
       importSteps givenFlow = inl (unsupported_Error (from i)))
      /\ (from i = "file"%string ->
          (forall error,
              readFile (target i) = inl error ->
              importSteps givenFlow = inl (reading_Error (target i) error))
          /\ (forall file error,
                 readFile (target i) = inr file ->
                 JSON_parse file = inl error ->
                 importSteps givenFlow = inl (reading_Error (target i) error))
          /\ (forall file jsonFile,
                 readFile (target i) = inr file ->
                 JSON_parse file = inr jsonFile ->
                 member "steps" jsonFile = None ->
                 exists error,
                   importSteps givenFlow = inl (reading_Error (target i) error)
                   /\ (error = no_steps_Error (target i)
                       \/ error = TypeError (in_message jsonFile)))))
  /\ (forall error,
        message (reading_Error (target i) error)
        = ("Error reading file: " ++ target i ++ newline ++ toString error)%string
        /\ reading_Error (target i) error <> unsupported_Error (from i)).
Proof.
  intros Hsteps.
  assert (Hfile : forall resolved error,
            import_loop before [] = inr resolved ->
            from i = "file"%string ->
            read_steps (target i) = inl error ->
            importSteps givenFlow = inl (reading_Error (target i) error)).
  { intros resolved error Hbefore Hfrom Hread.
    unfold importSteps. rewrite Hsteps, import_loop_app, Hbefore. cbn.
    now rewrite Hfrom, Hread. }
  assert (Hother : forall resolved,
            import_loop before [] = inr resolved ->
            from i <> "file"%string ->
            importSteps givenFlow = inl (unsupported_Error (from i))).
  { intros resolved Hbefore Hfrom.
    unfold importSteps. rewrite Hsteps, import_loop_app, Hbefore. cbn.
    apply String.eqb_neq in Hfrom. now rewrite Hfrom. }
  destruct (read_steps_fails (target i)) as (Hunread & Hunparsed & Hnosteps).
  split; [|split].
  - intros Hbad.
    destruct (import_loop before []) as [error|resolved] eqn:Hbefore.
    + exists error. unfold importSteps.
      now rewrite Hsteps, import_loop_app, Hbefore.
    + destruct (String.eqb_spec (from i) "file") as [Hfrom|Hfrom].
      * destruct Hbad as [Hbad|[error Hread]]; [contradiction|]. eauto.
      * eauto.
  - intros resolved Hbefore. split; [eauto|]. intros Hfrom. repeat split.
    + intros error Hread. eauto.
    + intros file error Hread Hparse. eauto.
    + intros file jsonFile Hread Hparse Hmember.
      destruct (Hnosteps file jsonFile Hread Hparse Hmember)
        as (error & Herror & Hkind).
      exists error. eauto.
  - intros error. split; [reflexivity | apply reading_Error_not_unsupported].
Qed.




End ImportFacts.

(** * Properties of [createRunner] and more of the resolver *)

Section CreateRunnerFacts.

Variable readFile : string -> Error + string.
Variable JSON_parse : string -> Error + json.
Variable in_message : json -> string.
Variable spread_message : option json -> string.
Variables (B Err : Type).
Variable launch : Error + RunnerExtension json B Err.

#[local] Abbreviation read_steps :=
  (read_steps readFile JSON_parse in_message spread_message).
#[local] Abbreviation import_loop :=
  (import_loop readFile JSON_parse in_message spread_message).
#[local] Abbreviation importSteps :=
  (importSteps readFile JSON_parse in_message spread_message).
#[local] Abbreviation expansion :=
  (expansion readFile JSON_parse in_message spread_message).
#[local] Abbreviation createRunner :=
  (createRunner readFile JSON_parse in_message spread_message launch).

Lemma no_marker_is_Step given :
  existsb (fun step => (type_tag step =? "import")%string) given = false ->
  Forall (fun step => exists s, step = IsStep s) given.
Proof.
  induction given as [|[i|s] given IH]; cbn; intros H.
  - constructor.
  - discriminate.
  - rewrite StepType_tag_not_import in H. constructor; eauto.
Qed.

Lemma import_loop_no_marker given acc :
  Forall (fun step => exists s, step = IsStep s) given ->
  import_loop given acc = inr (acc ++ map given_value given).
Proof.
  intros H. revert acc. induction H as [|step given [s ->] _ IH]; intros acc.
  - cbn. now rewrite app_nil_r.
  - cbn. rewrite IH, <- app_assoc. reflexivity.
Qed.

Lemma expansion_no_marker given :
  Forall (fun step => exists s, step = IsStep s) given ->
  flat_map expansion given = map given_value given.
Proof.
  induction 1 as [|step given [s ->] _ IH]; cbn; [reflexivity | now rewrite IH].
Qed.

Lemma importSteps_no_marker flow :
  existsb (fun step => (type_tag step =? "import")%string) (steps flow) = false ->
  importSteps flow = inr (as_UserFlow flow).
Proof.
  intros H. apply no_marker_is_Step in H.
  unfold importSteps. now rewrite import_loop_no_marker.
Qed.

(** X1.  [createRunner] gives the runner of the resolved flow whether or
    not it finds a marker: the test on [steps] only saves the call.  It
    fails with the error of the block that provides the extension when
    none is given and that block fails, without looking at the flow, and
    otherwise with the error of [importSteps]; when it succeeds the
    runner holds the resolved flow and the extension, with the cursor
    at 0. *)
Theorem createRunner_resolves_every_flow flow extension :
  createRunner flow extension
  = match (match extension with Some x => inr x | None => launch end) with
    | inl error => inl error
    | inr x =>
        match importSteps flow with
        | inr resolved =>
            inr {| flow := resolved; extension := x; nextStep := 0 |}
        | inl error => inl error
        end
    end.
Proof.
  unfold createRunner.
  destruct (match extension with Some x => inr x | None => launch end)
    as [error|x]; [reflexivity|].
  destruct (existsb _ (steps flow)) eqn:Hsome; [reflexivity|].
  now rewrite importSteps_no_marker.
Qed.

(** X2.  A flow without import marker resolves to itself, whatever the
    files hold: its steps are the given steps, and title, timeout and
    selector attribute are the given ones. *)
Theorem importSteps_leaves_plain_flow flow :
  (forall step, In step (steps flow) -> type_tag step <> "import"%string) ->
  importSteps flow = inr (as_UserFlow flow)
  /\ steps (as_UserFlow flow)
     = flat_map (fun step => match step with
                             | IsStep s => [Step_value s]
                             | IsImport _ => []
                             end) (steps flow).
Proof.
  intros H.
  assert (Hall : Forall (fun step => exists s, step = IsStep s) (steps flow)).
  { apply Forall_forall. intros [i|s] Hin; [|eauto].
    exfalso. now apply (H _ Hin). }
  clear H. split.
  - unfold importSteps. now rewrite import_loop_no_marker.
  - cbn [as_UserFlow steps].
    induction Hall as [|step given [s ->] _ IH]; cbn; [reflexivity|].
    now rewrite IH.
Qed.

Lemma run_steps_combine {Step} (r : Runner Step B Err) (l : list Step) c :
  run_steps (flat_map (fun '(i, s) => step_calls r i s)
               (combine (seq c (List.length l)) l)) = l.
Proof.
  revert c. induction l as [|s l IH]; intros c; [reflexivity|].
  cbn [List.length seq combine flat_map].
  now rewrite run_steps_app, run_steps_step_calls, IH.
Qed.

(** X3.  [createRunner] followed by [run()], on an extension that never
    rejects: [run] returns [true], and [runStep] has been handed, in
    order, every given step and, in place of every marker, every element
    of its file's [steps].  A marker that sits inside an imported file is
    handed to [runStep] like any other step. *)
Theorem createRunner_then_run givenFlow x r b res r' b' t :
  createRunner givenFlow (Some x) = inr r ->
  never_rejects x ->
  run None (r, b) = (res, (r', b'), t) ->
  res = Return true
  /\ run_steps t = flat_map expansion (steps givenFlow)
  /\ nextStep r' = List.length (flat_map expansion (steps givenFlow)).
Proof.
  intros Hcreate Hx Hrun.
  rewrite createRunner_resolves_every_flow in Hcreate.
  unfold importSteps in Hcreate.
  destruct (import_loop (steps givenFlow) []) as [error|resolved] eqn:Hloop;
    [discriminate|].
  apply import_loop_resolved in Hloop. cbn [app] in Hloop. subst resolved.
  injection Hcreate as Hr.
  assert (Hext : extension r = x) by now rewrite <- Hr.
  assert (Hzero : nextStep r = 0) by now rewrite <- Hr.
  assert (Hsteps : steps (flow r) = flat_map expansion (steps givenFlow))
    by now rewrite <- Hr.
  clear Hr. rewrite <- Hext in Hx.
  destruct (never_rejects_Return None r b res r' b' t Hx Hrun) as [v ->].
  apply run_Return in Hrun. cbv zeta in Hrun.
  destruct Hrun as (Hn & Hv & Ht).
  assert (Hend : loop_end r None = List.length (steps (flow r)))
    by (unfold loop_end; cbv zeta; lia).
  rewrite Hend in *. rewrite Nat.leb_refl in Hv. subst v.
  rewrite Hzero, Nat.sub_0_r in Ht.
  split; [reflexivity|]. split; [|now rewrite Hn, Hsteps].
  rewrite Ht, !run_steps_app.
  rewrite run_steps_opt_call by reflexivity.
  unfold opening_calls. rewrite Hzero. cbn [Nat.eqb].
  rewrite run_steps_opt_call by reflexivity.
  rewrite app_nil_r. cbn [app].
  rewrite all_step_calls_between. unfold all_step_calls.
  rewrite run_steps_combine. exact Hsteps.
Qed.

(** X4.  A file whose [steps] member is a string resolves: the spread
    appends one step per character of the string, each a one-character
    string, between the steps before and the steps after the marker. *)
Theorem importSteps_spreads_string
  givenFlow before path after file jsonFile text :
  steps givenFlow
  = map IsStep before
    ++ IsImport {| from := "file"; target := path |} :: map IsStep after ->
  readFile path = inr file ->
  JSON_parse file = inr jsonFile ->
  member "steps" jsonFile = Some (JString text) ->
  importSteps givenFlow
  = inr {| title := title givenFlow;
           timeout := timeout givenFlow;
           selectorAttribute := selectorAttribute givenFlow;
           steps := map Step_value before
                    ++ map (fun c => JString (String c EmptyString))
                         (list_ascii_of_string text)
                    ++ map Step_value after |}.
Proof.
  intros Hsteps Hread Hparse Hmember.
  assert (Hfile : read_steps path
                  = inr (map (fun c => JString (String c EmptyString))
                           (list_ascii_of_string text))).
  { unfold read_steps. rewrite Hread, Hparse.
    destruct jsonFile; try discriminate.
    cbn in Hmember |- *. now rewrite Hmember. }
  unfold importSteps. rewrite Hsteps, import_loop_app, import_loop_Steps.
  cbn. rewrite Hfile, import_loop_Steps, <- app_assoc. reflexivity.
Qed.

(** X5.  A file whose [steps] member is there but is neither an array
    nor a string (null, a number, a boolean, an object) does not
    resolve: the spread throws a [TypeError], and the flow fails with the
    error of the [catch] block that names the target and carries the
    text of that [TypeError]. *)
Theorem importSteps_fails_on_unspreadable_steps
  givenFlow before path after resolved file jsonFile v :
  steps givenFlow
  = before ++ IsImport {| from := "file"; target := path |} :: after ->
  import_loop before [] = inr resolved ->
  readFile path = inr file ->
  JSON_parse file = inr jsonFile ->
  member "steps" jsonFile = Some v ->
  (forall elements, v <> JArray elements) ->
  (forall text, v <> JString text) ->
  importSteps givenFlow
  = inl (reading_Error path (TypeError (spread_message (Some v))))
  /\ toString (TypeError (spread_message (Some v)))
     = (if (spread_message (Some v) =? "")%string then "TypeError"
        else "TypeError: " ++ spread_message (Some v))%string.
Proof.
  intros Hsteps Hbefore Hread Hparse Hmember Harray Hstring.
  assert (Hfile : read_steps path
                  = inl (TypeError (spread_message (Some v)))).
  { unfold read_steps. rewrite Hread, Hparse.
    destruct jsonFile; try discriminate.
    cbn in Hmember |- *. rewrite Hmember.
    destruct v; try reflexivity.
    - now destruct (Hstring s).
    - now destruct (Harray elements). }
  split.
  - unfold importSteps. rewrite Hsteps, import_loop_app, Hbefore.
    cbn. now rewrite Hfile.
  - unfold toString, TypeError. cbn.
    now destruct (spread_message (Some v) =? "")%string.
Qed.

End CreateRunnerFacts.

(** * More properties of [run] *)

Section RunnerMoreFacts.

Context {Step B Err : Type}.
#[local] Abbreviation Runner := (Runner Step B Err).
#[local] Abbreviation Call := (Call Step).

Implicit Types (r : Runner) (b : B) (t : list Call) (stepIdx : option Z).

#[local] Ltac settle_step :=
  unfold step_calls, opt_call, replay, perform, outcome, state_of; cbn;
  repeat match goal with
         | H : _ = _ |- _ => rewrite H; cbn
         end;
  try reflexivity; try discriminate.

(** One iteration of the loop: whether it throws, and where it leaves
    the backend, does not depend on what follows it. *)
Lemma iteration_cases r b step :
  (exists e p,
      forall k : M Step B Err unit,
        bind (await_opt (beforeEachStep (extension r))
                (BeforeEachStep (nextStep r) step) (fun h => h step (flow r)))
          (fun _ => bind (await (RunStep (nextStep r) step)
                            (runStep (extension r) step (flow r)))
          (fun _ => bind (await_opt (afterEachStep (extension r))
                            (AfterEachStep (nextStep r) step)
                            (fun h => h step (flow r)))
          (fun _ => bind incr_nextStep (fun _ => k)))) (r, b)
        = (Throw e, (r, replay r p b), p))
  \/ (forall k : M Step B Err unit,
        bind (await_opt (beforeEachStep (extension r))
                (BeforeEachStep (nextStep r) step) (fun h => h step (flow r)))
          (fun _ => bind (await (RunStep (nextStep r) step)
                            (runStep (extension r) step (flow r)))
          (fun _ => bind (await_opt (afterEachStep (extension r))
                            (AfterEachStep (nextStep r) step)
                            (fun h => h step (flow r)))
          (fun _ => bind incr_nextStep (fun _ => k)))) (r, b)
        = preceded_by (step_calls r (nextStep r) step)
            (k ({| flow := flow r; extension := extension r;
                   nextStep := S (nextStep r) |},
                replay r (step_calls r (nextStep r) step) b))).
Proof.
  unfold await_opt.
  destruct (beforeEachStep (extension r)) as [hb|] eqn:Hb.
  - destruct (hb step (flow r) b) as [b1|e b1] eqn:E1.
    + destruct (runStep (extension r) step (flow r) b1) as [b2|e b2] eqn:E2.
      * destruct (afterEachStep (extension r)) as [ha|] eqn:Ha.
        -- destruct (ha step (flow r) b2) as [b3|e b3] eqn:E3.
           ++ right. intros k.
              rewrite (bind_await_Fulfilled _ _ _ _ _ _ E1),
                (bind_await_Fulfilled _ _ _ _ _ _ E2),
                (bind_await_Fulfilled _ _ _ _ _ _ E3), bind_incr.
              rewrite !preceded_by_app. settle_step.
           ++ left. exists e, [BeforeEachStep (nextStep r) step; RunStep (nextStep r) step; AfterEachStep (nextStep r) step].
              intros k.
              rewrite (bind_await_Fulfilled _ _ _ _ _ _ E1),
                (bind_await_Fulfilled _ _ _ _ _ _ E2),
                (bind_await_Rejected _ _ _ _ _ _ _ E3).
              settle_step.
        -- right. intros k.
           rewrite (bind_await_Fulfilled _ _ _ _ _ _ E1),
             (bind_await_Fulfilled _ _ _ _ _ _ E2), bind_ret, bind_incr.
           rewrite !preceded_by_app. settle_step.
      * left. exists e, [BeforeEachStep (nextStep r) step; RunStep (nextStep r) step].
              intros k.
        rewrite (bind_await_Fulfilled _ _ _ _ _ _ E1),
          (bind_await_Rejected _ _ _ _ _ _ _ E2).
        settle_step.
    + left. exists e, [BeforeEachStep (nextStep r) step].
              intros k.
      rewrite (bind_await_Rejected _ _ _ _ _ _ _ E1). settle_step.
  - destruct (runStep (extension r) step (flow r) b) as [b2|e b2] eqn:E2.
    + destruct (afterEachStep (extension r)) as [ha|] eqn:Ha.
      * destruct (ha step (flow r) b2) as [b3|e b3] eqn:E3.
        -- right. intros k.
           rewrite bind_ret, (bind_await_Fulfilled _ _ _ _ _ _ E2),
             (bind_await_Fulfilled _ _ _ _ _ _ E3), bind_incr.
           rewrite !preceded_by_app. settle_step.
        -- left. exists e, [RunStep (nextStep r) step; AfterEachStep (nextStep r) step].
              intros k.
           rewrite bind_ret, (bind_await_Fulfilled _ _ _ _ _ _ E2),
             (bind_await_Rejected _ _ _ _ _ _ _ E3).
           settle_step.
      * right. intros k.
        rewrite bind_ret, (bind_await_Fulfilled _ _ _ _ _ _ E2), bind_ret,
          bind_incr.
        settle_step.
    + left. exists e, [RunStep (nextStep r) step].
              intros k.
      rewrite bind_ret, (bind_await_Rejected _ _ _ _ _ _ _ E2). settle_step.
Qed.

Lemma run_loop_S fuel idx (w : Runner * B) :
  run_loop (S fuel) idx w
  = bind get_this (fun this =>
      if (Z.of_nat (nextStep this) <? idx)%Z
         && (nextStep this <? List.length (steps (flow this)))
      then
        match nth_error (steps (flow this)) (nextStep this) with
        | Some step =>
            bind (await_opt (beforeEachStep (extension this))
                    (BeforeEachStep (nextStep this) step)
                    (fun h => h step (flow this)))
              (fun _ => bind (await (RunStep (nextStep this) step)
                                (runStep (extension this) step (flow this)))
              (fun _ => bind (await_opt (afterEachStep (extension this))
                                (AfterEachStep (nextStep this) step)
                                (fun h => h step (flow this)))
              (fun _ => bind incr_nextStep (fun _ => run_loop fuel idx))))
        | None => ret tt
        end
      else ret tt) w.
Proof. reflexivity. Qed.

(** More fuel than the loop needs changes nothing. *)
Lemma run_loop_one_more fuel idx r b :
  List.length (steps (flow r)) - nextStep r <= fuel ->
  run_loop (S fuel) idx (r, b) = run_loop fuel idx (r, b).
Proof.
  revert r b. induction fuel as [|fuel IH]; intros r b Hfuel.
  - rewrite run_loop_S, bind_get_this. cbn [fst].
    replace (nextStep r <? List.length (steps (flow r))) with false
      by (symmetry; apply Nat.ltb_ge; lia).
    now rewrite andb_false_r.
  - rewrite (run_loop_S (S fuel)), (run_loop_S fuel), !bind_get_this.
    cbn [fst].
    destruct (_ && _) eqn:Htest; [|reflexivity].
    destruct (nth_error _ _) as [step|]; [|reflexivity].
    destruct (iteration_cases r b step) as [(e & p & Hthrow) | Hnext].
    + now rewrite !Hthrow.
    + rewrite !Hnext. f_equal. apply IH. cbn [flow nextStep].
      apply andb_true_iff in Htest as [_ Hlen]. apply Nat.ltb_lt in Hlen. lia.
Qed.

Lemma run_loop_enough fuel idx r b :
  List.length (steps (flow r)) - nextStep r <= fuel ->
  run_loop fuel idx (r, b)
  = run_loop (List.length (steps (flow r)) - nextStep r) idx (r, b).
Proof.
  intros Hfuel.
  replace fuel
    with ((fuel - (List.length (steps (flow r)) - nextStep r))
          + (List.length (steps (flow r)) - nextStep r)) by lia.
  induction (fuel - (List.length (steps (flow r)) - nextStep r)) as [|n IH];
    [reflexivity|].
  cbn [Nat.add]. rewrite run_loop_one_more by lia. exact IH.
Qed.

(** The loop of [run(m)] passes through the state in which the loop of
    [run(k)] stops, for [k <= m]. *)
Lemma run_loop_split fuel k m r b r1 b1 t1 :
  List.length (steps (flow r)) - nextStep r <= fuel ->
  (k <= m)%Z ->
  run_loop fuel k (r, b) = (Return tt, (r1, b1), t1) ->
  run_loop fuel m (r, b) = preceded_by t1 (run_loop fuel m (r1, b1)).
Proof.
  revert r b t1. induction fuel as [|fuel IH]; intros r b t1 Hfuel Hkm Hk.
  - cbn in Hk. injection Hk as <- <- <-. now rewrite preceded_by_nil.
  - rewrite run_loop_S, bind_get_this in Hk. cbn [fst] in Hk.
    destruct ((Z.of_nat (nextStep r) <? k)%Z
              && (nextStep r <? List.length (steps (flow r)))) eqn:Htest.
    + apply andb_true_iff in Htest as [Hlt Hlen].
      apply Nat.ltb_lt in Hlen.
      assert (Htest' : (Z.of_nat (nextStep r) <? m)%Z
                       && (nextStep r <? List.length (steps (flow r))) = true).
      { apply andb_true_iff. split; [|now apply Nat.ltb_lt].
        apply Z.ltb_lt in Hlt. apply Z.ltb_lt. lia. }
      rewrite (run_loop_S fuel m (r, b)), bind_get_this. cbn [fst].
      rewrite Htest'.
      destruct (nth_error (steps (flow r)) (nextStep r)) as [step|] eqn:Hnth.
      2:{ apply nth_error_None in Hnth. lia. }
      destruct (iteration_cases r b step) as [(e & p & Hthrow) | Hnext].
      * rewrite Hthrow in Hk. discriminate.
      * rewrite Hnext in Hk. rewrite Hnext.
        destruct (run_loop fuel k _) as [[res [r2 b2]] t2] eqn:Hrest.
        cbn in Hk. injection Hk as -> -> -> <-.
        pose proof Hrest as Hspec.
        apply run_loop_spec in Hspec; [|cbn [flow nextStep]; lia].
        destruct Hspec as (Hf2 & _ & _ & Hn2 & _). cbn [flow nextStep] in Hf2, Hn2.
        apply IH in Hrest;
          [|cbn [flow nextStep]; lia|assumption].
        rewrite Hrest, preceded_by_app. f_equal.
        symmetry. apply run_loop_one_more.
        pose proof (loop_end_le {| flow := flow r; extension := extension r;
                                   nextStep := S (nextStep r) |} (Some k)) as Hle.
        cbn [nextStep] in Hle. rewrite Hf2. lia.
    + rewrite bind_ret in Hk || idtac. cbn in Hk.
      injection Hk as <- <- <-. now rewrite preceded_by_nil.
Qed.

Lemma bind_preceded_by {A C} (m m' : M Step B Err A) (k : A -> M Step B Err C)
  (w w' : Runner * B) t :
  m w = preceded_by t (m' w') ->
  bind m k w = preceded_by t (bind m' k w').
Proof.
  intros H. unfold bind. rewrite H.
  destruct (m' w') as [[[a|e] w1] t1]; cbn; [|reflexivity].
  now rewrite preceded_by_app.
Qed.

(** [run] after its [beforeAllSteps] part. *)
Let rest (idx : Z) : M Step B Err bool :=
  bind get_this (fun this =>
    bind (run_loop (List.length (steps (flow this)) - nextStep this) idx)
      (fun _ => bind get_this (fun this =>
         if List.length (steps (flow this)) <=? nextStep this
         then bind (await_opt (afterAllSteps (extension this)) AfterAllSteps
                      (fun h => h (flow this)))
                (fun _ => ret true)
         else ret false))).

Lemma rest_split k m r b r1 b1 t1 :
  (k <= m)%Z ->
  rest k (r, b) = (Return false, (r1, b1), t1) ->
  rest m (r, b) = preceded_by t1 (rest m (r1, b1)).
Proof.
  intros Hkm Hk. unfold rest in *.
  rewrite bind_get_this in Hk. cbn [fst] in Hk. unfold bind at 1 in Hk.
  destruct (run_loop _ k (r, b)) as [[[[]|e] [r1' b1']] t] eqn:Hloop;
    [|discriminate].
  pose proof Hloop as Hspec. apply run_loop_spec in Hspec; [|lia].
  destruct Hspec as (Hf & _ & _ & Hn & _).
  rewrite bind_get_this in Hk. cbn [fst] in Hk.
  destruct (List.length (steps (flow r1')) <=? nextStep r1') eqn:Hdone.
  { unfold await_opt in Hk.
    destruct (afterAllSteps (extension r1')) as [h|].
    - destruct (h (flow r1') b1') as [b2|e2 b2] eqn:E.
      + rewrite (bind_await_Fulfilled _ _ _ _ _ _ E) in Hk. discriminate.
      + rewrite (bind_await_Rejected _ _ _ _ _ _ _ E) in Hk. discriminate.
    - rewrite bind_ret in Hk. discriminate. }
  cbn in Hk. injection Hk as -> -> <-. rewrite app_nil_r.
  rewrite !bind_get_this. cbn [fst].
  apply bind_preceded_by.
  rewrite (run_loop_split _ k m r b r1 b1 t); [|lia|assumption|assumption].
  f_equal. apply run_loop_enough.
  pose proof (loop_end_le r (Some k)). rewrite Hf. lia.
Qed.

(** X6.  Stopping on the way changes nothing: when [run(k)] has
    returned [false] with the cursor past 0, a further call of [run]
    with no argument, or with an argument that is at least [k], ends as
    the same call would have ended in place of [run(k)], in the same
    state of the runner and of the backend, and the calls of the two
    calls together are the calls that single call would have made. *)
Theorem run_upTo_then_further k stepIdx r b r1 b1 t1 res r2 b2 t2 :
  run (Some k) (r, b) = (Return false, (r1, b1), t1) ->
  0 < nextStep r1 ->
  match stepIdx with
  | None => True
  | Some m => (k <= m)%Z
  end ->
  run stepIdx (r1, b1) = (res, (r2, b2), t2) ->
  run stepIdx (r, b) = (res, (r2, b2), t1 ++ t2).
Proof.
  intros H1 Hpos Hkm H2.
  destruct (run_spec _ _ _ _ _ _ _ H1) as (Hf & _ & _ & _).
  pose proof (run_Return _ _ _ _ _ _ _ H1) as Hret. cbv zeta in Hret.
  destruct Hret as (Hn1 & Hv & _).
  symmetry in Hv. apply Nat.leb_gt in Hv.
  set (idx := match stepIdx with
              | Some i => i
              | None => Z.of_nat (List.length (steps (flow r)))
              end).
  assert (Hidx : (k <= idx)%Z).
  { unfold idx. destruct stepIdx; [assumption|].
    unfold loop_end in Hv; cbv zeta in Hv. lia. }
  assert (Hsecond : rest idx (r1, b1) = (res, (r2, b2), t2)).
  { unfold run in H2. rewrite bind_get_this in H2. cbn [fst] in H2.
    destruct (Nat.eqb_spec (nextStep r1) 0) as [Hz|_]; [lia|].
    rewrite bind_ret, Hf in H2. exact H2. }
  assert (Hgoal : forall b0 t0,
            rest k (r, b0) = (Return false, (r1, b1), t0) ->
            rest idx (r, b0) = (res, (r2, b2), t0 ++ t2)).
  { intros b0 t0 H. rewrite (rest_split k idx r b0 r1 b1 t0 Hidx H), Hsecond.
    reflexivity. }
  unfold run in H1 |- *. rewrite bind_get_this in H1.
  rewrite bind_get_this. cbn [fst] in H1 |- *.
  change (bind
            (if nextStep r =? 0
             then await_opt (beforeAllSteps (extension r)) BeforeAllSteps
                    (fun h => h (flow r))
             else ret tt)
            (fun _ => rest k) (r, b) = (Return false, (r1, b1), t1)) in H1.
  change (bind
            (if nextStep r =? 0
             then await_opt (beforeAllSteps (extension r)) BeforeAllSteps
                    (fun h => h (flow r))
             else ret tt)
            (fun _ => rest idx) (r, b) = (res, (r2, b2), t1 ++ t2)).
  destruct (nextStep r =? 0).
  - unfold await_opt in H1 |- *.
    destruct (beforeAllSteps (extension r)) as [h|].
    + destruct (h (flow r) b) as [b0|e0 b0] eqn:E.
      * rewrite (bind_await_Fulfilled _ _ _ _ _ _ E) in H1.
        rewrite (bind_await_Fulfilled _ _ _ _ _ _ E).
        destruct (rest k (r, b0)) as [[res1 w1] t0] eqn:Hk.
        cbn [preceded_by] in H1. injection H1 as -> -> <-.
        now rewrite (Hgoal b0 t0 Hk).
      * rewrite (bind_await_Rejected _ _ _ _ _ _ _ E) in H1. discriminate.
    + rewrite bind_ret in H1. rewrite bind_ret. now apply Hgoal.
  - rewrite bind_ret in H1. rewrite bind_ret. now apply Hgoal.
Qed.

Lemma run_keeps_bound stepIdx r b res r' b' t :
  nextStep r <= List.length (steps (flow r)) ->
  run stepIdx (r, b) = (res, (r', b'), t) ->
  nextStep r <= nextStep r' <= List.length (steps (flow r)).
Proof.
  intros Hle H.
  pose proof (run_flow_hooks _ _ _ _ _ _ _ H) as (_ & _ & _ & _ & Hmono).
  split; [assumption|].
  apply run_spec in H. destruct H as (_ & _ & _ & Hshape).
  assert (Hend : loop_end r stepIdx <= List.length (steps (flow r)))
    by (unfold loop_end; cbv zeta; destruct stepIdx; lia).
  inversion Hshape as [e0 Hz Hh | e0 j0 p q Hj Hpq Hp | | | e0 Hdone Hh];
    subst; lia.
Qed.

Lemma run_all_keeps_bound args r b records r' b' :
  nextStep r <= List.length (steps (flow r)) ->
  run_all args (r, b) = (records, (r', b')) ->
  nextStep r' <= List.length (steps (flow r)).
Proof.
  revert r b records. induction args as [|stepIdx args IH];
    intros r b records Hle H.
  - injection H as <- <- <-. assumption.
  - rewrite run_all_cons in H.
    destruct (run stepIdx (r, b)) as [[res [r1 b1]] t] eqn:Hrun.
    destruct (run_all args (r1, b1)) as [records1 [r2 b2]] eqn:Hrest.
    injection H as <- <- <-.
    destruct (run_spec _ _ _ _ _ _ _ Hrun) as (Hf & _ & _ & _).
    apply run_keeps_bound in Hrun; [|assumption].
    apply IH in Hrest; rewrite Hf in *; [assumption | lia].
Qed.

(** X7.  Whatever calls of [run] a runner has been through, returning
    or throwing, its flow and its extension are the ones it was built
    with and its cursor is between 0 and the number of steps; a further
    call does not move the cursor back, and when it returns, it returns
    [true] exactly when the cursor has reached the number of steps. *)
Theorem run_returns_whether_complete
  args (f : UserFlow Step) (x : RunnerExtension Step B Err) b0 records r b
  stepIdx res r' b' t :
  run_all args (new_Runner f x, b0) = (records, (r, b)) ->
  run stepIdx (r, b) = (res, (r', b'), t) ->
  flow r' = f /\ extension r' = x
  /\ nextStep r <= nextStep r' <= List.length (steps f)
  /\ (forall v, res = Return v ->
        (v = true <-> nextStep r' = List.length (steps f))).
Proof.
  intros Hall Hrun.
  destruct (run_all_keeps _ _ _ _ _ _ Hall) as (Hf & Hx & _).
  apply run_all_keeps_bound in Hall; [|cbn; lia].
  change (flow (new_Runner f x)) with f in *.
  change (extension (new_Runner f x)) with x in *.
  destruct (run_spec _ _ _ _ _ _ _ Hrun) as (Hf' & Hx' & _ & _).
  pose proof (run_keeps_bound _ _ _ _ _ _ _ ltac:(rewrite Hf; exact Hall) Hrun)
    as Hbound.
  rewrite Hf in Hbound.
  split; [congruence|]. split; [congruence|]. split; [lia|].
  intros v ->. apply run_Return in Hrun. cbv zeta in Hrun.
  destruct Hrun as (Hn & Hv & _). rewrite <- Hn, Hf in Hv.
  split.
  - intros ->. symmetry in Hv. apply Nat.leb_le in Hv. lia.
  - intros Hn'. rewrite Hn', Nat.leb_refl in Hv. exact Hv.
Qed.

End RunnerMoreFacts.

(** * Properties of the command-line helpers *)

Module CLIUtilsFacts.

Import CLIUtils.

(** *** [getHeadlessEnvVar] *)

Lemma lower_idempotent c : lower (lower c) = lower c.
Proof. destruct c as [[] [] [] [] [] [] [] []]; reflexivity. Qed.

Lemma toLowerCase_idempotent s : toLowerCase (toLowerCase s) = toLowerCase s.
Proof.
  induction s as [|c s IH]; cbn; [reflexivity|].
  now rewrite lower_idempotent, IH.
Qed.

Lemma toLowerCase_empty s : (toLowerCase s =? "")%string = (s =? "")%string.
Proof. now destruct s. Qed.

(** X8.  [getHeadlessEnvVar] does not look at letter case: two values
    with the same lower-case form get the same answer, be it a value or
    the error; in particular a value and its lower-case form do. *)
Theorem getHeadlessEnvVar_ignores_case s s' :
  toLowerCase s = toLowerCase s' ->
  getHeadlessEnvVar (Some s) = getHeadlessEnvVar (Some s')
  /\ getHeadlessEnvVar (Some (toLowerCase s)) = getHeadlessEnvVar (Some s).
Proof.
  intros H. unfold getHeadlessEnvVar.
  rewrite toLowerCase_idempotent, toLowerCase_empty.
  rewrite <- (toLowerCase_empty s), <- (toLowerCase_empty s'), H.
  split; reflexivity.
Qed.

Lemma getHeadlessEnvVar_cases s :
  s <> ""%string ->
  ((toLowerCase s = "1" \/ toLowerCase s = "true")%string
   /\ getHeadlessEnvVar (Some s) = inr (Plain true))
  \/ (toLowerCase s = "chrome"%string
      /\ getHeadlessEnvVar (Some s) = inr Chrome)
  \/ ((toLowerCase s = "0" \/ toLowerCase s = "false")%string
      /\ getHeadlessEnvVar (Some s) = inr (Plain false))
  \/ (~ In (toLowerCase s) ["1"; "true"; "chrome"; "0"; "false"]%string
      /\ getHeadlessEnvVar (Some s)
         = inl (new_Error "PUPPETEER_HEADLESS: unrecognized value")).
Proof.
  intros Hne. unfold getHeadlessEnvVar.
  destruct (String.eqb_spec s "") as [He|_]; [contradiction|]. cbv zeta.
  destruct (String.eqb_spec (toLowerCase s) "1") as [H1|H1]; [auto|].
  destruct (String.eqb_spec (toLowerCase s) "true") as [H2|H2]; [auto|].
  destruct (String.eqb_spec (toLowerCase s) "chrome") as [H3|H3]; [auto|].
  destruct (String.eqb_spec (toLowerCase s) "0") as [H4|H4]; [auto 6|].
  destruct (String.eqb_spec (toLowerCase s) "false") as [H5|H5]; [auto 6|].
  right. right. right. split; [|reflexivity].
  cbn. intuition congruence.
Qed.

(** X9.  What each answer of [getHeadlessEnvVar] means.  It is [true]
    exactly for no value, the empty value, and the values that read 1 or
    true; ['chrome'] exactly for the values that read chrome; [false]
    exactly for the values that read 0 or false; and every other value
    is refused with the one error, never defaulted. *)
Theorem getHeadlessEnvVar_answers headless :
  (getHeadlessEnvVar headless = inr (Plain true) <->
   headless = None \/ headless = Some ""%string
   \/ exists s, headless = Some s
                /\ (toLowerCase s = "1" \/ toLowerCase s = "true")%string)
  /\ (getHeadlessEnvVar headless = inr Chrome <->
      exists s, headless = Some s /\ toLowerCase s = "chrome"%string)
  /\ (getHeadlessEnvVar headless = inr (Plain false) <->
      exists s, headless = Some s
                /\ (toLowerCase s = "0" \/ toLowerCase s = "false")%string)
  /\ (forall error,
        getHeadlessEnvVar headless = inl error <->
        error = new_Error "PUPPETEER_HEADLESS: unrecognized value"
        /\ exists s, headless = Some s /\ s <> ""%string
                     /\ ~ In (toLowerCase s)
                          ["1"; "true"; "chrome"; "0"; "false"]%string).
Proof.
  destruct headless as [s|].
  2:{ cbn. repeat split; try discriminate; auto;
        try (intros (s & Hs & _); discriminate);
        try (intros (_ & s & Hs & _); discriminate). }
  destruct (String.eqb_spec s "") as [->|Hne].
  { cbn. repeat split; try discriminate; auto;
      try (intros (s & Hs & [Hl|Hl]); injection Hs as <-; discriminate);
      try (intros (s & Hs & Hl); injection Hs as <-; discriminate).
    intros (_ & s & Hs & Hs' & _). congruence. }
  destruct (getHeadlessEnvVar_cases s Hne)
    as [[Hl ->]|[[Hl ->]|[[Hl ->]|[Hl ->]]]].
  all: repeat match goal with |- _ /\ _ => split | |- forall _, _ => intro end.
  all: split; intro H;
    repeat match goal with
      | H : _ /\ _ |- _ => destruct H
      | H : exists _, _ |- _ => destruct H
      | H : Some _ = Some _ |- _ => injection H as H; subst
      | H : inl _ = inl _ |- _ => injection H as H; subst
      end;
    try discriminate; try congruence; try reflexivity.
  all: try (destruct Hl; congruence).
  all: try (exfalso; cbn in *; intuition congruence).
  all: try solve [eauto 8].
  all: try (destruct H as [H|[H|H]]; [discriminate | congruence |];
            destruct H as (s' & Hs & Hl'); injection Hs as <-;
            exfalso; cbn in *; intuition congruence).
  all: try (destruct H as (s' & Hs & Hl'); injection Hs as <-;
            exfalso; cbn in *; intuition congruence).
  all: try (split; [reflexivity|]; exists s; auto).
Qed.

(** *** [getRecordingPaths] *)

Section RecordingPathsFacts.

Variable lstatSync : string -> Error + bool.
Variable readdirSync : string -> Error + list string.
Variable extname : string -> string.
Variable join : string -> string -> string.

#[local] Abbreviation getJSONFilesFromFolder :=
  (getJSONFilesFromFolder readdirSync extname join).
#[local] Abbreviation getRecordingPaths_loop :=
  (getRecordingPaths_loop lstatSync readdirSync extname join).
#[local] Abbreviation getRecordingPaths :=
  (getRecordingPaths lstatSync readdirSync extname join).

(** What one given path contributes. *)
Lemma getRecordingPaths_loop_cons path rest log acc console :
  getRecordingPaths_loop (path :: rest) log acc console
  = match lstatSync path with
    | inl err =>
        getRecordingPaths_loop rest log acc
          (if log
           then console
                ++ [{| text := "Couldn't find file/folder: " ++ path;
                       argument := Some err |}]
           else console)
    | inr true =>
        match getJSONFilesFromFolder path with
        | inl error => (inl error, console)
        | inr filesInFolder =>
            getRecordingPaths_loop rest log (acc ++ filesInFolder)
              (if (List.length filesInFolder =? 0) && log
               then console
                    ++ [{| text := "There is no recordings in: " ++ path;
                           argument := None |}]
               else console)
        end
    | inr false => getRecordingPaths_loop rest log (acc ++ [path]) console
    end.
Proof. reflexivity. Qed.

(** The loop started on what an earlier part has built. *)
Lemma getRecordingPaths_loop_from paths log acc console :
  getRecordingPaths_loop paths log acc console
  = match getRecordingPaths_loop paths log [] [] with
    | (inr found, written) => (inr (acc ++ found), console ++ written)
    | (inl error, written) => (inl error, console ++ written)
    end.
Proof.
  revert acc console. induction paths as [|path rest IH]; intros acc console.
  - cbn. now rewrite !app_nil_r.
  - rewrite !getRecordingPaths_loop_cons.
    destruct (lstatSync path) as [err|[|]].
    + rewrite (IH acc).
      rewrite (IH [] (if log
                      then [] ++ [{| text := "Couldn't find file/folder: " ++ path;
                                     argument := Some err |}]
                      else [])).
      destruct (getRecordingPaths_loop rest log [] []) as [[error|found] written];
        destruct log; cbn; rewrite <- ?app_assoc; reflexivity.
    + destruct (getJSONFilesFromFolder path) as [error|files].
      * now rewrite app_nil_r.
      * rewrite (IH (acc ++ files)).
        rewrite (IH ([] ++ files)
                   (if (List.length files =? 0) && log
                    then [] ++ [{| text := "There is no recordings in: " ++ path;
                                   argument := None |}]
                    else [])).
        destruct (getRecordingPaths_loop rest log [] []) as [[error|found] written];
          destruct (_ && _); cbn; rewrite <- ?app_assoc; reflexivity.
    + rewrite (IH (acc ++ [path])). rewrite (IH ([] ++ [path]) []).
      destruct (getRecordingPaths_loop rest log [] []) as [[error|found] written];
        cbn; rewrite <- ?app_assoc; reflexivity.
Qed.

Lemma getRecordingPaths_loop_app paths1 paths2 log acc console :
  getRecordingPaths_loop (paths1 ++ paths2) log acc console
  = match getRecordingPaths_loop paths1 log acc console with
    | (inr found, written) => getRecordingPaths_loop paths2 log found written
    | (inl error, written) => (inl error, written)
    end.
Proof.
  revert acc console. induction paths1 as [|path rest IH]; intros acc console.
  - reflexivity.
  - cbn [app]. rewrite !getRecordingPaths_loop_cons.
    destruct (lstatSync path) as [err|[|]]; try apply IH.
    destruct (getJSONFilesFromFolder path); [reflexivity | apply IH].
Qed.

(** X10.  [getRecordingPaths] works path by path: for two lists one
    after the other it finds what it finds for the first followed by
    what it finds for the second, and writes what it writes for the
    first followed by what it writes for the second; when a folder of
    the first list cannot be listed, that error is thrown and the second
    list is not looked at. *)
Theorem getRecordingPaths_app paths1 paths2 log :
  getRecordingPaths (paths1 ++ paths2) log
  = match getRecordingPaths paths1 log with
    | (inr found1, written1) =>
        match getRecordingPaths paths2 log with
        | (inr found2, written2) =>
            (inr (found1 ++ found2), written1 ++ written2)
        | (inl error, written2) => (inl error, written1 ++ written2)
        end
    | (inl error, written1) => (inl error, written1)
    end.
Proof.
  unfold getRecordingPaths. rewrite getRecordingPaths_loop_app.
  destruct (getRecordingPaths_loop paths1 _ [] []) as [[error|found1] written1];
    [reflexivity|].
  now rewrite getRecordingPaths_loop_from.
Qed.

Lemma getRecordingPaths_loop_log paths log acc console console' :
  fst (getRecordingPaths_loop paths log acc console)
  = fst (getRecordingPaths_loop paths false acc console').
Proof.
  revert acc console console'.
  induction paths as [|path rest IH]; intros acc console console'.
  - reflexivity.
  - rewrite !getRecordingPaths_loop_cons.
    destruct (lstatSync path) as [err|[|]]; try apply IH.
    destruct (getJSONFilesFromFolder path) as [error|files];
      [reflexivity | apply IH].
Qed.

Lemma getRecordingPaths_loop_quiet paths acc console :
  snd (getRecordingPaths_loop paths false acc console) = console.
Proof.
  revert acc console. induction paths as [|path rest IH]; intros acc console.
  - reflexivity.
  - rewrite getRecordingPaths_loop_cons.
    destruct (lstatSync path) as [err|[|]]; try apply IH.
    destruct (getJSONFilesFromFolder path) as [error|files]; [reflexivity|].
    rewrite andb_false_r. apply IH.
Qed.

(** X11.  The [log] flag only decides what is written: the paths found,
    or the error thrown, are the same with and without it, and without
    it nothing is written at all. *)
Theorem getRecordingPaths_log paths log :
  fst (getRecordingPaths paths log) = fst (getRecordingPaths paths (Some false))
  /\ snd (getRecordingPaths paths (Some false)) = [].
Proof.
  unfold getRecordingPaths. split.
  - apply getRecordingPaths_loop_log.
  - apply getRecordingPaths_loop_quiet.
Qed.

Lemma getRecordingPaths_loop_found paths log found written :
  getRecordingPaths_loop paths log [] [] = (inr found, written) ->
  found
  = flat_map (fun path =>
                match lstatSync path with
                | inl _ => []
                | inr false => [path]
                | inr true =>
                    match readdirSync path with
                    | inl _ => []
                    | inr files =>
                        map (fun file => join path file)
                          (filter (fun file => (extname file =? ".json")%string)
                             files)
                    end
                end) paths.
Proof.
  revert found written. induction paths as [|path rest IH]; intros found written.
  - cbn. now intros [= <- _].
  - rewrite getRecordingPaths_loop_cons. cbn [flat_map].
    unfold CLIUtils.getJSONFilesFromFolder.
    destruct (lstatSync path) as [err|[|]].
    + rewrite getRecordingPaths_loop_from.
      destruct (getRecordingPaths_loop rest log [] []) as [[e|l] w] eqn:Hrest;
        [discriminate|].
      intros [= <- _]. now rewrite (IH l w eq_refl).
    + destruct (readdirSync path) as [error|files]; [discriminate|].
      rewrite getRecordingPaths_loop_from.
      destruct (getRecordingPaths_loop rest log [] []) as [[e|l] w] eqn:Hrest;
        [discriminate|].
      intros [= <- _]. now rewrite (IH l w eq_refl).
    + rewrite getRecordingPaths_loop_from.
      destruct (getRecordingPaths_loop rest log [] []) as [[e|l] w] eqn:Hrest;
        [discriminate|].
      intros [= <- _]. now rewrite (IH l w eq_refl).
Qed.

(** X12.  What [getRecordingPaths] finds, when it returns.  A path is
    found exactly when it is a given path that exists and is not a
    folder (it is kept as given, whatever its extension), or the join of
    a given folder with one of its entries whose extension is [.json].
    A given path that does not exist contributes nothing. *)
Theorem getRecordingPaths_finds paths log found :
  fst (getRecordingPaths paths log) = inr found ->
  forall p,
    In p found <->
    (In p paths /\ lstatSync p = inr false)
    \/ (exists folder files file,
           In folder paths /\ lstatSync folder = inr true
           /\ readdirSync folder = inr files
           /\ In file files /\ extname file = ".json"%string
           /\ p = join folder file).
Proof.
  unfold getRecordingPaths. intros H p.
  destruct (getRecordingPaths_loop paths _ [] []) as [res written] eqn:Hloop.
  cbn in H. subst res. apply getRecordingPaths_loop_found in Hloop.
  rewrite Hloop, in_flat_map. split.
  - intros (path & Hpath & Hin).
    destruct (lstatSync path) as [err|[|]] eqn:Hstat; [contradiction| |].
    + destruct (readdirSync path) as [error|files] eqn:Hdir; [contradiction|].
      apply in_map_iff in Hin. destruct Hin as (file & <- & Hfile).
      apply filter_In in Hfile. destruct Hfile as [Hfile Hext].
      apply String.eqb_eq in Hext.
      right. exists path, files, file. auto 8.
    + destruct Hin as [<-|[]]. left. auto.
  - intros [[Hin Hstat] | (folder & files & file & Hin & Hstat & Hdir & Hfile & Hext & ->)].
    + exists p. rewrite Hstat. split; [assumption | now left].
    + exists folder. rewrite Hstat, Hdir. split; [assumption|].
      apply in_map. apply filter_In. split; [assumption|].
      now apply String.eqb_eq.
Qed.

(** X13.  A given path that cannot be stat-ed is passed over: the call
    goes on as if the path had not been given.  A given folder that
    cannot be listed is not: when everything before it goes through, the
    error of [readdirSync] is thrown out of [getRecordingPaths]. *)
Theorem getRecordingPaths_missing_and_unlistable before path after log :
  (forall err,
      lstatSync path = inl err ->
      fst (getRecordingPaths (before ++ path :: after) log)
      = fst (getRecordingPaths (before ++ after) log))
  /\ (forall error found,
        fst (getRecordingPaths before log) = inr found ->
        lstatSync path = inr true ->
        readdirSync path = inl error ->
        fst (getRecordingPaths (before ++ path :: after) log) = inl error).
Proof.
  split.
  - intros err Hstat.
    rewrite (proj1 (getRecordingPaths_log _ log)).
    rewrite (proj1 (getRecordingPaths_log (before ++ after) log)).
    unfold getRecordingPaths. rewrite !getRecordingPaths_loop_app.
    destruct (getRecordingPaths_loop before false [] []) as [[e|l] w];
      [reflexivity|].
    rewrite getRecordingPaths_loop_cons, Hstat.
    apply getRecordingPaths_loop_log.
  - intros error found Hbefore Hstat Hdir.
    unfold getRecordingPaths in *. rewrite getRecordingPaths_loop_app.
    destruct (getRecordingPaths_loop before _ [] []) as [res w].
    cbn in Hbefore. subst res.
    rewrite getRecordingPaths_loop_cons, Hstat.
    unfold CLIUtils.getJSONFilesFromFolder. now rewrite Hdir.
Qed.

End RecordingPathsFacts.

End CLIUtilsFacts.

(** * Properties of the status report *)

Module StatusReportFacts.
Import CLIUtils.

Lemma append_empty_r (s : string) : (s ++ "")%string = s.
Proof. induction s as [|c s IH]; cbn; [reflexivity | now rewrite IH]. Qed.

Lemma append_associative (s1 s2 s3 : string) :
  ((s1 ++ s2) ++ s3)%string = (s1 ++ s2 ++ s3)%string.
Proof. induction s1 as [|c s1 IH]; cbn; [reflexivity | now rewrite IH]. Qed.

Lemma array_set_next {A} (done rest : list (option A)) (v : A) :
  array_set (List.length done) v (done ++ rest) = (done ++ [Some v]) ++ tl rest.
Proof.
  unfold array_set. rewrite length_app.
  destruct rest as [|x rest]; cbn [List.length tl].
  - rewrite Nat.add_0_r, Nat.ltb_irrefl, Nat.sub_diag, app_nil_r.
    cbn. now rewrite app_nil_r.
  - assert (Hlt : (List.length done <? List.length done + S (List.length rest)) = true)
      by (apply Nat.ltb_lt; lia).
    rewrite Hlt.
    rewrite firstn_app, Nat.sub_diag, firstn_all. cbn [firstn].
    rewrite app_nil_r.
    rewrite skipn_app.
    replace (S (List.length done) - List.length done) with 1 by lia.
    rewrite skipn_all2 by lia. cbn.
    now rewrite <- app_assoc.
Qed.

Lemma nth_error_indexed {A B} (g : nat * A -> B) (l : list A) :
  forall k i,
    nth_error (map g (combine (seq k (List.length l)) l)) i
    = option_map (fun a => g (k + i, a)) (nth_error l i).
Proof.
  induction l as [|a l IH]; intros k i; cbn.
  - now destruct i.
  - destruct i as [|i]; cbn.
    + now rewrite Nat.add_0_r.
    + rewrite IH. now rewrite Nat.add_succ_r.
Qed.

Lemma length_indexed {A B} (g : nat * A -> B) (l : list A) (k : nat) :
  List.length (map g (combine (seq k (List.length l)) l)) = List.length l.
Proof.
  rewrite length_map, length_combine, length_seq. lia.
Qed.

Lemma map_indexed_same {A} (g : nat * A -> A) (l : list A) :
  (forall i a, g (i, a) = a) ->
  forall k, map g (combine (seq k (List.length l)) l) = l.
Proof.
  intros Hg. induction l as [|a l IH]; intros k; cbn; [reflexivity|].
  now rewrite Hg, IH.
Qed.

Lemma at_index_nat {A} (l : list A) (i : nat) :
  at_index l (Z.of_nat i) = nth_error l i.
Proof.
  unfold at_index.
  destruct (Z.ltb_spec (Z.of_nat i) 0); [lia|]. now rewrite Nat2Z.id.
Qed.

Lemma at_index_Some {A} (l : list A) (index : Z) (a : A) :
  at_index l index = Some a ->
  exists i, index = Z.of_nat i /\ nth_error l i = Some a.
Proof.
  unfold at_index. destruct (Z.ltb_spec index 0); [discriminate|].
  intros H'. exists (Z.to_nat index). split; [lia | exact H'].
Qed.

Section StatusReportFacts.

Variable now : nat -> Z.
Variables bgYellow bgGreen bgRed : string -> string.
Variable error_heading : string.
Variable relative : string -> string.
Variable number_toString : Z -> string.
Variable table_toString : list (option (list string)) -> string.
Variable Value : Type.
Variable stack_of : Value -> option string.
Variable import_extension : string -> option Value.
Variable attempt : Options -> nat -> string -> Attempt Value.
Variable close : nat -> option Value.

#[local] Abbreviation row_of :=
  (row_of bgYellow bgGreen bgRed relative number_toString).
#[local] Abbreviation set_results :=
  (set_results bgYellow bgGreen bgRed relative number_toString).
#[local] Abbreviation new_StatusReport :=
  (new_StatusReport now bgYellow bgGreen bgRed relative number_toString).
#[local] Abbreviation drawTable := (drawTable error_heading table_toString).
#[local] Abbreviation update :=
  (update now bgYellow bgGreen bgRed error_heading relative number_toString
     table_toString).
#[local] Abbreviation perform_all :=
  (perform_all now bgYellow bgGreen bgRed error_heading relative
     number_toString table_toString).
#[local] Abbreviation report_after :=
  (report_after now bgYellow bgGreen bgRed error_heading relative
     number_toString table_toString).
#[local] Abbreviation error_text := (error_text error_heading).
#[local] Abbreviation error_texts := (error_texts error_heading).

(** The result [update] puts at [index] in place of [r]. *)
Let modified (r : Result) (edit : Change) (w : World) : Result :=
  {| startedAt :=
       if is_file edit then now (reads w) else startedAt (with_change r edit);
     file := file (with_change r edit);
     finishedAt := now (if is_file edit then S (reads w) else reads w);
     success :=
       if is_file edit then Running else success (with_change r edit);
     title := title (with_change r edit) |}.

(** The rows the setter writes, one after the other from index [k]. *)
Lemma rows_from (results : list Result) :
  forall done rest,
    fold_left (fun tbl '(index, result) => array_set index (row_of result) tbl)
      (combine (seq (List.length done) (List.length results)) results)
      (done ++ rest)
    = done ++ map (fun r => Some (row_of r)) results
        ++ skipn (List.length results) rest.
Proof.
  induction results as [|r results IH]; intros done rest.
  - reflexivity.
  - cbn [List.length seq combine fold_left].
    rewrite array_set_next.
    replace (S (List.length done)) with (List.length (done ++ [Some (row_of r)]))
      by (rewrite length_app; cbn; lia).
    rewrite IH. rewrite <- app_assoc. cbn [map app].
    f_equal. f_equal. f_equal.
    destruct rest; [now rewrite skipn_nil | reflexivity].
Qed.

Lemma set_results_table (this : StatusReport) (results : list Result) :
  List.length (table this) <= List.length results ->
  table (set_results this results) = map (fun r => Some (row_of r)) results.
Proof.
  intros Hlen. cbn [set_results CLIUtils.set_results table].
  pose proof (rows_from results [] (table this)) as Hrows.
  cbn [List.length app] in Hrows. rewrite Hrows.
  rewrite skipn_all2 by exact Hlen. now rewrite app_nil_r.
Qed.

Lemma drawTable_keeps (this : StatusReport) (w : World) :
  table (fst (drawTable this w)) = table this
  /\ results_ (fst (drawTable this w)) = results_ this
  /\ log (fst (drawTable this w)) = log this.
Proof.
  unfold CLIUtils.drawTable.
  destruct (errors this); cbn zeta;
    match goal with |- context [if ?c then _ else _] => destruct c end;
    cbn; auto.
Qed.

Lemma fold_error_text (l : list Failure) :
  forall s,
    fold_left (fun text f => (text ++ error_text f)%string) l s
    = (s ++ error_texts l)%string.
Proof.
  induction l as [|f l IH]; intros s; cbn.
  - now rewrite append_empty_r.
  - rewrite IH. now rewrite append_associative.
Qed.

Lemma error_texts_app (l1 l2 : list Failure) :
  error_texts (l1 ++ l2) = (error_texts l1 ++ error_texts l2)%string.
Proof.
  induction l1 as [|f l1 IH]; cbn; [reflexivity|].
  fold (error_texts (l1 ++ l2)). fold (error_texts l1).
  rewrite IH. now rewrite append_associative.
Qed.

Lemma drawTable_error_text (this : StatusReport) (w : World) :
  (errorString (fst (drawTable this w))
   ++ error_texts (errors (fst (drawTable this w))))%string
  = (errorString this ++ error_texts (errors this))%string.
Proof.
  unfold CLIUtils.drawTable.
  destruct (errors this) as [|f l] eqn:He; cbn zeta;
    match goal with |- context [if ?c then _ else _] => destruct c end;
    cbn [fst errorString errors]; rewrite ?He; try reflexivity;
    rewrite fold_error_text; cbn; now rewrite append_empty_r.
Qed.

Lemma get_results_drawTable (this : StatusReport) (w : World) :
  get_results (fst (drawTable this w)) = get_results this.
Proof.
  unfold get_results.
  now destruct (drawTable_keeps this w) as (_ & -> & _).
Qed.

(** The results [update] hands to the setter. *)
Let updated (this : StatusReport) (index : Z) (edit : Change) (w : World)
  : list Result :=
  map (fun '(i, result) =>
         if negb (index =? Z.of_nat i)%Z then result
         else match at_index (get_results this) index with
              | Some r => modified r edit w
              | None => result
              end)
    (combine (seq 0 (List.length (get_results this))) (get_results this)).

(** [update] in one piece: the clock is read once or twice, the setter
    is called, and the table is drawn if [log] is on. *)
Lemma update_unfold (this : StatusReport) (index : Z) (edit : Change)
  (w : World) :
  update this index edit w
  = let w2 := {| reads := if is_file edit then S (S (reads w)) else S (reads w);
                 written := written w |} in
    if log this
    then drawTable (set_results this (updated this index edit w)) w2
    else (set_results this (updated this index edit w), w2).
Proof.
  assert (Hsame : forall (l1 l2 : list Result) w2,
             l1 = l2 ->
             (if log this then drawTable (set_results this l1) w2
              else (set_results this l1, w2))
             = (if log this then drawTable (set_results this l2) w2
                else (set_results this l2, w2)))
    by (intros l1 l2 w2 ->; reflexivity).
  unfold CLIUtils.update, updated, modified.
  destruct (is_file edit); cbn [new_Date CLIUtils.new_Date];
    cbn [log CLIUtils.set_results reads written];
    apply Hsame; apply map_ext; intros [i result];
    destruct (at_index (get_results this) index); reflexivity.
Qed.

Lemma length_updated (this : StatusReport) (index : Z) (edit : Change)
  (w : World) :
  List.length (updated this index edit w) = List.length (get_results this).
Proof. apply length_indexed. Qed.

Lemma update_results (this : StatusReport) (index : Z) (edit : Change)
  (w : World) :
  get_results (fst (update this index edit w)) = updated this index edit w.
Proof.
  rewrite update_unfold. cbn zeta.
  destruct (log this); [rewrite get_results_drawTable|]; reflexivity.
Qed.

Lemma update_table (this : StatusReport) (index : Z) (edit : Change)
  (w : World) :
  table this = map (fun r => Some (row_of r)) (get_results this) ->
  table (fst (update this index edit w))
  = map (fun r => Some (row_of r)) (get_results (fst (update this index edit w))).
Proof.
  intros Htable. rewrite update_results.
  assert (Hset : table (set_results this (updated this index edit w))
                 = map (fun r => Some (row_of r)) (updated this index edit w)).
  { apply set_results_table.
    rewrite length_updated, Htable, length_map. apply le_n. }
  rewrite update_unfold. cbn zeta.
  destruct (log this); [|exact Hset].
  destruct (drawTable_keeps (set_results this (updated this index edit w))
              {| reads := if is_file edit then S (S (reads w)) else S (reads w);
                 written := written w |}) as (-> & _).
  exact Hset.
Qed.

Lemma update_error_text (this : StatusReport) (index : Z) (edit : Change)
  (w : World) :
  (errorString (fst (update this index edit w))
   ++ error_texts (errors (fst (update this index edit w))))%string
  = (errorString this ++ error_texts (errors this))%string.
Proof.
  rewrite update_unfold. cbn zeta.
  destruct (log this); [rewrite drawTable_error_text|]; reflexivity.
Qed.

Lemma update_log (this : StatusReport) (index : Z) (edit : Change)
  (w : World) :
  log (fst (update this index edit w)) = log this.
Proof.
  rewrite update_unfold. cbn zeta.
  destruct (log this) eqn:Hlog; [|exact Hlog].
  destruct (drawTable_keeps (set_results this (updated this index edit w))
              {| reads := if is_file edit then S (S (reads w)) else S (reads w);
                 written := written w |}) as (_ & _ & ->).
  exact Hlog.
Qed.

Lemma update_quiet (this : StatusReport) (index : Z) (edit : Change)
  (w : World) :
  log this = false ->
  errorString (fst (update this index edit w)) = errorString this
  /\ errors (fst (update this index edit w)) = errors this
  /\ written (snd (update this index edit w)) = written w.
Proof.
  intros Hlog. rewrite update_unfold. cbn zeta. rewrite Hlog.
  repeat split.
Qed.

(** The three invariants of a report, over whatever is done to it. *)
Lemma perform_all_invariants (actions : list Action) :
  forall this w,
    table this = map (fun r => Some (row_of r)) (get_results this) ->
    table (fst (perform_all actions this w))
    = map (fun r => Some (row_of r)) (get_results (fst (perform_all actions this w)))
    /\ List.length (get_results (fst (perform_all actions this w)))
       = List.length (get_results this)
    /\ (errorString (fst (perform_all actions this w))
        ++ error_texts (errors (fst (perform_all actions this w))))%string
       = (errorString this ++ error_texts (errors this ++ pushed actions))%string
    /\ log (fst (perform_all actions this w)) = log this
    /\ (log this = false ->
        errorString (fst (perform_all actions this w)) = errorString this
        /\ errors (fst (perform_all actions this w)) = errors this ++ pushed actions
        /\ written (snd (perform_all actions this w)) = written w).
Proof.
  induction actions as [|[index edit|f] actions IH]; intros this w Htable.
  - cbn. rewrite app_nil_r. repeat split; auto.
  - cbn [CLIUtils.perform_all pushed flat_map app].
    destruct (update this index edit w) as [this1 w1] eqn:Hupdate.
    pose proof (update_table this index edit w Htable) as Htable1.
    pose proof (update_results this index edit w) as Hresults.
    pose proof (update_error_text this index edit w) as Htext.
    pose proof (update_log this index edit w) as Hlog.
    pose proof (update_quiet this index edit w) as Hquiet.
    rewrite Hupdate in Htable1, Hresults, Htext, Hlog, Hquiet.
    cbn [fst snd] in Htable1, Hresults, Htext, Hlog, Hquiet.
    destruct (IH this1 w1 Htable1) as (H1 & H2 & H3 & H4 & H5).
    split; [exact H1|].
    split; [now rewrite H2, Hresults, length_updated|].
    split.
    { rewrite H3. rewrite !error_texts_app, <- !append_associative.
      now rewrite Htext. }
    split; [now rewrite H4|].
    intros Hoff. destruct (Hquiet Hoff) as (Q1 & Q2 & Q3).
    rewrite Hoff in Hlog. destruct (H5 Hlog) as (R1 & R2 & R3).
    now rewrite R1, R2, R3, Q1, Q2, Q3.
  - cbn [CLIUtils.perform_all pushed flat_map].
    destruct (IH (push_error this f) w Htable) as (H1 & H2 & H3 & H4 & H5).
    split; [exact H1|].
    split; [exact H2|].
    split.
    { rewrite H3. cbn [push_error errorString errors].
      now rewrite <- app_assoc. }
    split; [exact H4|].
    intros Hoff. destruct (H5 Hoff) as (R1 & R2 & R3).
    rewrite R1, R2, R3. cbn [push_error errorString errors].
    now rewrite <- app_assoc.
Qed.

Lemma length_initial_results (files : list string) :
  forall w, List.length (fst (initial_results now files w)) = List.length files.
Proof.
  induction files as [|f files IH]; intros w; cbn; [reflexivity|].
  specialize (IH {| reads := S (S (reads w)); written := written w |}).
  destruct (initial_results now files _) as [results w3].
  cbn in *. now rewrite IH.
Qed.


Lemma report_after_unfold (files : list string) (l : option bool)
  (actions : list Action) (w : World) :
  report_after files l actions w
  = perform_all actions
      (set_results
         {| errors := []; table := []; results_ := None; errorString := "";
            log := match l with Some b => b | None => false end |}
         (fst (initial_results now files w)))
      (snd (initial_results now files w)).
Proof.
  unfold CLIUtils.report_after, CLIUtils.new_StatusReport.
  now destruct (initial_results now files w).
Qed.

Lemma report_after_invariants (files : list string) (l : option bool)
  (actions : list Action) (w : World) :
  table (fst (report_after files l actions w))
  = map (fun r => Some (row_of r))
      (get_results (fst (report_after files l actions w)))
  /\ List.length (get_results (fst (report_after files l actions w)))
     = List.length (fst (initial_results now files w)).
Proof.
  rewrite report_after_unfold.
  set (this := set_results _ _).
  assert (Htable : table this = map (fun r => Some (row_of r)) (get_results this)).
  { unfold this. apply set_results_table. cbn. apply Nat.le_0_l. }
  destruct (perform_all_invariants actions this
              (snd (initial_results now files w)) Htable) as (H1 & H2 & _).
  split; [exact H1|]. now rewrite H2.
Qed.

(** X14.  Whatever is done to a status report after it is built for
    [files], by any number of calls of [update], each with any index,
    any key and a value of the type of that key's member, and of pushes
    to [errors], it has one result per file, and its table has exactly
    one row per result, in order, with no hole: the row the setter
    computes from that result.  (A call with a value of another type
    can throw in the setter and leave a row behind; no such call is
    among the actions.) *)
Theorem report_table_mirrors_results (files : list string) (l : option bool)
  (actions : list Action) (w : World) :
  List.length (get_results (fst (report_after files l actions w)))
  = List.length files
  /\ table (fst (report_after files l actions w))
     = map (fun r => Some (row_of r))
         (get_results (fst (report_after files l actions w))).
Proof.
  destruct (report_after_invariants files l actions w) as [Htable Hlength].
  split; [|exact Htable].
  rewrite Hlength. apply length_initial_results.
Qed.

(** X15.  [update] changes at most the result at [index]: the number of
    results and every result at another index stay as they were, and
    with an [index] that is not the index of a result (negative, or past
    the end) the results are unchanged altogether.  The clock is read
    all the same: twice for the key [file], once otherwise. *)
Theorem update_changes_one_result (this : StatusReport) (index : Z)
  (edit : Change) (w : World) :
  List.length (get_results (fst (update this index edit w)))
  = List.length (get_results this)
  /\ (forall i, Z.of_nat i <> index ->
        nth_error (get_results (fst (update this index edit w))) i
        = nth_error (get_results this) i)
  /\ (at_index (get_results this) index = None ->
      get_results (fst (update this index edit w)) = get_results this)
  /\ reads (snd (update this index edit w))
     = (if is_file edit then 2 else 1) + reads w.
Proof.
  rewrite update_results.
  split; [apply length_updated|].
  split.
  { intros i Hi. unfold updated. rewrite nth_error_indexed.
    destruct (nth_error (get_results this) i) as [r|]; [|reflexivity].
    cbn [option_map Nat.add].
    destruct (Z.eqb_spec index (Z.of_nat i)) as [->|_]; [congruence|reflexivity]. }
  split.
  { intros Hnone. unfold updated. rewrite Hnone.
    apply map_indexed_same. intros i a.
    now destruct (index =? Z.of_nat i)%Z. }
  rewrite update_unfold. cbn zeta.
  destruct (log this).
  - unfold CLIUtils.drawTable.
    destruct (errors _); cbn zeta;
      match goal with |- context [if forallb ?f ?l then _ else _] =>
        destruct (forallb f l) end;
      cbn; now destruct (is_file edit).
  - cbn. now destruct (is_file edit).
Qed.

(** X16.  The result [update] leaves at [index] always has the time of
    the last reading of the clock as [finishedAt], whatever the key and
    the value; so a value given for the key [finishedAt] is never
    stored, and two such calls that differ only in that value do the
    same.  For the key [file] the result is also restarted: [startedAt]
    is the time read first and [success] is [undefined]. *)
Theorem update_stamps_finishedAt (this : StatusReport) (index : Z)
  (edit : Change) (w : World) (r : Result) :
  at_index (get_results this) index = Some r ->
  (exists r',
      at_index (get_results (fst (update this index edit w))) index = Some r'
      /\ finishedAt r' = now (reads (snd (update this index edit w)) - 1)
      /\ (forall f, edit = set_file f ->
            file r' = f /\ startedAt r' = now (reads w)
            /\ success r' = Running /\ title r' = title r)
      /\ (forall v, edit = set_finishedAt v ->
            startedAt r' = startedAt r /\ file r' = file r
            /\ success r' = success r /\ title r' = title r))
  /\ (forall v v',
        update this index (set_finishedAt v) w
        = update this index (set_finishedAt v') w).
Proof.
  intros Hr. split.
  - destruct (update_changes_one_result this index edit w) as (_ & _ & _ & ->).
    rewrite update_results.
    destruct (at_index_Some _ _ _ Hr) as (i & -> & Hi).
    exists (modified r edit w).
    split.
    { rewrite at_index_nat. unfold updated. rewrite nth_error_indexed.
      rewrite Hi. cbn [option_map Nat.add].
      rewrite Z.eqb_refl. cbn [negb].
      now rewrite at_index_nat, Hi. }
    split.
    { unfold modified. cbn [finishedAt].
      destruct (is_file edit); f_equal; lia. }
    split; intros v ->; cbn; auto.
  - intros v v'. rewrite !update_unfold. cbn zeta.
    assert (Hsame : updated this index (set_finishedAt v) w
                    = updated this index (set_finishedAt v') w).
    { unfold updated. apply map_ext. intros [i result].
      now destruct (at_index (get_results this) index). }
    now rewrite Hsame.
Qed.


Lemma createStatusReport_rows (results : list Result) :
  forall table,
    fold_left
      (fun table result =>
         table ++ [Some [title result;
                         match success result with
                         | Finished true => bgGreen " Success "
                         | _ => bgRed " Failure "
                         end;
                         relative (file result);
                         (number_toString
                            (if (finishedAt result - startedAt result =? 0)%Z
                             then 0%Z
                             else (finishedAt result - startedAt result)%Z)
                          ++ "ms")%string]])
      results table
    = table
      ++ map (fun result =>
                Some [title result;
                      match success result with
                      | Finished true => bgGreen " Success "
                      | _ => bgRed " Failure "
                      end;
                      relative (file result);
                      (number_toString
                         (if (finishedAt result - startedAt result =? 0)%Z
                          then 0%Z
                          else (finishedAt result - startedAt result)%Z)
                       ++ "ms")%string]) results.
Proof.
  induction results as [|r results IH]; intros table; cbn [fold_left map].
  - now rewrite app_nil_r.
  - rewrite IH. now rewrite <- app_assoc.
Qed.

(** X18.  The two tables agree once a status report is complete: if
    every result of a report is finished and none has finished before
    it started, the table [createStatusReport] builds from the results
    is the table of the report.  (For a result that is pending or
    running, or whose duration is negative, the rows differ.) *)
Theorem createStatusReport_matches_report (files : list string)
  (l : option bool) (actions : list Action) (w : World) :
  (forall r, In r (get_results (fst (report_after files l actions w))) ->
     (exists ok, success r = Finished ok) /\ (startedAt r <= finishedAt r)%Z) ->
  createStatusReport bgGreen bgRed relative number_toString
    (get_results (fst (report_after files l actions w)))
  = table (fst (report_after files l actions w)).
Proof.
  intros Hdone.
  destruct (report_after_invariants files l actions w) as [-> _].
  unfold CLIUtils.createStatusReport. cbn zeta.
  rewrite createStatusReport_rows. cbn [app].
  apply map_ext_in. intros r Hr.
  destruct (Hdone r Hr) as [[ok Hok] Hle].
  unfold CLIUtils.row_of. cbn zeta. rewrite Hok.
  destruct (Z.eqb_spec (finishedAt r - startedAt r) 0) as [_|_];
    [now destruct ok|].
  destruct (Z.leb_spec 0 (finishedAt r - startedAt r)); [|lia].
  now destruct ok.
Qed.

(** ** [runFiles] *)

#[local] Abbreviation runFiles_iteration :=
  (runFiles_iteration now bgYellow bgGreen bgRed error_heading relative
     number_toString table_toString stack_of attempt close).
#[local] Abbreviation runFiles_loop :=
  (runFiles_loop now bgYellow bgGreen bgRed error_heading relative
     number_toString table_toString stack_of attempt close).
#[local] Abbreviation runFiles :=
  (runFiles now bgYellow bgGreen bgRed error_heading relative
     number_toString table_toString stack_of import_extension attempt close).
#[local] Abbreviation outcome_of := (outcome_of attempt).
#[local] Abbreviation failures := (failures stack_of attempt).
#[local] Abbreviation failure_of := (failure_of stack_of).

(** What an edit does to what a result shows. *)
Let edited (edit : Change) (v : string * string * Success)
  : string * string * Success :=
  match edit, v with
  | set_file f, (_, t, _) => (f, t, Running)
  | set_title t, (f, _, s) => (f, t, s)
  | set_success s, (f, t, _) => (f, t, s)
  | _, _ => v
  end.

(** The effect on a report of operations that concern the result at
    index [i]: that result shows [g] of what it showed, the entries [p]
    have been pushed to [errors], and nothing else has changed. *)
Let effect (i : nat) (g : string * string * Success -> string * string * Success)
  (p : list Failure) (this this' : StatusReport) : Prop :=
  List.length (get_results this') = List.length (get_results this)
  /\ (forall j, j <> i ->
        nth_error (get_results this') j = nth_error (get_results this) j)
  /\ (forall r, nth_error (get_results this) i = Some r ->
        exists r', nth_error (get_results this') i = Some r'
                   /\ shown r' = g (shown r))
  /\ (errorString this' ++ error_texts (errors this'))%string
     = (errorString this ++ error_texts (errors this ++ p))%string
  /\ log this' = log this
  /\ (table this = map (fun r => Some (row_of r)) (get_results this) ->
      table this' = map (fun r => Some (row_of r)) (get_results this')).

Lemma effect_update (this : StatusReport) (i : nat) (edit : Change) (w : World) :
  effect i (edited edit) [] this (fst (update this (Z.of_nat i) edit w)).
Proof.
  unfold effect. rewrite update_results, app_nil_r.
  split; [apply length_updated|].
  split.
  { intros j Hj. unfold updated. rewrite nth_error_indexed.
    destruct (nth_error (get_results this) j) as [r|]; [|reflexivity].
    cbn [option_map Nat.add].
    destruct (Z.eqb_spec (Z.of_nat i) (Z.of_nat j)) as [E|_]; [lia|reflexivity]. }
  split.
  { intros r Hr. exists (modified r edit w). split.
    - unfold updated. rewrite nth_error_indexed, Hr. cbn [option_map Nat.add].
      rewrite Z.eqb_refl. cbn [negb]. now rewrite at_index_nat, Hr.
    - unfold modified, shown, edited. now destruct edit. }
  split; [apply update_error_text|].
  split; [apply update_log|].
  intros Htable. rewrite <- update_results. now apply update_table.
Qed.

Lemma effect_push (this : StatusReport) (i : nat) (f : Failure) :
  effect i (fun v => v) [f] this (push_error this f).
Proof.
  unfold effect. cbn [push_error get_results results_ errors errorString log table].
  repeat split; auto.
  intros r Hr. now exists r.
Qed.

Lemma effect_trans i g1 g2 p1 p2 (this1 this2 this3 : StatusReport) :
  effect i g1 p1 this1 this2 -> effect i g2 p2 this2 this3 ->
  effect i (fun v => g2 (g1 v)) (p1 ++ p2) this1 this3.
Proof.
  intros (L1 & O1 & E1 & T1 & G1 & R1) (L2 & O2 & E2 & T2 & G2 & R2).
  unfold effect.
  split; [congruence|].
  split; [intros j Hj; now rewrite O2, O1|].
  split.
  { intros r Hr. destruct (E1 r Hr) as (r1 & Hr1 & S1).
    destruct (E2 r1 Hr1) as (r2 & Hr2 & S2).
    exists r2. split; [exact Hr2|]. now rewrite S2, S1. }
  split.
  { rewrite T2. rewrite !error_texts_app in *.
    rewrite <- !append_associative. rewrite T1.
    now rewrite !append_associative. }
  split; [congruence|].
  auto.
Qed.

Lemma effect_titled (i : nat) (t : string) (result : Result)
  (this : StatusReport) (w : World) :
  effect i (edited (set_title t)) [] this
    (fst (snd (titled now bgYellow bgGreen bgRed error_heading relative
                 number_toString table_toString i t result this w)))
  /\ shown (fst (titled now bgYellow bgGreen bgRed error_heading relative
                   number_toString table_toString i t result this w))
     = (file result, t, success result).
Proof.
  unfold titled. cbn [fst snd shown file title success].
  split; [apply effect_update | reflexivity].
Qed.

Lemma effect_catch (i : nat) (f : string) (result : Result) (error : Value)
  (this : StatusReport) (w : World) :
  effect i (edited (set_success (Finished false)))
    [{| stack := stack_of error; failed_file := f |}] this
    (fst (snd (catch now bgYellow bgGreen bgRed error_heading relative
                 number_toString table_toString stack_of i f result error this w)))
  /\ shown (fst (catch now bgYellow bgGreen bgRed error_heading relative
                   number_toString table_toString stack_of i f result error this w))
     = (file result, title result, Finished false).
Proof.
  unfold catch. cbn [fst snd shown file title success].
  split; [|reflexivity].
  apply (effect_trans i (fun v => v) (edited (set_success (Finished false)))
           [_] [] _ _ _ (effect_push this i _) (effect_update _ i _ w)).
Qed.

(** One iteration of [runFiles]: it adds one result for the file, the
    report shows the outcome of the attempt at the index of the file
    and is otherwise as it was, and [close] is called if a browser has
    been assigned in this iteration or before. *)
Lemma runFiles_iteration_spec (opts : Options) (index : nat) (f : string)
  (s : Batch) :
  (exists r,
      results (snd (runFiles_iteration opts index f s)) = results s ++ [r]
      /\ shown r = outcome_of opts index f)
  /\ effect index
       (fun v => (f, match attempt opts index f with
                    | unreadable _ => snd (fst v)
                    | a => title_of a
                    end,
                  Finished (is_passed (attempt opts index f))))
       (failure_of f (attempt opts index f))
       (statusReport s) (statusReport (snd (runFiles_iteration opts index f s)))
  /\ fst (runFiles_iteration opts index f s)
     = (if browser (snd (runFiles_iteration opts index f s))
        then close index else None)
  /\ browser (snd (runFiles_iteration opts index f s))
     = browser s
       || match attempt opts index f with
          | failed _ _ | passed _ => true
          | _ => false
          end.
Proof.
  unfold CLIUtils.runFiles_iteration, CLIUtils.outcome_of.
  cbn [new_Date CLIUtils.new_Date reads written].
  set (w2 := {| reads := S (S (reads (world s))); written := written (world s) |}).
  pose proof (effect_update (statusReport s) index (set_file f) w2) as E0.
  destruct (update (statusReport s) (Z.of_nat index) (set_file f) w2)
    as [report1 w3].
  cbn [fst] in E0.
  set (result := {| startedAt := now (reads (world s)); file := f;
                    finishedAt := now (S (reads (world s)));
                    success := Finished true; title := "" |}).
  destruct (attempt opts index f) as [e|t e|t e|t].
  - pose proof (effect_catch index f result e report1 w3) as [E1 S1].
    destruct (catch _ _ _ _ _ _ _ _ _ _ _ _ _ _ _) as [result1 [report2 w4]].
    cbn [fst snd] in E1, S1. cbn [fst snd results statusReport browser].
    split; [eexists; split; [reflexivity | exact S1]|].
    split; [|split; reflexivity].
    pose proof (effect_trans _ _ _ _ _ _ _ _ E0 E1) as E.
    destruct E as (L & O & E & T & G & R).
    repeat split; auto.
  - pose proof (effect_titled index t result report1 w3) as [E1 S1].
    destruct (titled _ _ _ _ _ _ _ _ _ _ _ _ _) as [result1 [report2 w4]].
    cbn [fst snd] in E1, S1.
    pose proof (effect_catch index f result1 e report2 w4) as [E2 S2].
    destruct (catch _ _ _ _ _ _ _ _ _ _ _ _ _ _ _) as [result2 [report3 w5]].
    cbn [fst snd] in E2, S2. cbn [fst snd results statusReport browser].
    split.
    { eexists; split; [reflexivity|]. unfold shown in *. cbn.
      injection S1 as F1 T1 _. injection S2 as F2 T2 U2.
      cbn [is_passed title_of]. congruence. }
    split; [|split; reflexivity].
    pose proof (effect_trans _ _ _ _ _ _ _ _
                  (effect_trans _ _ _ _ _ _ _ _ E0 E1) E2) as E.
    destruct E as (L & O & E & T & G & R).
    repeat split; auto.
  - pose proof (effect_titled index t result report1 w3) as [E1 S1].
    destruct (titled _ _ _ _ _ _ _ _ _ _ _ _ _) as [result1 [report2 w4]].
    cbn [fst snd] in E1, S1.
    pose proof (effect_catch index f result1 e report2 w4) as [E2 S2].
    destruct (catch _ _ _ _ _ _ _ _ _ _ _ _ _ _ _) as [result2 [report3 w5]].
    cbn [fst snd] in E2, S2. cbn [fst snd results statusReport browser].
    split.
    { eexists; split; [reflexivity|]. unfold shown in *. cbn.
      injection S1 as F1 T1 _. injection S2 as F2 T2 U2.
      cbn [is_passed title_of]. congruence. }
    split; [|split; reflexivity].
    pose proof (effect_trans _ _ _ _ _ _ _ _
                  (effect_trans _ _ _ _ _ _ _ _ E0 E1) E2) as E.
    destruct E as (L & O & E & T & G & R).
    repeat split; auto.
  - pose proof (effect_titled index t result report1 w3) as [E1 S1].
    destruct (titled _ _ _ _ _ _ _ _ _ _ _ _ _) as [result1 [report2 w4]].
    cbn [fst snd] in E1, S1.
    pose proof (effect_update report2 index (set_success (Finished true)) w4) as E2.
    destruct (update report2 _ _ w4) as [report3 w5].
    cbn [fst snd] in E2. cbn [fst snd results statusReport browser].
    split.
    { eexists; split; [reflexivity|]. unfold shown in *. cbn.
      injection S1 as F1 T1 U1.
      cbn [is_passed title_of]. congruence. }
    split; [|split; reflexivity].
    pose proof (effect_trans _ _ _ _ _ _ _ _
                  (effect_trans _ _ _ _ _ _ _ _ E0 E1) E2) as E.
    destruct E as (L & O & E & T & G & R).
    rewrite app_nil_r in T.
    repeat split; auto.
    cbn [CLIUtils.failure_of]. now rewrite app_nil_r.
Qed.

Lemma runFiles_loop_app (opts : Options) (files1 files2 : list string) :
  forall index s,
    runFiles_loop opts index (files1 ++ files2) s
    = match runFiles_loop opts index files1 s with
      | (Some v, s1) => (Some v, s1)
      | (None, s1) => runFiles_loop opts (index + List.length files1) files2 s1
      end.
Proof.
  induction files1 as [|f files1 IH]; intros index s; cbn [app CLIUtils.runFiles_loop List.length].
  - now rewrite Nat.add_0_r.
  - destruct (runFiles_iteration opts index f s) as [[v|] s1]; [reflexivity|].
    rewrite IH. now rewrite Nat.add_succ_r.
Qed.

(** The loop of [runFiles], as long as no [close] rejects. *)
Lemma runFiles_loop_spec (opts : Options) (files : list string) :
  forall index s,
    (forall i, index <= i < index + List.length files -> close i = None) ->
    (forall i f, nth_error files i = Some f ->
       exists r0, nth_error (get_results (statusReport s)) (index + i) = Some r0
                  /\ title r0 = ""%string) ->
    fst (runFiles_loop opts index files s) = None
    /\ map shown (results (snd (runFiles_loop opts index files s)))
       = map shown (results s)
         ++ map (fun '(i, f) => outcome_of opts i f) (entries_from index files)
    /\ browser (snd (runFiles_loop opts index files s))
       = browser s
         || existsb (fun '(i, f) => launched (attempt opts i f))
              (entries_from index files)
    /\ List.length (get_results (statusReport (snd (runFiles_loop opts index files s))))
       = List.length (get_results (statusReport s))
    /\ (forall j, j < index \/ index + List.length files <= j ->
          nth_error (get_results (statusReport (snd (runFiles_loop opts index files s)))) j
          = nth_error (get_results (statusReport s)) j)
    /\ (forall i f, nth_error files i = Some f ->
          exists r,
            nth_error (get_results (statusReport (snd (runFiles_loop opts index files s))))
              (index + i) = Some r
            /\ shown r = outcome_of opts (index + i) f)
    /\ (errorString (statusReport (snd (runFiles_loop opts index files s)))
        ++ error_texts (errors (statusReport (snd (runFiles_loop opts index files s)))))%string
       = (errorString (statusReport s)
          ++ error_texts (errors (statusReport s) ++ failures opts index files))%string
    /\ log (statusReport (snd (runFiles_loop opts index files s)))
       = log (statusReport s)
    /\ (table (statusReport s)
        = map (fun r => Some (row_of r)) (get_results (statusReport s)) ->
        table (statusReport (snd (runFiles_loop opts index files s)))
        = map (fun r => Some (row_of r))
            (get_results (statusReport (snd (runFiles_loop opts index files s))))).
Proof.
  induction files as [|f files IH]; intros index s Hclose Hfresh.
  - cbn. rewrite !app_nil_r, orb_false_r. repeat split; auto.
    intros i f Hf. now destruct i.
  - cbn [CLIUtils.runFiles_loop].
    destruct (runFiles_iteration_spec opts index f s)
      as ((r & Hresults & Hshown) & (L & O & E & T & G & R) & Hfst & Hbrowser).
    destruct (runFiles_iteration opts index f s) as [res1 s1].
    cbn [fst snd] in *.
    assert (Hres1 : res1 = None).
    { rewrite Hfst. destruct (browser s1); [|reflexivity].
      apply Hclose. cbn [List.length]. lia. }
    clear Hfst. subst res1.
    destruct (IH (S index) s1) as (I1 & I2 & I3 & I4 & I5 & I6 & I7 & I8 & I9).
    { intros i Hi. apply Hclose. cbn [List.length]. lia. }
    { intros i f' Hf'. destruct (Hfresh (S i) f' Hf') as (r0 & Hr0 & Ht0).
      exists r0. split; [|exact Ht0].
      replace (S index + i) with (index + S i) by lia.
      rewrite O by lia. exact Hr0. }
    split; [exact I1|].
    split.
    { rewrite I2, Hresults, map_app, <- app_assoc. cbn [map app].
      unfold entries_from. cbn [List.length seq combine map].
      now rewrite Hshown. }
    split.
    { rewrite I3, Hbrowser. unfold entries_from.
      cbn [List.length seq combine existsb]. unfold launched.
      now rewrite orb_assoc. }
    split; [congruence|].
    split.
    { intros j Hj. cbn [List.length] in Hj. rewrite I5 by lia. apply O. lia. }
    split.
    { intros [|i] f' Hf'.
      - cbn in Hf'. injection Hf' as <-. rewrite Nat.add_0_r.
        destruct (Hfresh 0 f eq_refl) as (r0 & Hr0 & Ht0).
        rewrite Nat.add_0_r in Hr0.
        destruct (E r0 Hr0) as (r' & Hr' & Hs').
        exists r'. split; [rewrite I5 by lia; exact Hr'|].
        rewrite Hs'. unfold CLIUtils.outcome_of, shown. cbn [fst snd].
        rewrite Ht0. now destruct (attempt opts index f).
      - cbn in Hf'. destruct (I6 i f' Hf') as (r' & Hr' & Hs').
        exists r'. replace (index + S i) with (S index + i) by lia. now split. }
    split.
    { rewrite I7, !error_texts_app, <- !append_associative, T.
      rewrite !error_texts_app, !append_associative.
      unfold CLIUtils.failures, entries_from.
      cbn [List.length seq combine flat_map].
      now rewrite error_texts_app. }
    split; [congruence|].
    auto.
Qed.

Lemma initial_results_fresh (files : list string) :
  forall w i f,
    nth_error files i = Some f ->
    exists r0, nth_error (fst (initial_results now files w)) i = Some r0
               /\ shown r0 = (f, ""%string, Pending).
Proof.
  induction files as [|f0 files IH]; intros w i f Hf; [now destruct i|].
  cbn [initial_results CLIUtils.initial_results new_Date CLIUtils.new_Date].
  specialize (IH {| reads := S (S (reads w)); written := written w |}).
  destruct (initial_results now files _) as [rs w3]. cbn [fst] in *.
  destruct i as [|i]; cbn in Hf |- *.
  - injection Hf as <-. eexists. split; reflexivity.
  - exact (IH i f Hf).
Qed.

Lemma in_entries_from (files : list string) :
  forall index i f,
    In (i, f) (entries_from index files)
    <-> index <= i /\ nth_error files (i - index) = Some f.
Proof.
  unfold entries_from.
  induction files as [|f0 files IH]; intros index i f; cbn [List.length seq combine In].
  - split; [contradiction|]. intros [_ H]. now destruct (i - index).
  - rewrite IH. split.
    + intros [H|[Hle H]].
      * injection H as <- <-. rewrite Nat.sub_diag. split; [lia | reflexivity].
      * split; [lia|]. replace (i - index) with (S (i - S index)) by lia. exact H.
    + intros [Hle H]. destruct (i - index) as [|k] eqn:Hk.
      * left. cbn in H. injection H as <-. f_equal. lia.
      * right. split; [lia|]. cbn in H. replace (i - S index) with k by lia. exact H.
Qed.

Lemma all_succeeded (opts : Options) (files : list string) (rs : list Result) :
  map shown rs = map (fun '(i, f) => outcome_of opts i f) (entries_from 0 files) ->
  forallb (fun result => match success result with
                         | Finished true => true
                         | _ => false
                         end) rs = true
  <-> (forall i f, nth_error files i = Some f ->
         is_passed (attempt opts i f) = true).
Proof.
  intros Hmap.
  assert (Hvia : forallb (fun result => match success result with
                                        | Finished true => true
                                        | _ => false
                                        end) rs
                 = forallb (fun v : string * string * Success =>
                              match snd v with Finished true => true | _ => false end)
                     (map shown rs)).
  { clear Hmap. induction rs as [|r rs IH]; [reflexivity|].
    cbn [forallb map]. now rewrite IH. }
  rewrite Hvia, Hmap, forallb_forall. split.
  - intros Hall i f Hf.
    specialize (Hall (outcome_of opts i f)).
    unfold CLIUtils.outcome_of in Hall. cbn [snd] in Hall.
    assert (Hin : In (f, title_of (attempt opts i f),
                      Finished (is_passed (attempt opts i f)))
                    (map (fun '(i, f) => outcome_of opts i f) (entries_from 0 files))).
    { apply in_map_iff. exists (i, f). split; [reflexivity|].
      apply in_entries_from. rewrite Nat.sub_0_r. split; [lia | exact Hf]. }
    specialize (Hall Hin).
    now destruct (is_passed (attempt opts i f)).
  - intros Hall v Hv. apply in_map_iff in Hv.
    destruct Hv as ([i f] & <- & Hin).
    apply in_entries_from in Hin. destruct Hin as [_ Hf].
    rewrite Nat.sub_0_r in Hf.
    unfold CLIUtils.outcome_of. cbn [snd]. now rewrite (Hall i f Hf).
Qed.

(** [runFiles] when the import of the extension module, if there is
    one, fulfils. *)
Lemma runFiles_unfold (files : list string) (opts : Options) (w : World) :
  (forall path, opts_extension opts = Some path -> import_extension path = None) ->
  runFiles files (Some opts) w
  = match
      runFiles_loop opts 0 files
        {| browser := false; results := [];
           statusReport := fst (new_StatusReport files (Some (opts_log opts)) w);
           world := snd (new_StatusReport files (Some (opts_log opts)) w) |}
    with
    | (Some v, s1) => (inl (inl v), s1)
    | (None, s1) =>
        if forallb (fun result => match success result with
                                  | Finished true => true
                                  | _ => false
                                  end) (results s1)
        then (inr tt, s1)
        else (inl (inr (new_Error "Some recordings have failed to run.")), s1)
    end.
Proof.
  intros Himport. unfold CLIUtils.runFiles.
  destruct (new_StatusReport files (Some (opts_log opts)) w) as [report w1].
  cbn [fst snd].
  destruct (opts_extension opts) as [[|c path]|] eqn:He; try reflexivity.
  now rewrite (Himport _ eq_refl).
Qed.

Lemma new_StatusReport_fresh (files : list string) (l : option bool) (w : World) :
  get_results (fst (new_StatusReport files l w))
  = fst (initial_results now files w)
  /\ table (fst (new_StatusReport files l w))
     = map (fun r => Some (row_of r)) (get_results (fst (new_StatusReport files l w)))
  /\ errorString (fst (new_StatusReport files l w)) = ""%string
  /\ errors (fst (new_StatusReport files l w)) = [].
Proof.
  unfold CLIUtils.new_StatusReport.
  destruct (initial_results now files w) as [rs w1]. cbn [fst].
  split; [reflexivity|]. split; [|split; reflexivity].
  apply set_results_table. cbn. apply Nat.le_0_l.
Qed.

(** [runFiles] when nothing of the outside world rejects. *)
Lemma runFiles_spec (files : list string) (opts : Options) (w : World) :
  (forall i, i < List.length files -> close i = None) ->
  (forall path, opts_extension opts = Some path -> import_extension path = None) ->
  map shown (results (snd (runFiles files (Some opts) w)))
  = map (fun '(i, f) => outcome_of opts i f) (entries_from 0 files)
  /\ fst (runFiles files (Some opts) w)
     = (if forallb (fun result => match success result with
                                  | Finished true => true
                                  | _ => false
                                  end)
             (results (snd (runFiles files (Some opts) w)))
        then inr tt
        else inl (inr (new_Error "Some recordings have failed to run.")))
  /\ List.length (get_results (statusReport (snd (runFiles files (Some opts) w))))
     = List.length files
  /\ (forall i f, nth_error files i = Some f ->
        exists r,
          nth_error (get_results (statusReport (snd (runFiles files (Some opts) w)))) i
          = Some r
          /\ shown r = outcome_of opts i f)
  /\ (errorString (statusReport (snd (runFiles files (Some opts) w)))
      ++ error_texts (errors (statusReport (snd (runFiles files (Some opts) w)))))%string
     = error_texts (failures opts 0 files)
  /\ table (statusReport (snd (runFiles files (Some opts) w)))
     = map (fun r => Some (row_of r))
         (get_results (statusReport (snd (runFiles files (Some opts) w)))).
Proof.
  intros Hclose Himport. rewrite (runFiles_unfold files opts w Himport).
  destruct (new_StatusReport_fresh files (Some (opts_log opts)) w)
    as (Hfresh & Htable & Hstring & Herrors).
  set (s0 := {| browser := false; results := [];
                statusReport := fst (new_StatusReport files (Some (opts_log opts)) w);
                world := snd (new_StatusReport files (Some (opts_log opts)) w) |}).
  destruct (runFiles_loop_spec opts files 0 s0)
    as (I1 & I2 & _ & I4 & _ & I6 & I7 & _ & I9).
  { intros i Hi. apply Hclose. lia. }
  { intros i f Hf. cbn [statusReport s0 Nat.add]. rewrite Hfresh.
    destruct (initial_results_fresh files w i f Hf) as (r0 & Hr0 & Hs0).
    exists r0. split; [exact Hr0|]. now injection Hs0. }
  destruct (runFiles_loop opts 0 files s0) as [res s1].
  cbn [fst snd] in *. subst res.
  cbn [statusReport s0 results map app] in *.
  rewrite Hstring, Herrors in I7. cbn [app] in I7.
  split.
  { now destruct (forallb _ (results s1)). }
  split.
  { destruct (forallb _ (results s1)) eqn:Hall; cbn [fst snd]; now rewrite Hall. }
  split.
  { destruct (forallb _ (results s1)); cbn [snd]; rewrite I4, Hfresh;
      apply length_initial_results. }
  split.
  { destruct (forallb _ (results s1)); cbn [snd]; exact I6. }
  split.
  { destruct (forallb _ (results s1)); cbn [snd]; exact I7. }
  destruct (forallb _ (results s1)); cbn [snd]; exact (I9 Htable).
Qed.

(** X19.  When no [browser.close()] rejects and the import of the
    extension module, if one is asked for, fulfils, [runFiles] attempts
    every file, whatever happens to the files before it, and is
    fulfilled exactly when every attempt passes; otherwise it is
    rejected with the error [Some recordings have failed to run.] *)
Theorem runFiles_fails_iff_a_recording_fails (files : list string)
  (opts : Options) (w : World) :
  (forall i, i < List.length files -> close i = None) ->
  (forall path, opts_extension opts = Some path -> import_extension path = None) ->
  List.length (results (snd (runFiles files (Some opts) w))) = List.length files
  /\ (fst (runFiles files (Some opts) w) = inr tt
      <-> (forall i f, nth_error files i = Some f ->
             is_passed (attempt opts i f) = true))
  /\ (fst (runFiles files (Some opts) w) <> inr tt ->
      fst (runFiles files (Some opts) w)
      = inl (inr (new_Error "Some recordings have failed to run."))).
Proof.
  intros Hclose Himport.
  destruct (runFiles_spec files opts w Hclose Himport) as (Hmap & Hres & _).
  split.
  { apply (f_equal (@List.length _)) in Hmap.
    rewrite !length_map in Hmap. rewrite Hmap.
    unfold entries_from. rewrite length_combine, length_seq. lia. }
  rewrite Hres.
  pose proof (all_succeeded opts files _ Hmap) as Hall.
  destruct (forallb _ (results (snd (runFiles files (Some opts) w)))).
  - split; [|congruence].
    split; [intros _; now apply Hall | reflexivity].
  - split; [|reflexivity].
    split; [discriminate|].
    intros H. apply Hall in H. discriminate.
Qed.


Lemma entries_from_app (files1 files2 : list string) :
  forall index,
    entries_from index (files1 ++ files2)
    = entries_from index files1
      ++ entries_from (index + List.length files1) files2.
Proof.
  unfold entries_from.
  induction files1 as [|f files1 IH]; intros index; cbn [app List.length seq combine].
  - now rewrite Nat.add_0_r.
  - rewrite IH. now rewrite Nat.add_succ_r.
Qed.

(** X21.  A rejected [browser.close()] ends the whole batch.  If a
    browser has been assigned in the iteration of a file or in one
    before it, [close] is called at the end of that iteration; if that
    call is the first to reject, [runFiles] is rejected with the value
    it rejects with, has attempted the files up to this one only, and
    the status report still shows every later file as pending. *)
Theorem runFiles_ends_when_close_rejects (before : list string) (f : string)
  (after : list string) (opts : Options) (w : World) (v : Value) :
  (forall i, i < List.length before -> close i = None) ->
  close (List.length before) = Some v ->
  existsb (fun '(i, f0) => launched (attempt opts i f0))
    (entries_from 0 (before ++ [f])) = true ->
  (forall path, opts_extension opts = Some path -> import_extension path = None) ->
  fst (runFiles (before ++ f :: after) (Some opts) w) = inl (inl v)
  /\ List.length (results (snd (runFiles (before ++ f :: after) (Some opts) w)))
     = S (List.length before)
  /\ (forall i f',
        nth_error after i = Some f' ->
        exists r,
          nth_error
            (get_results
               (statusReport (snd (runFiles (before ++ f :: after) (Some opts) w))))
            (S (List.length before) + i) = Some r
          /\ shown r = (f', ""%string, Pending)).
Proof.
  intros Hclose Hreject Hlaunched Himport.
  rewrite (runFiles_unfold _ opts w Himport).
  destruct (new_StatusReport_fresh (before ++ f :: after) (Some (opts_log opts)) w)
    as (Hfresh & _).
  set (s0 := {| browser := false; results := [];
                statusReport :=
                  fst (new_StatusReport (before ++ f :: after)
                         (Some (opts_log opts)) w);
                world :=
                  snd (new_StatusReport (before ++ f :: after)
                         (Some (opts_log opts)) w) |}).
  rewrite runFiles_loop_app.
  destruct (runFiles_loop_spec opts before 0 s0)
    as (I1 & I2 & I3 & _ & I5 & _).
  { intros i Hi. apply Hclose. lia. }
  { intros i f0 Hf0. cbn [statusReport s0 Nat.add]. rewrite Hfresh.
    destruct (initial_results_fresh (before ++ f :: after) w i f0)
      as (r0 & Hr0 & Hs0).
    { rewrite nth_error_app1; [exact Hf0|].
      apply nth_error_Some. congruence. }
    exists r0. split; [exact Hr0|]. now injection Hs0. }
  destruct (runFiles_loop opts 0 before s0) as [res s1].
  cbn [fst snd] in I1, I2, I3, I5. subst res.
  cbn [Nat.add CLIUtils.runFiles_loop].
  destruct (runFiles_iteration_spec opts (List.length before) f s1)
    as ((r & Hresults & _) & (_ & O & _) & Hfst & Hbrowser).
  destruct (runFiles_iteration opts (List.length before) f s1) as [res2 s2].
  cbn [fst snd] in Hresults, O, Hfst, Hbrowser.
  assert (Hon : browser s2 = true).
  { rewrite Hbrowser, I3. cbn [browser s0 orb].
    rewrite entries_from_app, existsb_app in Hlaunched.
    unfold entries_from in Hlaunched at 2.
    cbn [List.length seq combine existsb Nat.add] in Hlaunched.
    rewrite orb_false_r in Hlaunched. exact Hlaunched. }
  rewrite Hon, Hreject in Hfst. subst res2.
  cbn [fst snd].
  split; [reflexivity|].
  split.
  { rewrite Hresults, length_app. cbn [List.length].
    apply (f_equal (@List.length _)) in I2.
    cbn [results s0 map app] in I2. rewrite !length_map in I2.
    unfold entries_from in I2. rewrite length_combine, length_seq in I2. lia. }
  intros i f' Hf'.
  rewrite O by lia. rewrite I5 by lia.
  cbn [statusReport s0]. rewrite Hfresh.
  apply initial_results_fresh.
  rewrite nth_error_app2 by lia.
  match goal with
  | |- nth_error _ ?k = _ => replace k with (S i) by lia
  end.
  exact Hf'.
Qed.

End StatusReportFacts.

End StatusReportFacts.

(** * Properties of the abortable runner *)

Module AbortableFacts.

Section AbortableFacts.

Context {Step B Err : Type}.
Variable aborting : Call Step -> B -> bool.

#[local] Abbreviation Runner := (Abortable.Runner Step B Err).
#[local] Abbreviation M := (Abortable.M Step B Err).
#[local] Abbreviation a_flow := (@Abortable.flow Step B Err).
#[local] Abbreviation a_extension := (@Abortable.extension Step B Err).
#[local] Abbreviation aborted := (@Abortable.aborted Step B Err).
#[local] Abbreviation abort := (@Abortable.abort Step B Err).
#[local] Abbreviation resumable := (@Abortable.resumable Step B Err).
#[local] Abbreviation iterations := (@Abortable.iterations Step B Err).
#[local] Abbreviation pending := (Abortable.pending aborting).
#[local] Abbreviation a_bind := (@Abortable.bind Step B Err).
#[local] Abbreviation a_await := (@Abortable.await Step B Err aborting).
#[local] Abbreviation a_await_opt := (@Abortable.await_opt Step B Err aborting).
#[local] Abbreviation a_run_loop := (Abortable.run_loop aborting).
#[local] Abbreviation a_run := (Abortable.run aborting).

Lemma pending_flow c b (r : Runner) : a_flow (pending c b r) = a_flow r.
Proof. unfold Abortable.pending. now destruct (aborting c b). Qed.

Lemma pending_extension c b (r : Runner) :
  a_extension (pending c b r) = a_extension r.
Proof. unfold Abortable.pending. now destruct (aborting c b). Qed.

Lemma pending_aborted c b (r : Runner) :
  aborted (pending c b r) = aborting c b || aborted r.
Proof. unfold Abortable.pending. now destruct (aborting c b). Qed.

Lemma a_bind_await {C} c (p : B -> settled B Err) (k : unit -> M C) r b :
  a_bind (a_await c p) k (r, b)
  = match p b with
    | Fulfilled _ b1 =>
        match k tt (pending c b r, b1) with (res, w, t) => (res, w, c :: t) end
    | Rejected e b1 => (Throw e, (pending c b r, b1), [c])
    end.
Proof.
  unfold Abortable.bind, Abortable.await. cbn [fst snd].
  destruct (p b); reflexivity.
Qed.

Lemma a_bind_ret {A C} (a : A) (k : A -> M C) w :
  a_bind (Abortable.ret a) k w = k a w.
Proof.
  unfold Abortable.bind, Abortable.ret. now destruct (k a w) as [[res w1] t].
Qed.

Lemma a_bind_await_opt {X C} c (h : X) (app : X -> B -> settled B Err)
  (k : unit -> M C) r b :
  a_bind (a_await_opt (Some h) c app) k (r, b)
  = match app h b with
    | Fulfilled _ b1 =>
        match k tt (pending c b r, b1) with (res, w, t) => (res, w, c :: t) end
    | Rejected e b1 => (Throw e, (pending c b r, b1), [c])
    end.
Proof. apply a_bind_await. Qed.

Lemma a_bind_turn {X C} c (app : X -> B -> settled B Err) (k : unit -> M C) r b :
  a_bind (a_await_opt None c app) k (r, b) = k tt (pending c b r, b).
Proof.
  unfold Abortable.bind, Abortable.await_opt. cbn [fst snd].
  now destruct (k tt _) as [[res w1] t].
Qed.

#[local] Ltac reject_never Hnr :=
  let N1 := fresh in let N2 := fresh in let N3 := fresh in
  let N4 := fresh in let N5 := fresh in
  destruct Hnr as (N1 & N2 & N3 & N4 & N5);
  match goal with
  | E : beforeEachStep _ = Some ?h, O : ?h ?s ?f ?b = Rejected _ _ |- _ =>
      destruct (N2 h s f b E); congruence
  | O : runStep _ ?s ?f ?b = Rejected _ _ |- _ =>
      destruct (N3 s f b); congruence
  | E : afterEachStep _ = Some ?h, O : ?h ?s ?f ?b = Rejected _ _ |- _ =>
      destruct (N4 h s f b E); congruence
  end.

#[local] Ltac aborted_props :=
  rewrite ?pending_flow, ?pending_extension, ?pending_aborted;
  repeat match goal with
         | |- _ /\ _ => split
         end;
  try reflexivity;
  [ intros ->; now rewrite ?orb_true_r
  | let c := fresh "c" in let Hin := fresh "Hin" in let Hc := fresh "Hc" in
    intros c Hin Hc; cbn in Hin;
    repeat (destruct Hin as [<-|Hin]; [rewrite !Hc; now rewrite ?orb_true_r|]);
    contradiction
  | let H := fresh in intros H; now rewrite !H ].

(** One iteration of the loop, followed by [k]: a call rejects, or the
    calls of the iteration are made and [k] goes on, from a runner
    that is aborted if it was before or if [abort] was called during
    one of them. *)
Lemma a_iteration (idx : nat) (s : Step) (r : Runner) (b : B) (k : M nat) :
  (exists e w t,
      a_bind (a_await_opt (beforeEachStep (a_extension r)) (BeforeEachStep idx s)
                (fun h => h s (a_flow r)))
        (fun _ => a_bind (a_await (RunStep idx s)
                            (runStep (a_extension r) s (a_flow r)))
           (fun _ => a_bind (a_await_opt (afterEachStep (a_extension r))
                               (AfterEachStep idx s) (fun h => h s (a_flow r)))
              (fun _ => k))) (r, b) = (Throw e, w, t)
      /\ ~ never_rejects (a_extension r))
  \/ (exists r3 b3,
        (a_flow r3 = a_flow r /\ a_extension r3 = a_extension r
         /\ (aborted r = true -> aborted r3 = true)
         /\ (forall c, In c (step_calls (resumable r) idx s) ->
               (forall b0, aborting c b0 = true) -> aborted r3 = true)
         /\ ((forall c b0, aborting c b0 = false) -> aborted r3 = aborted r))
        /\ a_bind (a_await_opt (beforeEachStep (a_extension r)) (BeforeEachStep idx s)
                     (fun h => h s (a_flow r)))
             (fun _ => a_bind (a_await (RunStep idx s)
                                 (runStep (a_extension r) s (a_flow r)))
                (fun _ => a_bind (a_await_opt (afterEachStep (a_extension r))
                                    (AfterEachStep idx s) (fun h => h s (a_flow r)))
                   (fun _ => k))) (r, b)
           = match k (r3, b3) with
             | (res, w, t2) => (res, w, step_calls (resumable r) idx s ++ t2)
             end).
Proof.
  unfold step_calls.
  cbn [extension Abortable.resumable new_Runner].
  destruct (beforeEachStep (a_extension r)) as [h1|] eqn:E1;
    [rewrite a_bind_await_opt;
     destruct (h1 s (a_flow r) b) as [b1|e1 b1] eqn:O1;
     [|left; eexists _, _, _; split; [reflexivity | intros Hnr; reject_never Hnr]]
    |rewrite a_bind_turn];
    cbn beta; rewrite a_bind_await;
    match goal with
    | |- context [runStep (a_extension r) s (a_flow r) ?b0] =>
        destruct (runStep (a_extension r) s (a_flow r) b0) as [b2|e2 b2] eqn:O2
    end;
    try (left; eexists _, _, _; split; [reflexivity | intros Hnr; reject_never Hnr]);
    cbn beta;
    (destruct (afterEachStep (a_extension r)) as [h3|] eqn:E3;
     [rewrite a_bind_await_opt;
      match goal with
      | |- context [h3 s (a_flow r) ?b0] =>
          destruct (h3 s (a_flow r) b0) as [b3|e3 b3] eqn:O3
      end;
      [|left; eexists _, _, _; split; [reflexivity | intros Hnr; reject_never Hnr]]
     |rewrite a_bind_turn]);
    cbn [opt_call].
  - right.
    exists (pending (AfterEachStep idx s) b2
              (pending (RunStep idx s) b1 (pending (BeforeEachStep idx s) b r))), b3.
    split; [aborted_props|].
    cbn beta. now destruct (k _) as [[res w] t2].
  - right.
    exists (pending (AfterEachStep idx s) b2
              (pending (RunStep idx s) b1 (pending (BeforeEachStep idx s) b r))), b2.
    split; [aborted_props|].
    cbn beta. now destruct (k _) as [[res w] t2].
  - right.
    exists (pending (AfterEachStep idx s) b2
              (pending (RunStep idx s) b (pending (BeforeEachStep idx s) b r))), b3.
    split; [aborted_props|].
    cbn beta. now destruct (k _) as [[res w] t2].
  - right.
    exists (pending (AfterEachStep idx s) b2
              (pending (RunStep idx s) b (pending (BeforeEachStep idx s) b r))), b2.
    split; [aborted_props|].
    cbn beta. now destruct (k _) as [[res w] t2].
Qed.

Lemma a_bind_get_this {C} (k : Runner -> M C) r b :
  a_bind (Abortable.get_this (Err := Err)) k (r, b) = k r (r, b).
Proof.
  unfold Abortable.bind, Abortable.get_this. cbn [fst].
  now destruct (k r (r, b)) as [[res w1] t].
Qed.

Lemma a_bind_inv {A C} (m : M A) (k : A -> M C) w res w' t :
  a_bind m k w = (res, w', t) ->
  (exists e, m w = (Throw e, w', t) /\ res = Throw e)
  \/ (exists a w1 t1 t2,
         m w = (Return a, w1, t1) /\ k a w1 = (res, w', t2) /\ t = t1 ++ t2).
Proof.
  unfold Abortable.bind. destruct (m w) as [[[a|e] w1] t1].
  - destruct (k a w1) as [[res2 w2] t2] eqn:Hk. intros H. injection H as <- <- <-.
    right. now exists a, w1, t1, t2.
  - intros H. injection H as <- <- <-. left. now exists e.
Qed.

Lemma resumable_same (r r' : Runner) :
  a_flow r' = a_flow r -> a_extension r' = a_extension r ->
  resumable r' = resumable r.
Proof. unfold Abortable.resumable. now intros -> ->. Qed.

Lemma iterations_S (r : Runner) (idx m : nat) (s : Step) :
  nth_error (steps (a_flow r)) idx = Some s ->
  iterations r idx (S m)
  = step_calls (resumable r) idx s ++ iterations r (S idx) m.
Proof.
  intros Hs. unfold Abortable.iterations. rewrite calls_between_S.
  unfold calls_at. cbn [flow Abortable.resumable new_Runner]. now rewrite Hs.
Qed.

(** The loop of [run]: unless a call rejects it makes the calls of the
    iterations from [idx] up to where it leaves the variable; it stops
    short of the last step only on an aborted runner, makes no
    iteration on a runner that is aborted already, and one at least
    otherwise. *)
Lemma a_run_loop_spec (fuel : nat) :
  forall idx r b res r' b' t,
    List.length (steps (a_flow r)) <= idx + fuel ->
    idx <= List.length (steps (a_flow r)) ->
    a_run_loop fuel idx (r, b) = (res, (r', b'), t) ->
    match res with
    | Throw _ => ~ never_rejects (a_extension r)
    | Return n =>
        a_flow r' = a_flow r /\ a_extension r' = a_extension r
        /\ idx <= n <= List.length (steps (a_flow r))
        /\ t = iterations r idx (n - idx)
        /\ (n < List.length (steps (a_flow r)) -> aborted r' = true)
        /\ (aborted r = true -> n = idx)
        /\ (aborted r = false -> idx < List.length (steps (a_flow r)) -> idx < n)
        /\ (forall c, In c (iterations r idx (n - idx - 1)) ->
              (forall b0, aborting c b0 = true) -> False)
        /\ ((forall c b0, aborting c b0 = false) -> aborted r' = aborted r)
    end.
Proof.
  assert (Hleave : forall idx (r : Runner) (b : B) (res : completion Err nat)
                      (r' : Runner) (b' : B) t,
             idx <= List.length (steps (a_flow r)) ->
             (idx <? List.length (steps (a_flow r))) && negb (aborted r) = false ->
             (Return idx, (r, b), @nil (Call Step)) = (res, (r', b'), t) ->
             match res return Prop with
             | Throw _ => ~ never_rejects (a_extension r)
             | Return n =>
                 a_flow r' = a_flow r /\ a_extension r' = a_extension r
                 /\ idx <= n <= List.length (steps (a_flow r))
                 /\ t = iterations r idx (n - idx)
                 /\ (n < List.length (steps (a_flow r)) -> aborted r' = true)
                 /\ (aborted r = true -> n = idx)
                 /\ (aborted r = false ->
                     idx < List.length (steps (a_flow r)) -> idx < n)
                 /\ (forall c, In c (iterations r idx (n - idx - 1)) ->
                       (forall b0, aborting c b0 = true) -> False)
                 /\ ((forall c b0, aborting c b0 = false) -> aborted r' = aborted r)
             end).
  { intros idx r b res r' b' t Hle Htest H. injection H as <- <- <- <-.
    rewrite Nat.sub_diag. cbn [Nat.sub].
    apply andb_false_iff in Htest.
    repeat split; auto; try lia.
    - intros Hlt. destruct Htest as [Htest|Htest].
      + apply Nat.ltb_ge in Htest. lia.
      + now destruct (aborted r).
    - intros Hoff Hlt. destruct Htest as [Htest|Htest].
      + apply Nat.ltb_ge in Htest. lia.
      + rewrite Hoff in Htest. discriminate. }
  induction fuel as [|fuel IH]; intros idx r b res r' b' t Hfuel Hle Hrun.
  - cbn in Hrun. unfold Abortable.ret in Hrun.
    apply (Hleave idx r b res r' b' t Hle); [|exact Hrun].
    apply andb_false_iff. left. apply Nat.ltb_ge. lia.
  - cbn [Abortable.run_loop] in Hrun. rewrite a_bind_get_this in Hrun.
    destruct ((idx <? List.length (steps (a_flow r))) && negb (aborted r))
      eqn:Htest.
    2:{ unfold Abortable.ret in Hrun.
        exact (Hleave idx r b res r' b' t Hle Htest Hrun). }
    apply andb_true_iff in Htest. destruct Htest as [Hlt Hoff].
    apply Nat.ltb_lt in Hlt. apply negb_true_iff in Hoff.
    destruct (nth_error (steps (a_flow r)) idx) as [s|] eqn:Hs.
    2:{ apply nth_error_None in Hs. lia. }
    destruct (a_iteration idx s r b (a_run_loop fuel (S idx)))
      as [(e & w & t0 & Hthrow & Hnr)
         |(r3 & b3 & (Hf3 & Hx3 & Hon3 & Hin3 & Hnone3) & Hbody)].
    { rewrite Hthrow in Hrun. injection Hrun as <- _ _. exact Hnr. }
    rewrite Hbody in Hrun.
    destruct (a_run_loop fuel (S idx) (r3, b3)) as [[res2 [r2 b2]] t2] eqn:Hrest.
    injection Hrun as <- <- <- <-.
    apply IH in Hrest; [|rewrite Hf3; lia|rewrite Hf3; lia].
    destruct res2 as [n|e]; [|now rewrite <- Hx3].
    rewrite Hf3, Hx3 in Hrest.
    destruct Hrest as (Hf2 & Hx2 & Hn & Ht2 & Hshort & Hstay & _ & Hearly & Hnone2).
    split; [exact Hf2|]. split; [exact Hx2|].
    split; [lia|].
    split.
    { replace (n - idx) with (S (n - S idx)) by lia.
      rewrite (iterations_S r idx _ s Hs). rewrite Ht2.
      unfold Abortable.iterations.
      now rewrite (resumable_same r r3 Hf3 Hx3). }
    split; [exact Hshort|].
    split; [intros Hon; congruence|].
    split; [intros _ _; lia|].
    split.
    { intros c Hin Hc.
      destruct (n - idx - 1) as [|m] eqn:Hm; [contradiction|].
      rewrite (iterations_S r idx m s Hs) in Hin.
      apply in_app_or in Hin. destruct Hin as [Hin|Hin].
      - specialize (Hstay (Hin3 c Hin Hc)). lia.
      - apply (Hearly c); [|exact Hc].
        replace (n - S idx - 1) with m by lia.
        unfold Abortable.iterations in *.
        now rewrite (resumable_same r r3 Hf3 Hx3). }
    intros Hnone. rewrite (Hnone2 Hnone). exact (Hnone3 Hnone).
Qed.

Lemma a_bind_reset {C} (k : unit -> M C) r b :
  a_bind (Abortable.reset_aborted (Err := Err)) k (r, b)
  = k tt ({| Abortable.flow := a_flow r;
             Abortable.extension := a_extension r;
             Abortable.aborted := false |}, b).
Proof.
  unfold Abortable.bind, Abortable.reset_aborted. cbn [fst snd].
  now destruct (k tt _) as [[res w1] t].
Qed.

(** [run] from the loop on, entered on a runner [r1] with flow [f] and
    extension [x]. *)
Lemma a_run_tail (f : UserFlow Step) (x : RunnerExtension Step B Err)
  (r1 : Runner) (b1 : B) res r' b' t :
  a_flow r1 = f -> a_extension r1 = x ->
  a_bind (a_run_loop (List.length (steps f)) 0)
    (fun n => a_bind (a_await_opt (afterAllSteps x) AfterAllSteps (fun h => h f))
                (fun _ => Abortable.ret (List.length (steps f) <=? n)))
    (r1, b1) = (res, (r', b'), t) ->
  match res with
  | Throw _ => ~ never_rejects x
  | Return v =>
      a_flow r' = f /\ a_extension r' = x
      /\ exists n,
          n <= List.length (steps f)
          /\ t = iterations r1 0 n ++ opt_call (afterAllSteps x) AfterAllSteps
          /\ v = (List.length (steps f) <=? n)
          /\ (n < List.length (steps f) -> aborted r' = true)
          /\ (aborted r1 = true -> n = 0)
          /\ (aborted r1 = false -> 0 < List.length (steps f) -> 0 < n)
          /\ (forall c, In c (iterations r1 0 (n - 1)) ->
                (forall b0, aborting c b0 = true) -> False)
          /\ ((forall c b0, aborting c b0 = false) -> aborted r' = aborted r1)
  end.
Proof.
  intros Hf Hx Hrun.
  apply a_bind_inv in Hrun.
  destruct Hrun as [(e & Hloop & ->)|(n & [r2 b2] & t1 & t2 & Hloop & Hafter & ->)].
  { apply a_run_loop_spec in Hloop; [|rewrite Hf; lia|lia].
    now rewrite Hx in Hloop. }
  apply a_run_loop_spec in Hloop; [|rewrite Hf; lia|lia].
  cbn match in Hloop. rewrite Hf, Hx, Nat.sub_0_r in Hloop.
  destruct Hloop as (Hf2 & Hx2 & Hn & Ht1 & Hshort & Hstay & Hmove & Hearly & Hnone).
  destruct (afterAllSteps x) as [h|] eqn:Eh.
  - rewrite a_bind_await_opt in Hafter.
    destruct (h f b2) as [b3|e b3] eqn:Oh.
    + unfold Abortable.ret in Hafter. injection Hafter as <- <- <- <-.
      rewrite pending_flow, pending_extension, pending_aborted.
      split; [exact Hf2|]. split; [exact Hx2|].
      exists n. split; [lia|]. split; [now rewrite Ht1|].
      split; [reflexivity|].
      split; [intros Hlt; rewrite (Hshort Hlt); apply orb_true_r|].
      split; [exact Hstay|]. split; [exact Hmove|]. split; [exact Hearly|].
      intros Hnever. now rewrite Hnever, (Hnone Hnever).
    + injection Hafter as <- _ _.
      intros (_ & _ & _ & _ & N5). destruct (N5 h f b2 Eh). congruence.
  - rewrite a_bind_turn in Hafter.
    unfold Abortable.ret in Hafter. injection Hafter as <- <- <- <-.
    rewrite pending_flow, pending_extension, pending_aborted.
    split; [exact Hf2|]. split; [exact Hx2|].
    exists n. split; [lia|]. split; [now rewrite Ht1|].
    split; [reflexivity|].
    split; [intros Hlt; rewrite (Hshort Hlt); apply orb_true_r|].
    split; [exact Hstay|]. split; [exact Hmove|]. split; [exact Hearly|].
    intros Hnever. now rewrite Hnever, (Hnone Hnever).
Qed.

(** [run] as a whole. *)
Lemma a_run_spec (r : Runner) (b : B) res r' b' t :
  a_run (r, b) = (res, (r', b'), t) ->
  match res with
  | Throw _ => ~ never_rejects (a_extension r)
  | Return v =>
      a_flow r' = a_flow r /\ a_extension r' = a_extension r
      /\ exists n,
          n <= List.length (steps (a_flow r))
          /\ t = opt_call (beforeAllSteps (a_extension r)) BeforeAllSteps
                 ++ iterations r 0 n
                 ++ opt_call (afterAllSteps (a_extension r)) AfterAllSteps
          /\ v = (List.length (steps (a_flow r)) <=? n)
          /\ (n < List.length (steps (a_flow r)) -> aborted r' = true)
          /\ (beforeAllSteps (a_extension r) <> None ->
              (forall b0, aborting BeforeAllSteps b0 = true) -> n = 0)
          /\ (forall c, In c (iterations r 0 (n - 1)) ->
                (forall b0, aborting c b0 = true) -> False)
          /\ ((forall c b0, aborting c b0 = false) ->
              aborted r' = false /\ n = List.length (steps (a_flow r)))
  end.
Proof.
  unfold Abortable.run. rewrite a_bind_reset, a_bind_get_this.
  cbn [Abortable.flow Abortable.extension].
  set (r0 := {| Abortable.flow := a_flow r; Abortable.extension := a_extension r;
                Abortable.aborted := false |}).
  assert (Hiter : forall r1 : Runner,
             a_flow r1 = a_flow r -> a_extension r1 = a_extension r ->
             forall c n, iterations r1 c n = iterations r c n).
  { intros r1 H1 H2 c n. unfold Abortable.iterations.
    now rewrite (resumable_same r r1 H1 H2). }
  destruct (beforeAllSteps (a_extension r)) as [h|] eqn:Eh.
  - rewrite a_bind_await_opt.
    destruct (h (a_flow r) b) as [b1|e b1] eqn:Oh.
    2:{ intros H. injection H as <- _ _.
        intros (N1 & _). destruct (N1 h (a_flow r) b Eh). congruence. }
    destruct (a_bind _ _ (pending BeforeAllSteps b r0, b1))
      as [[res1 [r1 b1']] t1] eqn:Htail.
    intros H. injection H as <- <- <- <-.
    apply a_run_tail in Htail;
      [|now rewrite pending_flow|now rewrite pending_extension].
    destruct res1 as [v|e]; [|exact Htail].
    destruct Htail as (Hf & Hx & n & Hn & Ht & Hv & Hshort & Hstay & Hmove
                       & Hearly & Hnone).
    rewrite pending_aborted in Hstay, Hmove, Hnone. cbn [Abortable.aborted r0] in *.
    rewrite orb_false_r in Hstay, Hmove, Hnone.
    rewrite (Hiter (pending BeforeAllSteps b r0) (pending_flow _ _ r0)
               (pending_extension _ _ r0)) in Ht, Hearly.
    split; [exact Hf|]. split; [exact Hx|].
    exists n. split; [exact Hn|]. split; [now rewrite Ht|].
    split; [exact Hv|]. split; [exact Hshort|].
    split; [intros _ Hc; apply Hstay, Hc|].
    split; [exact Hearly|].
    intros Hnever. specialize (Hnone Hnever). rewrite Hnever in Hnone, Hmove.
    split; [exact Hnone|].
    destruct (Nat.eq_dec n (List.length (steps (a_flow r)))) as [|Hne]; [assumption|].
    assert (Hlt : n < List.length (steps (a_flow r))) by lia.
    rewrite (Hshort Hlt) in Hnone. discriminate.
  - rewrite a_bind_turn.
    intros Htail. apply a_run_tail in Htail;
      [|now rewrite pending_flow|now rewrite pending_extension].
    destruct res as [v|e]; [|exact Htail].
    destruct Htail as (Hf & Hx & n & Hn & Ht & Hv & Hshort & Hstay & Hmove
                       & Hearly & Hnone).
    rewrite pending_aborted in Hstay, Hmove, Hnone. cbn [Abortable.aborted r0] in *.
    rewrite orb_false_r in Hstay, Hmove, Hnone.
    rewrite (Hiter (pending BeforeAllSteps b r0) (pending_flow _ _ r0)
               (pending_extension _ _ r0)) in Ht, Hearly.
    split; [exact Hf|]. split; [exact Hx|].
    exists n. split; [exact Hn|]. split; [exact Ht|].
    split; [exact Hv|]. split; [exact Hshort|].
    split; [intros Hsome; now contradiction Hsome|].
    split; [exact Hearly|].
    intros Hnever. specialize (Hnone Hnever). rewrite Hnever in Hnone, Hmove.
    split; [exact Hnone|].
    destruct (Nat.eq_dec n (List.length (steps (a_flow r)))) as [|Hne]; [assumption|].
    assert (Hlt : n < List.length (steps (a_flow r))) by lia.
    rewrite (Hshort Hlt) in Hnone. discriminate.
Qed.

Lemma in_iterations_before (r : Runner) (n m i : nat) (c : Call Step) :
  In c (iterations r 0 n) -> index_of c = Some i -> i < m ->
  In c (iterations r 0 m).
Proof.
  unfold Abortable.iterations, calls_between. intros Hin Hi Hlt.
  apply in_flat_map in Hin. destruct Hin as (j & _ & Hc).
  apply in_flat_map. exists j. split; [|exact Hc].
  apply in_calls_at in Hc. destruct Hc as [_ Hj].
  apply in_seq. assert (j = i) by congruence. lia.
Qed.

(** X22.  A call of [abort] made before [run] is entered has no effect:
    [run] clears the flag first, and does on the aborted runner exactly
    what it does on the runner as it was. *)
Theorem abort_before_run_is_forgotten (r : Runner) (b : B) :
  a_run (abort r, b) = a_run (r, b).
Proof.
  unfold Abortable.run. now rewrite !a_bind_reset.
Qed.

(** X23.  When the abortable [run] returns, aborted or not, it has called
    [beforeAllSteps] (if present), then the hooks and [runStep] for the
    first [n] steps of the flow in order, each iteration complete, then
    [afterAllSteps] (if present); it returns [true] exactly when
    [n] is the number of steps, and it stopped short of that only on a
    runner that has been aborted. *)
Theorem abortable_run_returns (r : Runner) (b : B) (v : bool)
  (r' : Runner) (b' : B) (t : list (Call Step)) :
  a_run (r, b) = (Return v, (r', b'), t) ->
  exists n,
    n <= List.length (steps (a_flow r))
    /\ t = opt_call (beforeAllSteps (a_extension r)) BeforeAllSteps
           ++ iterations r 0 n
           ++ opt_call (afterAllSteps (a_extension r)) AfterAllSteps
    /\ (v = true <-> n = List.length (steps (a_flow r)))
    /\ (n < List.length (steps (a_flow r)) -> aborted r' = true).
Proof.
  intros Hrun. apply a_run_spec in Hrun.
  destruct Hrun as (_ & _ & n & Hn & Ht & Hv & Hshort & _).
  exists n. split; [exact Hn|]. split; [exact Ht|]. split; [|exact Hshort].
  rewrite Hv. rewrite Nat.leb_le. lia.
Qed.

(** X24.  [abort] takes effect at the next test of the loop.  If [abort]
    is called whenever the call [c] is pending, and a run that returns
    has made [c], then: for [c] a call of the iteration of step [i],
    that iteration is completed and is the last one, so the steps after
    [i] are not run, and [run] returns [true] only if [i] was the last
    step; for [c] the call of [beforeAllSteps], no step is run at all.
    [afterAllSteps] is called in both cases. *)
Theorem abort_ends_run_after_current_step (r : Runner) (b : B) (v : bool)
  (r' : Runner) (b' : B) (t : list (Call Step)) (c : Call Step) :
  (forall b0, aborting c b0 = true) ->
  a_run (r, b) = (Return v, (r', b'), t) ->
  In c t ->
  (forall i, index_of c = Some i ->
     t = opt_call (beforeAllSteps (a_extension r)) BeforeAllSteps
         ++ iterations r 0 (S i)
         ++ opt_call (afterAllSteps (a_extension r)) AfterAllSteps
     /\ v = (List.length (steps (a_flow r)) <=? S i))
  /\ (c = BeforeAllSteps ->
      t = BeforeAllSteps :: opt_call (afterAllSteps (a_extension r)) AfterAllSteps
      /\ v = (List.length (steps (a_flow r)) =? 0)).
Proof.
  intros Hc Hrun Hin. apply a_run_spec in Hrun.
  destruct Hrun as (_ & _ & n & Hn & Ht & Hv & _ & Hfirst & Hearly & _).
  assert (Hparts : In c (opt_call (beforeAllSteps (a_extension r)) BeforeAllSteps)
                   \/ In c (iterations r 0 n)
                   \/ In c (opt_call (afterAllSteps (a_extension r)) AfterAllSteps)).
  { rewrite Ht in Hin. apply in_app_or in Hin. destruct Hin as [Hin|Hin]; [now left|].
    apply in_app_or in Hin. tauto. }
  split.
  - intros i Hi.
    assert (Hiter : In c (iterations r 0 n)).
    { destruct Hparts as [H|[H|H]]; [|exact H|].
      - destruct (beforeAllSteps (a_extension r)); cbn in H;
          [destruct H as [<-|[]]; discriminate | contradiction].
      - destruct (afterAllSteps (a_extension r)); cbn in H;
          [destruct H as [<-|[]]; discriminate | contradiction]. }
    assert (Hlt : i < n).
    { apply in_calls_between in Hiter. destruct Hiter as (_ & j & Hj & Hrange).
      assert (j = i) by congruence. lia. }
    assert (Hlast : n = S i).
    { destruct (Nat.lt_ge_cases i (n - 1)) as [Hbefore|Hge]; [|lia].
      exfalso. apply (Hearly c); [|exact Hc].
      exact (in_iterations_before r n (n - 1) i c Hiter Hi Hbefore). }
    rewrite <- Hlast. now split.
  - intros ->.
    assert (Hsome : beforeAllSteps (a_extension r) <> None).
    { destruct Hparts as [H|[H|H]].
      - destruct (beforeAllSteps (a_extension r)); [discriminate | contradiction].
      - apply in_calls_between in H. destruct H as [H _]. discriminate.
      - destruct (afterAllSteps (a_extension r)); cbn in H;
          [destruct H as [H|[]]; discriminate | contradiction]. }
    specialize (Hfirst Hsome Hc). subst n.
    split.
    + rewrite Ht. destruct (beforeAllSteps (a_extension r)); [reflexivity|].
      now contradiction Hsome.
    + rewrite Hv. now destruct (List.length (steps (a_flow r))).
Qed.

(** X25.  The abortable runner keeps no cursor: when no call rejects and
    nobody aborts, every [run] returns [true] after [beforeAllSteps],
    every step of the flow and [afterAllSteps], and a second [run] on
    the runner the first one left makes all these calls again. *)
Theorem abortable_run_starts_over (r : Runner) (b : B)
  res1 (r1 : Runner) (b1 : B) (t1 : list (Call Step))
  res2 (r2 : Runner) (b2 : B) (t2 : list (Call Step)) :
  never_rejects (a_extension r) ->
  (forall c b0, aborting c b0 = false) ->
  a_run (r, b) = (res1, (r1, b1), t1) ->
  a_run (r1, b1) = (res2, (r2, b2), t2) ->
  res1 = Return true /\ res2 = Return true
  /\ t1 = opt_call (beforeAllSteps (a_extension r)) BeforeAllSteps
          ++ iterations r 0 (List.length (steps (a_flow r)))
          ++ opt_call (afterAllSteps (a_extension r)) AfterAllSteps
  /\ t2 = t1.
Proof.
  intros Hnr Hnever Hrun1 Hrun2.
  apply a_run_spec in Hrun1. apply a_run_spec in Hrun2.
  destruct res1 as [v1|e1]; [|contradiction].
  destruct Hrun1 as (Hf1 & Hx1 & n1 & _ & Ht1 & Hv1 & _ & _ & _ & Hall1).
  destruct (Hall1 Hnever) as [_ ->].
  rewrite Hf1, Hx1 in Hrun2.
  destruct res2 as [v2|e2]; [|contradiction].
  destruct Hrun2 as (_ & _ & n2 & _ & Ht2 & Hv2 & _ & _ & _ & Hall2).
  destruct (Hall2 Hnever) as [_ ->].
  rewrite Nat.leb_refl in Hv1, Hv2. subst v1 v2.
  split; [reflexivity|]. split; [reflexivity|]. split; [exact Ht1|].
  rewrite Ht1, Ht2. unfold Abortable.iterations.
  now rewrite (resumable_same r r1 Hf1 Hx1).
Qed.

End AbortableFacts.

End AbortableFacts.

(** * Runs of the model on small flows *)

Import Examples.

(** The flow [A, B, C] on the extension that implements every hook. *)
Lemma run_fresh_runs_every_step_demo :
  run None (new_Runner demo logging, [])
  = (Return true,
     (at_cursor demo logging 3,
      "beforeAll"%string :: log_A ++ log_B ++ log_C ++ ["afterAll"%string]),
     BeforeAllSteps :: calls_A ++ calls_B ++ calls_C ++ [AfterAllSteps])
  /\ run_indices
       (BeforeAllSteps :: calls_A ++ calls_B ++ calls_C ++ [AfterAllSteps])
     = [0; 1; 2].
Proof.
  split; [reflexivity|].
  exact (proj1 (proj2 (proj2
    (proj1 (proj2
      (run_fresh_runs_every_step demo logging []
         (Return true) (at_cursor demo logging 3)
         ("beforeAll"%string :: log_A ++ log_B ++ log_C ++ ["afterAll"%string])
         (BeforeAllSteps :: calls_A ++ calls_B ++ calls_C ++ [AfterAllSteps])
         eq_refl)) true eq_refl)))).
Defined.



(** C4 as stated fails: after [run()] has returned [true] on the
    one-step flow, a second [run()] calls [afterAllSteps] again. *)
Lemma afterAllSteps_called_again_after_completion :
  run None (new_Runner single logging, [])
  = (Return true,
     (at_cursor single logging 1,
      "beforeAll"%string :: log_A ++ ["afterAll"%string]),
     BeforeAllSteps :: calls_A ++ [AfterAllSteps])
  /\ run None
       (at_cursor single logging 1,
        "beforeAll"%string :: log_A ++ ["afterAll"%string])
     = (Return true,
        (at_cursor single logging 1,
         "beforeAll"%string :: log_A ++ ["afterAll"; "afterAll"]%string),
        [AfterAllSteps]).
Proof. split; reflexivity. Qed.

(** On the one-step flow with the picky extension: [run()] returns
    [true], a second [run()] throws in [afterAllSteps], and the third
    call, entered after that failure, finds nothing to do but
    [afterAllSteps] and returns [true]. *)
Lemma run_again_after_completion_example :
  run_all [None; None] (new_Runner single picky, [])
  = ([(0, Return true, BeforeAllSteps :: calls_A ++ [AfterAllSteps]);
      (1, Throw "afterAll refused"%string, [AfterAllSteps])],
     (at_cursor single picky 1,
      "beforeAll"%string :: log_A ++ ["afterAll"; "afterAll refused"]%string))
  /\ run None
       (at_cursor single picky 1,
        "beforeAll"%string :: log_A ++ ["afterAll"; "afterAll refused"]%string)
     = (Return true,
        (at_cursor single picky 1,
         "beforeAll"%string :: log_A
         ++ ["afterAll"; "afterAll refused"; "afterAll"]%string),
        [AfterAllSteps])
  /\ nextStep (at_cursor single picky 1) = 1
  /\ filter is_step_call [@AfterAllSteps string] = [].
Proof.
  split; [reflexivity|]. split; [reflexivity|].
  exact ((fun H => conj (proj1 H) (proj1 (proj2 H)))
    (run_again_after_completion [None; None]
       (new_Runner single picky) []
       [(0, Return true, BeforeAllSteps :: calls_A ++ [AfterAllSteps]);
        (1, Throw "afterAll refused"%string, [AfterAllSteps])]
       (at_cursor single picky 1)
       ("beforeAll"%string :: log_A ++ ["afterAll"; "afterAll refused"]%string)
       None (Return true)
       (at_cursor single picky 1)
       ("beforeAll"%string :: log_A
        ++ ["afterAll"; "afterAll refused"; "afterAll"]%string)
       [AfterAllSteps]
       eq_refl
       (Exists_cons_hd
          (fun record : nat * completion string bool * list (Call string) =>
             snd (fst record) = Return true)
          (0, Return true, BeforeAllSteps :: calls_A ++ [AfterAllSteps])
          [(1, Throw "afterAll refused"%string, [AfterAllSteps])]
          eq_refl)
       eq_refl)).
Defined.

(** The flaky extension on [A, B, C]: [runStep] rejects on B, the cursor
    stays on B, and the next [run()] starts with B again. *)
Lemma failing_step_is_attempted_again_example :
  run None (new_Runner demo flaky, [])
  = (Throw "B failed"%string,
     (at_cursor demo flaky 1,
      "beforeAll"%string :: log_A ++ ["before B"; "B failed"]%string),
     BeforeAllSteps :: calls_A ++ [BeforeEachStep 1 "B"; RunStep 1 "B"]%string)
  /\ nextStep (at_cursor demo flaky 1) = 1
  /\ run None
       (at_cursor demo flaky 1,
        "beforeAll"%string :: log_A ++ ["before B"; "B failed"]%string)
     = (Return true,
        (at_cursor demo flaky 3,
         "beforeAll"%string :: log_A ++ ["before B"; "B failed"]%string
         ++ log_B ++ log_C ++ ["afterAll"%string]),
        calls_B ++ calls_C ++ [AfterAllSteps]).
Proof.
  split; [reflexivity|]. split; [|reflexivity].
  exact (proj1 (proj2 (proj2
    (failing_step_is_attempted_again None
       (new_Runner demo flaky) []
       (Throw "B failed"%string)
       (at_cursor demo flaky 1)
       ("beforeAll"%string :: log_A ++ ["before B"; "B failed"]%string)
       (BeforeAllSteps :: calls_A ++ [BeforeEachStep 1 "B"; RunStep 1 "B"]%string)
       (BeforeAllSteps :: calls_A ++ [BeforeEachStep 1 "B"%string])
       (RunStep 1 "B"%string) [] 1 "B failed"%string
       ("beforeAll"%string :: log_A ++ ["before B"; "B failed"]%string)
       eq_refl eq_refl eq_refl eq_refl)))).
Defined.

(** C6 as stated fails: with the cursor of the runner for [A, B, C] at
    2, after [run(2)], the calls [run(1)] and [run()] execute C and
    nothing else; B, at index 1, is not executed by either. *)
Lemma run_upTo_behind_cursor_skips_steps :
  run (Some 2%Z) (new_Runner demo logging, [])
  = (Return false,
     (at_cursor demo logging 2, "beforeAll"%string :: log_A ++ log_B),
     BeforeAllSteps :: calls_A ++ calls_B)
  /\ run (Some 1%Z)
       (at_cursor demo logging 2, "beforeAll"%string :: log_A ++ log_B)
     = (Return false,
        (at_cursor demo logging 2, "beforeAll"%string :: log_A ++ log_B),
        [])
  /\ run None
       (at_cursor demo logging 2, "beforeAll"%string :: log_A ++ log_B)
     = (Return true,
        (at_cursor demo logging 3,
         "beforeAll"%string :: log_A ++ log_B ++ log_C ++ ["afterAll"%string]),
        calls_C ++ [AfterAllSteps])
  /\ run_steps ([] ++ calls_C ++ [AfterAllSteps]) = ["C"%string]
  /\ count_occ Nat.eq_dec
       (run_indices ([] ++ calls_C ++ [@AfterAllSteps string])) 1 = 0.
Proof. repeat split; reflexivity. Qed.

(** [run(1)] then [run()] on a fresh runner for [A, B, C]: the first
    call is handed A, the second B and C. *)
Lemma run_upTo_then_run_executes_each_step_once_example :
  run (Some 1%Z) (new_Runner demo logging, [])
  = (Return false, (at_cursor demo logging 1, "beforeAll"%string :: log_A),
     BeforeAllSteps :: calls_A)
  /\ run None (at_cursor demo logging 1, "beforeAll"%string :: log_A)
     = (Return true,
        (at_cursor demo logging 3,
         "beforeAll"%string :: log_A ++ log_B ++ log_C ++ ["afterAll"%string]),
        calls_B ++ calls_C ++ [AfterAllSteps])
  /\ run_steps (BeforeAllSteps :: calls_A) = ["A"%string]
  /\ run_steps (calls_B ++ calls_C ++ [AfterAllSteps]) = ["B"; "C"]%string.
Proof.
  split; [reflexivity|]. split; [reflexivity|].
  exact ((fun H => conj (proj1 H) (proj1 (proj2 H)))
    (proj1
       (run_upTo_then_run_executes_each_step_once
          (new_Runner demo logging) [] 1
          false (at_cursor demo logging 1) ("beforeAll"%string :: log_A)
          (BeforeAllSteps :: calls_A)
          true (at_cursor demo logging 3)
          ("beforeAll"%string :: log_A ++ log_B ++ log_C ++ ["afterAll"%string])
          (calls_B ++ calls_C ++ [AfterAllSteps])
          eq_refl eq_refl)
       (le_0_n 1))).
Defined.

(** C9 as stated fails: on a fresh runner, which is not complete,
    [run(0)] calls [beforeAllSteps]. *)
Lemma run_0_calls_beforeAllSteps :
  run (Some 0%Z) (new_Runner single logging, [])
  = (Return false, (new_Runner single logging, ["beforeAll"%string]),
     [BeforeAllSteps]).
Proof. reflexivity. Qed.

(** [run(1)] with the cursor at 2 on [A, B, C]: no call, nothing
    changes. *)
Lemma run_upTo_not_beyond_cursor_example :
  run (Some 1%Z) (at_cursor demo logging 2, ["x"%string])
  = (Return false, (at_cursor demo logging 2, ["x"%string]), [])
  /\ filter is_step_call (@nil (Call string)) = [].
Proof.
  split; [reflexivity|].
  exact (proj1 (proj2
    (run_upTo_not_beyond_cursor 1%Z
       (at_cursor demo logging 2) ["x"%string]
       (Return false) (at_cursor demo logging 2) ["x"%string] []
       ltac:(cbn; lia) eq_refl))).
Defined.

(** After [run(0)] the cursor is still 0, and the next [run()] calls
    [beforeAllSteps] again, first. *)
Lemma beforeAllSteps_while_cursor_is_0_example :
  run None (new_Runner single logging, ["beforeAll"%string])
  = (Return true,
     (at_cursor single logging 1,
      ["beforeAll"; "beforeAll"]%string ++ log_A ++ ["afterAll"%string]),
     BeforeAllSteps :: calls_A ++ [AfterAllSteps])
  /\ exists rest,
       BeforeAllSteps :: calls_A ++ [AfterAllSteps] = BeforeAllSteps :: rest.
Proof.
  split; [reflexivity|].
  exact (proj1
    (beforeAllSteps_while_cursor_is_0 None
       (new_Runner single logging) ["beforeAll"%string]
       (Return true) (at_cursor single logging 1)
       (["beforeAll"; "beforeAll"]%string ++ log_A ++ ["afterAll"%string])
       (BeforeAllSteps :: calls_A ++ [AfterAllSteps])
       (fun _ => note "beforeAll")
       eq_refl eq_refl eq_refl)).
Defined.


(** The flow [A, import steps.json, B] resolves to [A, X, Y, B]. *)
Lemma importSteps_splices_file_example :
  ImportExamples.readFile "steps.json" = inr ImportExamples.steps_json
  /\ ImportExamples.resolve
       (ImportExamples.flow_of
          [IsStep ImportExamples.A; ImportExamples.file_marker "steps.json";
           IsStep ImportExamples.B])
     = inr {| title := "demo"; timeout := None; selectorAttribute := None;
              steps := [Step_value ImportExamples.A; ImportExamples.X;
                        ImportExamples.Y; Step_value ImportExamples.B] |}.
Proof.
  split; [reflexivity|].
  apply (importSteps_splices_file
           ImportExamples.readFile ImportExamples.JSON_parse
           ImportExamples.in_message ImportExamples.spread_message
           (ImportExamples.flow_of
              [IsStep ImportExamples.A; ImportExamples.file_marker "steps.json";
               IsStep ImportExamples.B])
           [ImportExamples.A] "steps.json" [ImportExamples.B]
           ImportExamples.steps_json
           (JObject [("steps"%string, JArray [ImportExamples.X; ImportExamples.Y])])
           [ImportExamples.X; ImportExamples.Y]);
    reflexivity.
Defined.

(** C3 as stated fails: the marker inside [nested.json] is appended as
    it is, so the resolved flow holds an import marker. *)
Lemma importSteps_keeps_imported_marker :
  ImportExamples.resolve
    (ImportExamples.flow_of [ImportExamples.file_marker "nested.json"])
  = inr {| title := "demo"; timeout := None; selectorAttribute := None;
           steps := [ImportExamples.nested_marker] |}
  /\ is_import_marker ImportExamples.nested_marker = true.
Proof. split; reflexivity. Qed.

(** With [steps.json], which holds no marker, none is left. *)
Lemma importSteps_replaces_given_markers_example :
  ImportExamples.resolve
    (ImportExamples.flow_of
       [IsStep ImportExamples.A; ImportExamples.file_marker "steps.json";
        IsStep ImportExamples.B])
  = inr {| title := "demo"; timeout := None; selectorAttribute := None;
           steps := [Step_value ImportExamples.A; ImportExamples.X;
                     ImportExamples.Y; Step_value ImportExamples.B] |}
  /\ Forall (fun v => is_import_marker v = false)
       [Step_value ImportExamples.A; ImportExamples.X;
        ImportExamples.Y; Step_value ImportExamples.B].
Proof.
  split; [reflexivity|].
  apply (proj2 (importSteps_replaces_given_markers
           ImportExamples.readFile ImportExamples.JSON_parse
           ImportExamples.in_message ImportExamples.spread_message
           (ImportExamples.flow_of
              [IsStep ImportExamples.A; ImportExamples.file_marker "steps.json";
               IsStep ImportExamples.B])
           {| title := "demo"; timeout := None; selectorAttribute := None;
              steps := [Step_value ImportExamples.A; ImportExamples.X;
                        ImportExamples.Y; Step_value ImportExamples.B] |}
           eq_refl)).
  intros i imported [Hin|[Hin|[Hin|[]]]] Hread; try discriminate Hin.
  injection Hin as <-. cbn in Hread. injection Hread as <-.
  repeat constructor.
Defined.

(** A marker for a URL, and markers for a missing file, a file that is
    not JSON and a file without steps. *)
Lemma importSteps_fails_on_bad_marker_example :
  ImportExamples.resolve
    (ImportExamples.flow_of
       [IsStep ImportExamples.A; ImportExamples.url_marker; IsStep ImportExamples.B])
  = inl (unsupported_Error "url")
  /\ ImportExamples.resolve
       (ImportExamples.flow_of
          [IsStep ImportExamples.A; ImportExamples.file_marker "missing.json"])
     = inl (reading_Error "missing.json"
              {| name := "Error";
                 message := "ENOENT: no such file or directory, open 'missing.json'" |})
  /\ ImportExamples.resolve
       (ImportExamples.flow_of
          [IsStep ImportExamples.A; ImportExamples.file_marker "broken.json"])
     = inl (reading_Error "broken.json"
              {| name := "SyntaxError"; message := "Unexpected end of JSON input" |})
  /\ exists error,
       ImportExamples.resolve
         (ImportExamples.flow_of
            [IsStep ImportExamples.A; ImportExamples.file_marker "empty.json"])
       = inl (reading_Error "empty.json" error)
       /\ (error = no_steps_Error "empty.json"
           \/ error = TypeError
                        (ImportExamples.in_message
                           (JObject [("title", JString "nothing")]%string))).
Proof.
  pose (thm := fun given i after H =>
    proj1 (proj2 (importSteps_fails_on_bad_marker
      ImportExamples.readFile ImportExamples.JSON_parse
      ImportExamples.in_message ImportExamples.spread_message
      (ImportExamples.flow_of given) [IsStep ImportExamples.A] i after H))
      [Step_value ImportExamples.A] eq_refl).
  split; [|split; [|split]].
  - apply (proj1 (thm _ {| from := "url"; target := "https://example.com/steps.json" |}
                    [IsStep ImportExamples.B] eq_refl)).
    discriminate.
  - apply (proj1 (proj2 (thm _ {| from := "file"; target := "missing.json" |}
                           [] eq_refl) eq_refl)).
    reflexivity.
  - apply (proj1 (proj2 (proj2 (thm _ {| from := "file"; target := "broken.json" |}
                           [] eq_refl) eq_refl)) ImportExamples.broken_json).
    + reflexivity.
    + reflexivity.
  - apply (proj2 (proj2 (proj2 (thm _ {| from := "file"; target := "empty.json" |}
                           [] eq_refl) eq_refl)) ImportExamples.empty_json).
    + reflexivity.
    + reflexivity.
    + reflexivity.
Defined.

(** * Runs of the model on more of the code *)

Lemma logging_never_rejects : never_rejects logging.
Proof.
  unfold never_rejects, logging, note. cbn.
  repeat split; intros; try match goal with
                            | H : Some _ = Some _ |- _ => injection H as <-
                            end; eexists; reflexivity.
Qed.

Lemma counting_never_rejects : never_rejects OddFiles.counting.
Proof.
  unfold never_rejects, OddFiles.counting. cbn.
  repeat split; intros; try discriminate; eexists; reflexivity.
Qed.

(** A flow of two plain steps is resolved to the same two steps. *)
Lemma importSteps_leaves_plain_flow_example :
  ImportExamples.resolve
    (ImportExamples.flow_of [IsStep ImportExamples.A; IsStep ImportExamples.B])
  = inr (as_UserFlow
           (ImportExamples.flow_of
              [IsStep ImportExamples.A; IsStep ImportExamples.B]))
  /\ steps (as_UserFlow
              (ImportExamples.flow_of
                 [IsStep ImportExamples.A; IsStep ImportExamples.B]))
     = [Step_value ImportExamples.A; Step_value ImportExamples.B].
Proof.
  apply (importSteps_leaves_plain_flow
           ImportExamples.readFile ImportExamples.JSON_parse
           ImportExamples.in_message ImportExamples.spread_message
           (ImportExamples.flow_of
              [IsStep ImportExamples.A; IsStep ImportExamples.B])).
  intros step [<-|[<-|[]]]; discriminate.
Defined.

(** A runner created for [A, import steps.json, B] runs the four steps
    of the resolved flow. *)
Lemma createRunner_then_run_example :
  createRunner ImportExamples.readFile ImportExamples.JSON_parse
    ImportExamples.in_message ImportExamples.spread_message
    OddFiles.launch OddFiles.given (Some OddFiles.counting)
  = inr (new_Runner OddFiles.resolved OddFiles.counting)
  /\ (Return (Err := string) true = Return true
      /\ run_steps
           [RunStep 0 (Step_value ImportExamples.A); RunStep 1 ImportExamples.X;
            RunStep 2 ImportExamples.Y; RunStep 3 (Step_value ImportExamples.B)]
         = flat_map (expansion ImportExamples.readFile ImportExamples.JSON_parse
                       ImportExamples.in_message ImportExamples.spread_message)
             (steps OddFiles.given)
      /\ 4 = List.length
               (flat_map (expansion ImportExamples.readFile ImportExamples.JSON_parse
                            ImportExamples.in_message ImportExamples.spread_message)
                  (steps OddFiles.given))).
Proof.
  split; [reflexivity|].
  exact (createRunner_then_run
           ImportExamples.readFile ImportExamples.JSON_parse
           ImportExamples.in_message ImportExamples.spread_message
           nat string OddFiles.launch OddFiles.given OddFiles.counting
           (new_Runner OddFiles.resolved OddFiles.counting) 0
           (Return true)
           {| flow := OddFiles.resolved; extension := OddFiles.counting;
              nextStep := 4 |}
           4
           [RunStep 0 (Step_value ImportExamples.A); RunStep 1 ImportExamples.X;
            RunStep 2 ImportExamples.Y; RunStep 3 (Step_value ImportExamples.B)]
           eq_refl counting_never_rejects eq_refl).
Defined.

(** [text.json] holds the string [ab] as its steps: the flow gets the
    two one-character strings. *)
Lemma importSteps_spreads_string_example :
  importSteps OddFiles.readFile OddFiles.JSON_parse
    ImportExamples.in_message ImportExamples.spread_message
    (ImportExamples.flow_of
       [IsStep ImportExamples.A; ImportExamples.file_marker "text.json";
        IsStep ImportExamples.B])
  = inr {| title := "demo"; timeout := None; selectorAttribute := None;
           steps := [Step_value ImportExamples.A; JString "a"; JString "b";
                     Step_value ImportExamples.B] |}.
Proof.
  exact (importSteps_spreads_string
           OddFiles.readFile OddFiles.JSON_parse
           ImportExamples.in_message ImportExamples.spread_message
           (ImportExamples.flow_of
              [IsStep ImportExamples.A; ImportExamples.file_marker "text.json";
               IsStep ImportExamples.B])
           [ImportExamples.A] "text.json" [ImportExamples.B]
           OddFiles.text_json (JObject [("steps", JString "ab")]%string) "ab"
           eq_refl eq_refl eq_refl eq_refl).
Defined.

(** [flag.json] holds [true] as its steps: the spread throws, and the
    error is wrapped like any other. *)
Lemma importSteps_fails_on_unspreadable_steps_example :
  importSteps OddFiles.readFile OddFiles.JSON_parse
    ImportExamples.in_message ImportExamples.spread_message
    (ImportExamples.flow_of
       [IsStep ImportExamples.A; ImportExamples.file_marker "flag.json"])
  = inl (reading_Error "flag.json"
           (TypeError (ImportExamples.spread_message (Some (JBool true)))))
  /\ toString (TypeError (ImportExamples.spread_message (Some (JBool true))))
     = ("TypeError: "
        ++ "Spread syntax requires ...iterable[Symbol.iterator] to be a function")%string.
Proof.
  refine (importSteps_fails_on_unspreadable_steps
            OddFiles.readFile OddFiles.JSON_parse
            ImportExamples.in_message ImportExamples.spread_message
            (ImportExamples.flow_of
               [IsStep ImportExamples.A; ImportExamples.file_marker "flag.json"])
            [IsStep ImportExamples.A] "flag.json" []
            [Step_value ImportExamples.A]
            OddFiles.flag_json (JObject [("steps"%string, JBool true)])
            (JBool true)
            eq_refl eq_refl eq_refl eq_refl eq_refl _ _);
    intros x; discriminate.
Defined.

(** [run(1)] then [run()] on [A, B, C], against [run()] alone. *)
Lemma run_upTo_then_further_example :
  run None (new_Runner demo logging, [])
  = (Return true,
     (at_cursor demo logging 3,
      "beforeAll"%string :: log_A ++ log_B ++ log_C ++ ["afterAll"%string]),
     (BeforeAllSteps :: calls_A) ++ calls_B ++ calls_C ++ [AfterAllSteps]).
Proof.
  exact (@run_upTo_then_further string (list string) string
           1%Z None (new_Runner demo logging) []
           (at_cursor demo logging 1) ("beforeAll"%string :: log_A)
           (BeforeAllSteps :: calls_A)
           (Return true) (at_cursor demo logging 3)
           ("beforeAll"%string :: log_A ++ log_B ++ log_C ++ ["afterAll"%string])
           (calls_B ++ calls_C ++ [AfterAllSteps])
           eq_refl (le_n 1) I eq_refl).
Defined.

(** After [run(1)] on [A, B, C], [run(2)] returns [false] with the
    cursor at 2, short of the three steps. *)
Lemma run_returns_whether_complete_example :
  flow (at_cursor demo logging 2) = demo
  /\ extension (at_cursor demo logging 2) = logging
  /\ 1 <= 2 <= 3
  /\ (forall v, Return (Err := string) false = Return v -> (v = true <-> 2 = 3)).
Proof.
  exact (@run_returns_whether_complete string (list string) string
           [Some 1%Z] demo logging []
           [(0, Return false, BeforeAllSteps :: calls_A)]
           (at_cursor demo logging 1) ("beforeAll"%string :: log_A)
           (Some 2%Z) (Return false) (at_cursor demo logging 2)
           ("beforeAll"%string :: log_A ++ log_B) calls_B
           eq_refl eq_refl).
Defined.

(** [TRUE] and [True] are the same setting, headless. *)
Lemma getHeadlessEnvVar_ignores_case_example :
  CLIUtils.getHeadlessEnvVar (Some "TRUE"%string)
  = CLIUtils.getHeadlessEnvVar (Some "True"%string)
  /\ CLIUtils.getHeadlessEnvVar (Some (CLIUtils.toLowerCase "TRUE"))
     = CLIUtils.getHeadlessEnvVar (Some "TRUE"%string).
Proof.
  exact (CLIUtilsFacts.getHeadlessEnvVar_ignores_case "TRUE" "True" eq_refl).
Defined.

(** A file, a folder and a path that does not exist. *)
Lemma getRecordingPaths_finds_example :
  fst (CLIUtils.getRecordingPaths CLIExamples.lstatSync CLIExamples.readdirSync
         CLIExamples.extname CLIExamples.join
         ["one.json"; "recordings"; "missing"]%string (Some false))
  = inr ["one.json"; "recordings/a.json"]%string
  /\ (forall p,
        In p ["one.json"; "recordings/a.json"]%string <->
        (In p ["one.json"; "recordings"; "missing"]%string
         /\ CLIExamples.lstatSync p = inr false)
        \/ (exists folder files file,
               In folder ["one.json"; "recordings"; "missing"]%string
               /\ CLIExamples.lstatSync folder = inr true
               /\ CLIExamples.readdirSync folder = inr files
               /\ In file files /\ CLIExamples.extname file = ".json"%string
               /\ p = CLIExamples.join folder file)).
Proof.
  split; [reflexivity|].
  exact (CLIUtilsFacts.getRecordingPaths_finds
           CLIExamples.lstatSync CLIExamples.readdirSync
           CLIExamples.extname CLIExamples.join
           ["one.json"; "recordings"; "missing"]%string (Some false)
           ["one.json"; "recordings/a.json"]%string eq_refl).
Defined.

(** On the report for one file, a value given for [finishedAt] is
    replaced by the time of the clock. *)
Lemma update_stamps_finishedAt_example :
  CLIUtils.at_index (CLIUtils.get_results CLIExamples.one_report) 0
  = Some CLIExamples.one_result
  /\ CLIUtils.update CLIExamples.now CLIExamples.bgYellow CLIExamples.bgGreen
       CLIExamples.bgRed CLIExamples.error_heading CLIExamples.relative
       CLIExamples.number_toString CLIExamples.table_toString
       CLIExamples.one_report 0 (CLIUtils.set_finishedAt 100) CLIExamples.start
     = CLIUtils.update CLIExamples.now CLIExamples.bgYellow CLIExamples.bgGreen
         CLIExamples.bgRed CLIExamples.error_heading CLIExamples.relative
         CLIExamples.number_toString CLIExamples.table_toString
         CLIExamples.one_report 0 (CLIUtils.set_finishedAt 200) CLIExamples.start.
Proof.
  split; [reflexivity|].
  exact (proj2
           (StatusReportFacts.update_stamps_finishedAt
              CLIExamples.now CLIExamples.bgYellow CLIExamples.bgGreen
              CLIExamples.bgRed CLIExamples.error_heading CLIExamples.relative
              CLIExamples.number_toString CLIExamples.table_toString
              CLIExamples.one_report 0%Z (CLIUtils.set_finishedAt 100)
              CLIExamples.start CLIExamples.one_result eq_refl)
           100%Z 200%Z).
Defined.

(** A report for one file whose run has succeeded: both tables hold the
    same row. *)
Lemma createStatusReport_matches_report_example :
  CLIUtils.createStatusReport CLIExamples.bgGreen CLIExamples.bgRed
    CLIExamples.relative CLIExamples.number_toString
    (CLIUtils.get_results
       (fst (CLIUtils.report_after CLIExamples.now CLIExamples.bgYellow
               CLIExamples.bgGreen CLIExamples.bgRed CLIExamples.error_heading
               CLIExamples.relative CLIExamples.number_toString
               CLIExamples.table_toString ["a.json"%string] None
               [CLIUtils.do_update 0 (CLIUtils.set_success (CLIUtils.Finished true))]
               CLIExamples.start)))
  = CLIUtils.table
      (fst (CLIUtils.report_after CLIExamples.now CLIExamples.bgYellow
              CLIExamples.bgGreen CLIExamples.bgRed CLIExamples.error_heading
              CLIExamples.relative CLIExamples.number_toString
              CLIExamples.table_toString ["a.json"%string] None
              [CLIUtils.do_update 0 (CLIUtils.set_success (CLIUtils.Finished true))]
              CLIExamples.start)).
Proof.
  apply (StatusReportFacts.createStatusReport_matches_report
           CLIExamples.now CLIExamples.bgYellow CLIExamples.bgGreen
           CLIExamples.bgRed CLIExamples.error_heading CLIExamples.relative
           CLIExamples.number_toString CLIExamples.table_toString
           ["a.json"%string] None
           [CLIUtils.do_update 0 (CLIUtils.set_success (CLIUtils.Finished true))]
           CLIExamples.start).
  intros r [<-|[]]. split; [now exists true | discriminate].
Defined.

(** [good.json] passes and [bad.json] cannot be read: both are
    attempted, and [runFiles] is rejected. *)
Lemma runFiles_fails_iff_a_recording_fails_example :
  fst (CLIUtils.runFiles CLIExamples.now CLIExamples.bgYellow CLIExamples.bgGreen
         CLIExamples.bgRed CLIExamples.error_heading CLIExamples.relative
         CLIExamples.number_toString CLIExamples.table_toString
         CLIExamples.stack_of CLIExamples.import_extension CLIExamples.attempt
         CLIExamples.close_ok ["bad.json"; "good.json"]%string
         (Some CLIExamples.quiet) CLIExamples.start)
  = inl (inr (new_Error "Some recordings have failed to run."))
  /\ List.length
       (CLIUtils.results
          (snd (CLIUtils.runFiles CLIExamples.now CLIExamples.bgYellow
                  CLIExamples.bgGreen CLIExamples.bgRed CLIExamples.error_heading
                  CLIExamples.relative CLIExamples.number_toString
                  CLIExamples.table_toString CLIExamples.stack_of
                  CLIExamples.import_extension CLIExamples.attempt
                  CLIExamples.close_ok ["bad.json"; "good.json"]%string
                  (Some CLIExamples.quiet) CLIExamples.start)))
     = 2.
Proof.
  split; [reflexivity|].
  exact (proj1
           (StatusReportFacts.runFiles_fails_iff_a_recording_fails
              CLIExamples.now CLIExamples.bgYellow CLIExamples.bgGreen
              CLIExamples.bgRed CLIExamples.error_heading CLIExamples.relative
              CLIExamples.number_toString CLIExamples.table_toString
              string CLIExamples.stack_of CLIExamples.import_extension
              CLIExamples.attempt CLIExamples.close_ok
              ["bad.json"; "good.json"]%string CLIExamples.quiet CLIExamples.start
              (fun i _ => eq_refl) (fun path _ => eq_refl))).
Defined.


(** [good.json] passes but its browser cannot be closed: [other.json]
    is never attempted. *)
Lemma runFiles_ends_when_close_rejects_example :
  fst (CLIUtils.runFiles CLIExamples.now CLIExamples.bgYellow CLIExamples.bgGreen
         CLIExamples.bgRed CLIExamples.error_heading CLIExamples.relative
         CLIExamples.number_toString CLIExamples.table_toString
         CLIExamples.stack_of CLIExamples.import_extension CLIExamples.attempt
         CLIExamples.close_crashes (nil ++ ["good.json"; "other.json"]%string)
         (Some CLIExamples.quiet) CLIExamples.start)
  = inl (inl "Target closed"%string)
  /\ List.length
       (CLIUtils.results
          (snd (CLIUtils.runFiles CLIExamples.now CLIExamples.bgYellow
                  CLIExamples.bgGreen CLIExamples.bgRed CLIExamples.error_heading
                  CLIExamples.relative CLIExamples.number_toString
                  CLIExamples.table_toString CLIExamples.stack_of
                  CLIExamples.import_extension CLIExamples.attempt
                  CLIExamples.close_crashes
                  (nil ++ ["good.json"; "other.json"]%string)
                  (Some CLIExamples.quiet) CLIExamples.start)))
     = 1.
Proof.
  refine ((fun H => conj (proj1 H) (proj1 (proj2 H)))
            (StatusReportFacts.runFiles_ends_when_close_rejects
               CLIExamples.now CLIExamples.bgYellow CLIExamples.bgGreen
               CLIExamples.bgRed CLIExamples.error_heading CLIExamples.relative
               CLIExamples.number_toString CLIExamples.table_toString
               string CLIExamples.stack_of CLIExamples.import_extension
               CLIExamples.attempt CLIExamples.close_crashes
               nil "good.json"%string ["other.json"%string]
               CLIExamples.quiet CLIExamples.start "Target closed"%string
               _ eq_refl eq_refl (fun path _ => eq_refl))).
  intros i Hi. inversion Hi.
Defined.

(** [abort] called while step B of [A, B, C] runs: B is completed, C is
    not run, [afterAllSteps] is called and [run] returns [false]. *)
Lemma abortable_run_returns_example :
  Abortable.run AbortableExamples.during_B (Abortable.new_Runner demo logging, [])
  = (Return false,
     ({| Abortable.flow := demo; Abortable.extension := logging;
         Abortable.aborted := true |},
      "beforeAll"%string :: log_A ++ log_B ++ ["afterAll"%string]),
     BeforeAllSteps :: calls_A ++ calls_B ++ [AfterAllSteps])
  /\ exists n,
      n <= 3
      /\ BeforeAllSteps :: calls_A ++ calls_B ++ [AfterAllSteps]
         = [BeforeAllSteps]
           ++ Abortable.iterations (Abortable.new_Runner demo logging) 0 n
           ++ [AfterAllSteps]
      /\ (false = true <-> n = 3)
      /\ (n < 3 -> true = true).
Proof.
  split; [reflexivity|].
  exact (@AbortableFacts.abortable_run_returns string (list string) string
           AbortableExamples.during_B (Abortable.new_Runner demo logging) []
           false
           {| Abortable.flow := demo; Abortable.extension := logging;
              Abortable.aborted := true |}
           ("beforeAll"%string :: log_A ++ log_B ++ ["afterAll"%string])
           (BeforeAllSteps :: calls_A ++ calls_B ++ [AfterAllSteps])
           eq_refl).
Defined.

(** The same run, from the call during which [abort] was called. *)
Lemma abort_ends_run_after_current_step_example :
  BeforeAllSteps :: calls_A ++ calls_B ++ [AfterAllSteps]
  = [BeforeAllSteps]
    ++ Abortable.iterations (Abortable.new_Runner demo logging) 0 2
    ++ [AfterAllSteps]
  /\ false = (3 <=? 2).
Proof.
  refine (proj1
            (@AbortableFacts.abort_ends_run_after_current_step
               string (list string) string
               AbortableExamples.during_B (Abortable.new_Runner demo logging) []
               false
               {| Abortable.flow := demo; Abortable.extension := logging;
                  Abortable.aborted := true |}
               ("beforeAll"%string :: log_A ++ log_B ++ ["afterAll"%string])
               (BeforeAllSteps :: calls_A ++ calls_B ++ [AfterAllSteps])
               (RunStep 1 "B"%string)
               (fun _ => eq_refl) eq_refl _)
            1 eq_refl).
  cbn. auto 10.
Defined.

(** Two runs of the abortable runner on [A, B, C] make the same calls. *)
Lemma abortable_run_starts_over_example :
  Return (Err := string) true = Return true
  /\ Return (Err := string) true = Return true
  /\ BeforeAllSteps :: calls_A ++ calls_B ++ calls_C ++ [AfterAllSteps]
     = [BeforeAllSteps]
       ++ Abortable.iterations (Abortable.new_Runner demo logging) 0 3
       ++ [AfterAllSteps]
  /\ BeforeAllSteps :: calls_A ++ calls_B ++ calls_C ++ [AfterAllSteps]
     = BeforeAllSteps :: calls_A ++ calls_B ++ calls_C ++ [AfterAllSteps].
Proof.
  exact (@AbortableFacts.abortable_run_starts_over string (list string) string
           AbortableExamples.never (Abortable.new_Runner demo logging) []
           (Return true) (Abortable.new_Runner demo logging)
           ("beforeAll"%string :: log_A ++ log_B ++ log_C ++ ["afterAll"%string])
           (BeforeAllSteps :: calls_A ++ calls_B ++ calls_C ++ [AfterAllSteps])
           (Return true) (Abortable.new_Runner demo logging)
           (("beforeAll"%string :: log_A ++ log_B ++ log_C ++ ["afterAll"%string])
            ++ "beforeAll"%string :: log_A ++ log_B ++ log_C ++ ["afterAll"%string])
           (BeforeAllSteps :: calls_A ++ calls_B ++ calls_C ++ [AfterAllSteps])
           logging_never_rejects (fun _ _ => eq_refl) eq_refl eq_refl).
Defined.
